(** * Objockey core: the [ObjockeyObject] class of [@objockey/core]

    A shallow embedding of the class (the source and its transpiled build
    [lib/index.js] have the same method bodies) together with the part of
    the host language the methods rely on: dynamic values, [typeof],
    truthiness, string coercion, property enumeration order, object spread,
    [Array.prototype.sort], [JSON.parse] and [JSON.stringify].

    Conventions of the model.
    - A Number is an exact decimal [m * 10^e], a NaN or an infinity.  The
      rounding of binary64, overflow and the sign of zero are not modelled:
      a numeral that the host would round, or read as an infinity, is read
      digit for digit.
    - A string is a byte string, and text is taken to be ASCII: for other
      text the host counts UTF-16 code units where the model counts bytes.
    - An array has no holes: a write past its end fills the gap with
      [undefined].
    - A payload value is [undefined], [null], a boolean, a Number, a BigInt,
      a string, a Symbol, an array or a plain object; functions occur only
      as callbacks.
    - A callback is a total function of its three arguments that neither
      throws nor mutates what it is given.
    - Values are compared structurally.  The identity of containers is
      followed for the payload and for what [filter], [map] and
      [condenseMap] create, through a store of containers; elsewhere it is
      not modelled, and the result of a callback keeps no reference to an
      array that is written to after the call.
    - A method is a function from the object before the call to the
      completion of the call and the object after it. *)

From Stdlib Require Import ZArith List String Ascii Bool Lia.
From Stdlib Require Import DecimalString.
From Stdlib Require DecimalFacts DecimalN.
Import ListNotations.
Local Open Scope string_scope.
Local Open Scope Z_scope.

(** ** Completions: a call either returns or throws *)

Inductive error : Type :=
| SyntaxError
| TypeError
| RangeError
| ReferenceError (identifier : string)
(** [class ObjockeyError extends Error] *)
| ObjockeyError (message : string).

Inductive completion (A : Type) : Type :=
| Return (a : A)
| Throw (e : error).

Arguments Return {A} a.
Arguments Throw {A} e.

Definition bind {A B : Type} (c : completion A) (k : A -> completion B)
  : completion B :=
  match c with
  | Return a => k a
  | Throw e => Throw e
  end.

Notation "x <- c ;; k" := (bind c (fun x => k))
  (at level 61, c at next level, right associativity).

(** ** Numbers *)

Inductive number : Type :=
| NaN
| Infinity (negative : bool)
| Finite (m e : Z).

(** Canonical form of [m * 10^e]: no trailing zero in the mantissa. *)
Fixpoint strip_zeros (fuel : nat) (m e : Z) : Z * Z :=
  match fuel with
  | O => (m, e)
  | S fuel' =>
      if (m mod 10 =? 0) then strip_zeros fuel' (m / 10) (e + 1) else (m, e)
  end.

Definition decimal (m e : Z) : number :=
  if m =? 0 then Finite 0 0
  else let '(m', e') := strip_zeros (Z.to_nat (Z.log2 (Z.abs m))) m e in
       Finite m' e'.

Definition normalize (x : number) : number :=
  match x with
  | Finite m e => decimal m e
  | _ => x
  end.

Definition num_of_Z (z : Z) : number := decimal z 0.
Definition num_of_nat (n : nat) : number := num_of_Z (Z.of_nat n).

Definition num_neg (x : number) : number :=
  match x with
  | NaN => NaN
  | Infinity s => Infinity (negb s)
  | Finite m e => Finite (- m) e
  end.

Definition num_add (x y : number) : number :=
  match x, y with
  | NaN, _ | _, NaN => NaN
  | Infinity s, Infinity t => if Bool.eqb s t then Infinity s else NaN
  | Infinity s, Finite _ _ | Finite _ _, Infinity s => Infinity s
  | Finite m1 e1, Finite m2 e2 =>
      let e := Z.min e1 e2 in
      decimal (m1 * 10 ^ (e1 - e) + m2 * 10 ^ (e2 - e)) e
  end.

Definition num_sub (x y : number) : number := num_add x (num_neg y).

(** The quotient keeps at least 17 significant decimal digits (a binary64
    holds between 15 and 17); it is exact whenever it has that few. *)
Definition num_div (x y : number) : number :=
  match x, y with
  | NaN, _ | _, NaN => NaN
  | Infinity _, Infinity _ => NaN
  | Infinity s, Finite m _ => Infinity (xorb s (m <? 0))
  | Finite _ _, Infinity _ => Finite 0 0
  | Finite m1 e1, Finite m2 e2 =>
      if m2 =? 0 then (if m1 =? 0 then NaN else Infinity (m1 <? 0))
      else
        let p := 18 + Z.log2 (Z.abs m2) in
        let q := (2 * Z.abs m1 * 10 ^ p + Z.abs m2) / (2 * Z.abs m2) in
        decimal (Z.sgn m1 * Z.sgn m2 * q) (e1 - e2 - p)
  end.

Definition num_is_zero (x : number) : bool :=
  match x with
  | Finite m _ => m =? 0
  | _ => false
  end.

Definition digits_of (n : Z) : string :=
  NilEmpty.string_of_uint (N.to_uint (Z.to_N n)).

Fixpoint zeros (k : nat) : string :=
  match k with
  | O => EmptyString
  | S k' => String "0" (zeros k')
  end.

(** [Number::toString] in radix 10, on the digits [s] of the mantissa:
    [k] digits, decimal point after the [n]-th. *)
Definition Number_toString (x : number) : string :=
  match normalize x with
  | NaN => "NaN"
  | Infinity false => "Infinity"
  | Infinity true => "-Infinity"
  | Finite m e =>
      if m =? 0 then "0"
      else
        let sign := if m <? 0 then "-" else "" in
        let s := digits_of (Z.abs m) in
        let k := Z.of_nat (String.length s) in
        let n := k + e in
        String.concat ""
          (sign ::
           (if (k <=? n) && (n <=? 21) then [s; zeros (Z.to_nat (n - k))]
            else if (0 <? n) && (n <=? 21) then
              [substring 0 (Z.to_nat n) s; ".";
               substring (Z.to_nat n) (Z.to_nat (k - n)) s]
            else if (-6 <? n) && (n <=? 0) then
              ["0."; zeros (Z.to_nat (- n)); s]
            else
              let ex := n - 1 in
              let exs :=
                String.append (if ex <? 0 then "-" else "+")
                              (digits_of (Z.abs ex)) in
              if k =? 1 then [s; "e"; exs]
              else [substring 0 1 s; "."; substring 1 (Z.to_nat (k - 1)) s;
                    "e"; exs]))
  end.

Local Close Scope Z_scope.

(** ** Values *)

#[local] Set Warnings "-register-all".

Inductive value : Type :=
| VUndefined
| VNull
| VBool (b : bool)
| VNum (n : number)
| VBigInt (z : Z)
| VStr (s : string)
| VSymbol (description : string)
| VArr (elements : list value)
| VObj (properties : list (string * value)).

Definition properties : Type := list (string * value).

Definition typeof (v : value) : string :=
  match v with
  | VUndefined => "undefined"
  | VNull => "object"
  | VBool _ => "boolean"
  | VNum _ => "number"
  | VBigInt _ => "bigint"
  | VStr _ => "string"
  | VSymbol _ => "symbol"
  | VArr _ => "object"
  | VObj _ => "object"
  end.

(** [ToBoolean] *)
Definition truthy (v : value) : bool :=
  match v with
  | VUndefined | VNull => false
  | VBool b => b
  | VNum NaN => false
  | VNum n => negb (num_is_zero n)
  | VBigInt z => negb (z =? 0)%Z
  | VStr s => negb (String.eqb s "")
  | VSymbol _ | VArr _ | VObj _ => true
  end.

Definition Array_isArray (v : value) : bool :=
  match v with
  | VArr _ => true
  | _ => false
  end.

(** [v instanceof Object] *)
Definition instanceof_Object (v : value) : bool :=
  match v with
  | VArr _ | VObj _ => true
  | _ => false
  end.

Definition is_null (v : value) : bool :=
  match v with
  | VNull => true
  | _ => false
  end.

Definition is_undefined (v : value) : bool :=
  match v with
  | VUndefined => true
  | _ => false
  end.

(** [v === ""] *)
Definition is_empty_string (v : value) : bool :=
  match v with
  | VStr s => String.eqb s ""
  | _ => false
  end.

Definition BigInt_toString (z : Z) : string :=
  NilZero.string_of_int (Z.to_int z).

(** [ToString]: an array joins its elements with commas, [null] and
    [undefined] elements giving the empty string; a Symbol throws. *)
Fixpoint ToString (v : value) : completion string :=
  match v with
  | VUndefined => Return "undefined"
  | VNull => Return "null"
  | VBool true => Return "true"
  | VBool false => Return "false"
  | VNum n => Return (Number_toString n)
  | VBigInt z => Return (BigInt_toString z)
  | VStr s => Return s
  | VSymbol _ => Throw TypeError
  | VObj _ => Return "[object Object]"
  | VArr l =>
      (fix join (l : list value) : completion string :=
         match l with
         | [] => Return ""
         | x :: rest =>
             s <- match x with
                  | VUndefined | VNull => Return ""
                  | _ => ToString x
                  end ;;
             match rest with
             | [] => Return s
             | _ :: _ => r <- join rest ;; Return (s ++ "," ++ r)%string
             end
         end) l
  end.

(** ** Properties of objects *)

(** An array index is a canonical decimal numeral below [2^32 - 1]. *)
Definition array_index (k : string) : option N :=
  match NilEmpty.uint_of_string k with
  | Some u =>
      let i := N.of_uint u in
      if String.eqb (NilEmpty.string_of_uint (N.to_uint i)) k
         && (i <? 4294967295)%N
      then Some i else None
  | None => None
  end.

Definition index_key (i : nat) : string :=
  NilEmpty.string_of_uint (Nat.to_uint i).

Fixpoint get_property (k : string) (ps : properties) : option value :=
  match ps with
  | [] => None
  | (k', v) :: rest => if String.eqb k k' then Some v else get_property k rest
  end.

Fixpoint replace_property (k : string) (v : value) (ps : properties)
  : properties :=
  match ps with
  | [] => []
  | (k', v') :: rest =>
      if String.eqb k k' then (k, v) :: rest
      else (k', v') :: replace_property k v rest
  end.

(** Own keys are listed with the array indices first, in ascending order,
    then the other names in the order of their creation. *)
Definition precedes (k k' : string) : bool :=
  match array_index k, array_index k' with
  | Some i, Some j => (i <? j)%N
  | Some _, None => true
  | None, _ => false
  end.

Fixpoint insert_property (k : string) (v : value) (ps : properties)
  : properties :=
  match ps with
  | [] => [(k, v)]
  | (k', v') :: rest =>
      if precedes k k' then (k, v) :: ps
      else (k', v') :: insert_property k v rest
  end.

(** [o[k] = v] on an ordinary object: an existing key keeps its place. *)
Definition define_property (k : string) (v : value) (ps : properties)
  : properties :=
  match get_property k ps with
  | Some _ => replace_property k v ps
  | None => insert_property k v ps
  end.

Fixpoint indexed_from (i : nat) (l : list value) : properties :=
  match l with
  | [] => []
  | x :: rest => (index_key i, x) :: indexed_from (S i) rest
  end.

(** The characters of a string, one a byte; the host has one a UTF-16 code
    unit, which is the same for ASCII text. *)
Fixpoint characters (s : string) : list value :=
  match s with
  | EmptyString => []
  | String c rest => VStr (String c EmptyString) :: characters rest
  end.

(** The own enumerable string-keyed properties of a value, in order: what
    [for (key in v)] visits and what [{...v}] copies. *)
Definition own_enumerable (v : value) : properties :=
  match v with
  | VObj ps => ps
  | VArr l => indexed_from 0 l
  | VStr s => indexed_from 0 (characters s)
  | _ => []
  end.

Definition keys_in (v : value) : list string := map fst (own_enumerable v).

(** [v[k]] for a key that [for (k in v)] produced. *)
Definition member (v : value) (k : string) : value :=
  match get_property k (own_enumerable v) with
  | Some x => x
  | None => VUndefined
  end.

(** [{...target, ...source}], given the properties copied so far. *)
Definition spread (target : properties) (source : value) : properties :=
  fold_left (fun acc kv => define_property (fst kv) (snd kv) acc)
            (own_enumerable source) target.

(** ** [JSON.parse] *)

Local Open Scope char_scope.

Definition dquote : ascii := "034".
Definition backslash : ascii := "092".

Definition is_whitespace (c : ascii) : bool :=
  Ascii.eqb c " " || Ascii.eqb c "009" || Ascii.eqb c "010"
  || Ascii.eqb c "013".

Fixpoint skip_whitespace (s : list ascii) : list ascii :=
  match s with
  | c :: rest => if is_whitespace c then skip_whitespace rest else s
  | [] => []
  end.

Definition is_digit (c : ascii) : bool :=
  (48 <=? nat_of_ascii c)%nat && (nat_of_ascii c <=? 57)%nat.

Fixpoint take_digits (s : list ascii) : list ascii * list ascii :=
  match s with
  | c :: rest =>
      if is_digit c
      then let '(d, rest') := take_digits rest in (c :: d, rest')
      else ([], s)
  | [] => ([], [])
  end.

Definition digits_value (d : list ascii) : Z :=
  fold_left (fun acc c => 10 * acc + Z.of_nat (nat_of_ascii c - 48))%Z d 0%Z.

(** A JSON number: an optional minus sign; a zero, or digits that do not
    start with a zero; an optional fraction, a point and digits; an optional
    exponent, [e] or [E], a sign and digits.  The value is the exact decimal
    the numeral denotes: the host rounds it to the nearest binary64 (it reads
    9007199254740993 as 9007199254740992), reads a numeral beyond the largest
    Number as an infinity, and keeps the sign of a negative zero. *)
Definition parse_number (s : list ascii) : option (number * list ascii) :=
  let '(negative, s1) :=
    match s with
    | c :: rest => if Ascii.eqb c "-" then (true, rest) else (false, s)
    | [] => (false, s)
    end in
  let integer :=
    match s1 with
    | c :: rest =>
        if Ascii.eqb c "0" then Some ([c], rest)
        else if is_digit c then Some (take_digits s1)
        else None
    | [] => None
    end in
  match integer with
  | None => None
  | Some (int, s2) =>
      let fraction :=
        match s2 with
        | c :: rest =>
            if Ascii.eqb c "." then
              match take_digits rest with
              | ([], _) => None
              | (d, rest') => Some (d, rest')
              end
            else Some ([], s2)
        | [] => Some ([], s2)
        end in
      match fraction with
      | None => None
      | Some (frac, s3) =>
          let exponent :=
            match s3 with
            | c :: rest =>
                if Ascii.eqb c "e" || Ascii.eqb c "E" then
                  let '(minus, rest1) :=
                    match rest with
                    | c1 :: rest' =>
                        if Ascii.eqb c1 "-" then (true, rest')
                        else if Ascii.eqb c1 "+" then (false, rest')
                        else (false, rest)
                    | [] => (false, rest)
                    end in
                  match take_digits rest1 with
                  | ([], _) => None
                  | (d, rest2) =>
                      Some (if minus then (- digits_value d)%Z
                            else digits_value d, rest2)
                  end
                else Some (0%Z, s3)
            | [] => Some (0%Z, s3)
            end in
          match exponent with
          | None => None
          | Some (ex, s4) =>
              let mantissa := digits_value (int ++ frac) in
              Some (decimal (if negative then (- mantissa)%Z else mantissa)
                            (ex - Z.of_nat (List.length frac))%Z, s4)
          end
      end
  end.

Definition hex_value (c : ascii) : option nat :=
  let n := nat_of_ascii c in
  if is_digit c then Some (n - 48)
  else if (97 <=? n)%nat && (n <=? 102)%nat then Some (n - 87)
  else if (65 <=? n)%nat && (n <=? 70)%nat then Some (n - 55)
  else None.

(** The bytes of the code unit [n < 65536] in UTF-8. *)
Definition utf8 (n : nat) : list ascii :=
  if (n <? 128)%nat then [ascii_of_nat n]
  else if (n <? 2048)%nat then
    [ascii_of_nat (192 + n / 64); ascii_of_nat (128 + n mod 64)]
  else
    [ascii_of_nat (224 + n / 4096); ascii_of_nat (128 + (n / 64) mod 64);
     ascii_of_nat (128 + n mod 64)].

Definition unescape (c : ascii) : option ascii :=
  if Ascii.eqb c dquote || Ascii.eqb c backslash || Ascii.eqb c "/"
  then Some c
  else if Ascii.eqb c "b" then Some "008"
  else if Ascii.eqb c "f" then Some "012"
  else if Ascii.eqb c "n" then Some "010"
  else if Ascii.eqb c "r" then Some "013"
  else if Ascii.eqb c "t" then Some "009"
  else None.

(** The characters of a string literal after its opening quote, up to and
    including the closing one; [acc] holds the decoded bytes in reverse.
    Each [\u] escape is decoded on its own, where the host joins an escaped
    surrogate pair into one character. *)
Fixpoint parse_string (s : list ascii) (acc : list ascii)
  : option (string * list ascii) :=
  match s with
  | [] => None
  | c :: rest =>
      if Ascii.eqb c dquote then Some (string_of_list_ascii (rev acc), rest)
      else if Ascii.eqb c backslash then
        match rest with
        | [] => None
        | e :: rest1 =>
            if Ascii.eqb e "u" then
              match rest1 with
              | h1 :: h2 :: h3 :: h4 :: rest2 =>
                  match hex_value h1, hex_value h2, hex_value h3, hex_value h4
                  with
                  | Some a, Some b, Some c', Some d =>
                      parse_string rest2
                        (rev (utf8 (((a * 16 + b) * 16 + c') * 16 + d)) ++ acc)
                  | _, _, _, _ => None
                  end
              | _ => None
              end
            else
              match unescape e with
              | Some c' => parse_string rest1 (c' :: acc)
              | None => None
              end
        end
      else if (nat_of_ascii c <? 32)%nat then None
      else parse_string rest (c :: acc)
  end.

Fixpoint strip_prefix (p s : list ascii) : option (list ascii) :=
  match p, s with
  | [], _ => Some s
  | a :: p', b :: s' => if Ascii.eqb a b then strip_prefix p' s' else None
  | _ :: _, [] => None
  end.

Inductive parse_result : Type :=
| Parsed (v : value) (rest : list ascii)
| Malformed
| Exhausted.

Definition parse_keyword (word : string) (v : value) (s : list ascii)
  : parse_result :=
  match strip_prefix (list_ascii_of_string word) s with
  | Some rest => Parsed v rest
  | None => Malformed
  end.

(** Recursive descent; every nested call has consumed input, so the fuel
    [JSON_parse_text] gives is never used up ([parse_value_fuel]). *)
Fixpoint parse_value (fuel : nat) (s : list ascii) : parse_result :=
  match fuel with
  | O => Exhausted
  | S fuel' =>
      match skip_whitespace s with
      | [] => Malformed
      | c :: rest =>
          if Ascii.eqb c "[" then
            match skip_whitespace rest with
            | [] => Malformed
            | c1 :: rest1 =>
                if Ascii.eqb c1 "]" then Parsed (VArr []) rest1
                else parse_elements fuel' rest []
            end
          else if Ascii.eqb c "{" then
            match skip_whitespace rest with
            | [] => Malformed
            | c1 :: rest1 =>
                if Ascii.eqb c1 "}" then Parsed (VObj []) rest1
                else parse_members fuel' rest []
            end
          else if Ascii.eqb c dquote then
            match parse_string rest [] with
            | Some (str, rest1) => Parsed (VStr str) rest1
            | None => Malformed
            end
          else if Ascii.eqb c "t" then parse_keyword "true" (VBool true) (c :: rest)
          else if Ascii.eqb c "f" then parse_keyword "false" (VBool false) (c :: rest)
          else if Ascii.eqb c "n" then parse_keyword "null" VNull (c :: rest)
          else
            match parse_number (c :: rest) with
            | Some (n, rest1) => Parsed (VNum n) rest1
            | None => Malformed
            end
      end
  end

with parse_elements (fuel : nat) (s : list ascii) (acc : list value)
  : parse_result :=
  match fuel with
  | O => Exhausted
  | S fuel' =>
      match parse_value fuel' s with
      | Parsed v rest =>
          match skip_whitespace rest with
          | [] => Malformed
          | c :: rest1 =>
              if Ascii.eqb c "," then parse_elements fuel' rest1 (v :: acc)
              else if Ascii.eqb c "]" then Parsed (VArr (rev (v :: acc))) rest1
              else Malformed
          end
      | Malformed => Malformed
      | Exhausted => Exhausted
      end
  end

with parse_members (fuel : nat) (s : list ascii) (acc : properties)
  : parse_result :=
  match fuel with
  | O => Exhausted
  | S fuel' =>
      match skip_whitespace s with
      | [] => Malformed
      | c :: rest =>
          if Ascii.eqb c dquote then
            match parse_string rest [] with
            | None => Malformed
            | Some (k, rest1) =>
                match skip_whitespace rest1 with
                | [] => Malformed
                | c1 :: rest2 =>
                    if Ascii.eqb c1 ":" then
                      match parse_value fuel' rest2 with
                      | Parsed v rest3 =>
                          match skip_whitespace rest3 with
                          | [] => Malformed
                          | c2 :: rest4 =>
                              if Ascii.eqb c2 "," then
                                parse_members fuel' rest4
                                              (define_property k v acc)
                              else if Ascii.eqb c2 "}" then
                                Parsed (VObj (define_property k v acc)) rest4
                              else Malformed
                          end
                      | Malformed => Malformed
                      | Exhausted => Exhausted
                      end
                    else Malformed
                end
            end
          else Malformed
      end
  end.

Local Close Scope char_scope.

(** [JSON.parse] on a text: the value, or a [SyntaxError]. *)
Definition JSON_parse_text (text : string) : completion value :=
  let s := list_ascii_of_string text in
  match parse_value (2 * List.length s + 1) s with
  | Parsed v rest =>
      match skip_whitespace rest with
      | [] => Return v
      | _ :: _ => Throw SyntaxError
      end
  | Malformed => Throw SyntaxError
  | Exhausted => Throw SyntaxError
  end.

(** [JSON.parse(x)]: the argument is first coerced to a string. *)
Definition JSON_parse (x : value) : completion value :=
  text <- ToString x ;; JSON_parse_text text.

(** ** Numeric operands *)

(** The values that pass
    [typeof x === "number" || typeof x === "bigint"]. *)
Inductive numeric : Type :=
| Number (n : number)
| BigInt (z : Z).

Definition as_numeric (v : value) : option numeric :=
  match v with
  | VNum n => Some (Number n)
  | VBigInt z => Some (BigInt z)
  | _ => None
  end.

Definition numeric_value (x : numeric) : value :=
  match x with
  | Number n => VNum n
  | BigInt z => VBigInt z
  end.

(** [x + y]: a Number and a BigInt do not mix. *)
Definition numeric_add (x y : numeric) : completion numeric :=
  match x, y with
  | Number a, Number b => Return (Number (num_add a b))
  | BigInt a, BigInt b => Return (BigInt (a + b))
  | _, _ => Throw TypeError
  end.

(** [x - y] *)
Definition numeric_sub (x y : numeric) : completion numeric :=
  match x, y with
  | Number a, Number b => Return (Number (num_sub a b))
  | BigInt a, BigInt b => Return (BigInt (a - b))
  | _, _ => Throw TypeError
  end.

(** [x / y]: between BigInts the quotient is truncated, and a zero divisor
    is refused. *)
Definition numeric_div (x y : numeric) : completion numeric :=
  match x, y with
  | Number a, Number b => Return (Number (num_div a b))
  | BigInt a, BigInt b =>
      if (b =? 0)%Z then Throw RangeError else Return (BigInt (Z.quot a b))
  | _, _ => Throw TypeError
  end.

(** [ToNumber]: a BigInt is refused. *)
Definition ToNumber (x : numeric) : completion number :=
  match x with
  | Number n => Return n
  | BigInt _ => Throw TypeError
  end.

(** ** [Array.prototype.sort] with a comparator *)

(** The sign test [v <= 0] on what the comparator gave, a NaN counting as
    zero. *)
Definition not_after (v : number) : bool :=
  match v with
  | NaN => true
  | Infinity s => s
  | Finite m _ => (m <=? 0)%Z
  end.

Section Sort.
Variable A : Type.
Variable comparefn : A -> A -> completion numeric.

Fixpoint sort_insert (x : A) (sorted : list A) : completion (list A) :=
  match sorted with
  | [] => Return [x]
  | y :: rest =>
      r <- comparefn x y ;;
      v <- ToNumber r ;;
      if not_after v then Return (x :: y :: rest)
      else (rest' <- sort_insert x rest ;; Return (y :: rest'))
  end.

(** A stable insertion sort: an element is placed before the first later
    one it does not come after.  A comparator that throws ends the sort.
    With a comparator that is not consistent, as the difference is once a
    NaN is among the numbers, the language leaves the order to the host, and
    the host's need not be this one. *)
Fixpoint Array_sort (l : list A) : completion (list A) :=
  match l with
  | [] => Return []
  | x :: rest => sorted <- Array_sort rest ;; sort_insert x sorted
  end.
End Sort.

Arguments sort_insert {A} comparefn x sorted.
Arguments Array_sort {A} comparefn l.

(** [array[i]] for a Number [i]: an element when [i] is a non-negative
    integer below the length, [undefined] otherwise. *)
Definition element_at (l : list value) (i : number) : value :=
  match normalize i with
  | Finite m e =>
      if (0 <=? m)%Z && (0 <=? e)%Z
      then nth (Z.to_nat (m * 10 ^ e)) l VUndefined
      else VUndefined
  | _ => VUndefined
  end.

(** ** Loops *)

(** [for (let x of l) { body; i++ }] over the mutable locals [A]. *)
Fixpoint for_of {E A : Type} (l : list E) (i : nat)
    (body : E -> nat -> A -> completion A) (locals : A) : completion A :=
  match l with
  | [] => Return locals
  | x :: rest =>
      locals' <- body x i locals ;; for_of rest (S i) body locals'
  end.

(** [for (let key in v) { body }] *)
Definition for_in {A : Type} (v : value)
    (body : string -> A -> completion A) (locals : A) : completion A :=
  for_of (keys_in v) 0 (fun key _ => body key) locals.

Definition elements_of (v : value) : list value :=
  match v with
  | VArr l => l
  | _ => []
  end.

(** [array.push(x)] *)
Definition Array_push {A : Type} (array : list A) (x : A) : list A :=
  (array ++ [x])%list.

(** [x || y] *)
Definition or_else (x y : value) : value := if truthy x then x else y.

(** ** The class *)

Inductive printer : Type :=
| console_log
| user_function (name : string).

(** The two private fields, [#print_output_using] and [#internal]. *)
Record ObjockeyObject : Type := {
  print_output_using : printer;
  internal : value
}.

Definition set_internal (v : value) (this : ObjockeyObject) : ObjockeyObject :=
  {| print_output_using := print_output_using this; internal := v |}.

(** What a method hands back: [this], or another value. *)
Inductive returned : Type :=
| This
| Result (v : value).

(** A method call: its completion and the object afterwards. *)
Definition M (A : Type) : Type :=
  ObjockeyObject -> completion A * ObjockeyObject.

(** [callback(a, b, buffer)] *)
Definition callback : Type := value -> value -> value -> value.

Definition position (i : nat) : value := VNum (num_of_nat i).

Definition instanceof_SyntaxError (e : error) : bool :=
  match e with
  | SyntaxError => true
  | _ => false
  end.

Definition constructor (source : value) : completion ObjockeyObject :=
  let this := {| print_output_using := console_log;
                 internal := VUndefined |} in
  if Array_isArray source || instanceof_Object source then Return this
  else if is_empty_string source then Return this
  else
    match JSON_parse source with
    | Return v => Return (set_internal v this)
    | Throw err => if instanceof_SyntaxError err then Throw err else Return this
    end.

Definition isArray (this : ObjockeyObject) : bool :=
  Array_isArray (internal this).

Definition isObject (this : ObjockeyObject) : bool :=
  String.eqb (typeof (internal this)) "object" && negb (is_null (internal this)).

(** [set.length > 0 ? set : null] *)
Definition set_or_null (set : list value) : value :=
  match set with
  | [] => VNull
  | _ :: _ => VArr set
  end.

Definition findAllIndexes (callback : callback) : M returned :=
  fun this =>
    let buffer := internal this in
    (indexes <-
       (if Array_isArray buffer then
          for_of (elements_of buffer) 0
            (fun val i indexes =>
               Return (if truthy (callback val (position i) buffer)
                       then Array_push indexes (position i) else indexes)) []
        else if String.eqb (typeof buffer) "object" then
          for_in buffer
            (fun key indexes =>
               Return (if truthy (callback (VStr key) (member buffer key) buffer)
                       then Array_push indexes (VStr key) else indexes)) []
        else Return []) ;;
     Return (Result (set_or_null indexes)), this).

(** What a caller may pass where an array of functions is expected. *)
Inductive argument : Type :=
| Value (v : value)
| Function (f : callback)
| ArrayOf (items : list argument).

Definition array_items (a : argument) : option (list argument) :=
  match a with
  | ArrayOf items => Some items
  | Value (VArr l) => Some (map Value l)
  | _ => None
  end.

Definition as_function (a : argument) : option callback :=
  match a with
  | Function f => Some f
  | _ => None
  end.

Definition callbacks_message : string :=
  String dquote ("callbacks" ++ String dquote " must be an array of functions.").

Definition findIndexes2D (callbacks : argument) : M returned :=
  fun this =>
    let buffer := internal this in
    (match array_items callbacks with
     | None => Throw (ObjockeyError callbacks_message)
     | Some items =>
         indexes <-
           for_of items 0
             (fun item _ indexes =>
                match as_function item with
                | None => Throw (ObjockeyError callbacks_message)
                | Some callback =>
                    if isArray this then
                      set <-
                        for_of (elements_of buffer) 0
                          (fun val i set =>
                             Return (if truthy (callback val (position i) buffer)
                                     then Array_push set (position i) else set)) [] ;;
                      Return (Array_push indexes (set_or_null set))
                    else if String.eqb (typeof buffer) "object" then
                      set <-
                        for_in buffer
                          (fun key set =>
                             Return (if truthy (callback (VStr key)
                                                         (member buffer key) buffer)
                                     then Array_push set (VStr key) else set)) [] ;;
                      Return indexes
                    else Return indexes
                end) [] ;;
         Return (Result (VArr indexes))
     end, this).

(** What an identifier is bound to inside [average]: a Number or a BigInt
    held by a local, or a function or class. *)
Inductive binding : Type :=
| Local (x : numeric)
| Callable.

(** The declarations [average] can see: its parameter and its two locals,
    then the classes of the module.  The host's globals ([JSON], [Array],
    [console], ...) have no [average] among them. *)
Definition average_scope (calculation : numeric) (count : nat)
  : list (string * binding) :=
  [("callback", Callable); ("calculation", Local calculation);
   ("count", Local (Number (num_of_nat count)));
   ("ObjockeyError", Callable); ("ObjockeyObject", Callable)].

Fixpoint resolve (scope : list (string * binding)) (identifier : string)
  : completion binding :=
  match scope with
  | [] => Throw (ReferenceError identifier)
  | (name, b) :: outer =>
      if String.eqb identifier name then Return b else resolve outer identifier
  end.

(** [ToNumeric]: a function is not a number. *)
Definition ToNumeric (b : binding) : numeric :=
  match b with
  | Local x => x
  | Callable => Number NaN
  end.

(** One round of [calculation += addition; count++], taken when
    [addition] is a Number or a BigInt. *)
Definition accumulate (addition : value) (locals : numeric * nat)
  : completion (numeric * nat) :=
  let '(calculation, count) := locals in
  match as_numeric addition with
  | Some n =>
      calculation' <- numeric_add calculation n ;;
      Return (calculation', S count)
  | None => Return locals
  end.

Definition average (callback : callback) : M returned :=
  fun this =>
    let buffer := internal this in
    (locals <-
       (if isArray this then
          for_of (elements_of buffer) 0
            (fun val i => accumulate (callback val (position i) buffer))
            (Number (num_of_nat 0), 0)
        else if isObject this then
          for_in buffer
            (fun key =>
               accumulate (callback (VStr key) (member buffer key) buffer))
            (Number (num_of_nat 0), 0)
        else Return (Number (num_of_nat 0), 0)) ;;
     let scope := average_scope (fst locals) (snd locals) in
     dividend <- resolve scope "average" ;;
     divisor <- resolve scope "count" ;;
     quotient <- numeric_div (ToNumeric dividend) (ToNumeric divisor) ;;
     Return (Result (numeric_value quotient)), this).

(** [matched.push(num)], taken when [num] is a Number or a BigInt. *)
Definition collect (num : value) (matched : list numeric)
  : completion (list numeric) :=
  match as_numeric num with
  | Some n => Return (Array_push matched n)
  | None => Return matched
  end.

(** The two loops are separate statements: an array is an object as well
    and goes through both. *)
Definition median (callback : callback) : M returned :=
  fun this =>
    let buffer := internal this in
    (matched <-
       (if isArray this then
          for_of (elements_of buffer) 0
            (fun val i => collect (callback val (position i) buffer)) []
        else Return []) ;;
     matched <-
       (if isObject this then
          for_in buffer
            (fun key =>
               collect (callback (VStr key) (member buffer key) buffer))
            matched
        else Return matched) ;;
     matched <- Array_sort numeric_sub matched ;;
     let elements := map numeric_value matched in
     let length := num_of_nat (List.length matched) in
     let half := num_div length (num_of_nat 2) in
     if Nat.eqb (List.length matched mod 2) 0 then
       Return (Result (VArr [element_at elements half;
                             element_at elements (num_add half (num_of_nat 1))]))
     else Return (Result (VArr [element_at elements half])), this).

Definition filter (callback : callback) : M returned :=
  fun this =>
    let buffer := internal this in
    (if isArray this then
       filtered <-
         for_of (elements_of buffer) 0
           (fun val i filtered =>
              Return (if truthy (callback val (position i) buffer)
                      then Array_push filtered val else filtered)) [] ;;
       Return (Result (VArr filtered))
     else if isObject this then
       filtered <-
         for_in buffer
           (fun key filtered =>
              Return (if truthy (callback (VStr key) (member buffer key) buffer)
                      then define_property key (member buffer key)
                             (spread [] (VObj filtered))
                      else filtered)) [] ;;
       Return (Result (VObj filtered))
     else Return (Result (VObj [])), this).

Definition newline_and_spaces (n : nat) : string :=
  String "010" (string_of_list_ascii (repeat " "%char n)).

Definition condenseMap_message (data : value) : string :=
  "Cannot map a value of type " ++ newline_and_spaces 24 ++ typeof data
  ++ " to an internal buffer of type object.".

Definition condenseMap (callback : callback) : M returned :=
  fun this =>
    let buffer := internal this in
    (if isArray this then
       newData <-
         for_of (elements_of buffer) 0
           (fun val i newData =>
              let data := callback val (position i) buffer in
              Return (if negb (is_undefined data)
                      then Array_push newData data else newData)) [] ;;
       Return (Result (VArr newData))
     else if isObject this then
       newData <-
         for_in buffer
           (fun key newData =>
              let data := callback (VStr key) (member buffer key) buffer in
              if negb (is_undefined data) then
                _ <- JSON_parse data ;;
                if negb (Array_isArray data)
                then Return (spread (spread [] (VObj newData)) data)
                else Throw (ObjockeyError (condenseMap_message data))
              else Return newData) [] ;;
       Return (Result (VObj newData))
     else Return (Result (VObj [])), this).

(** The second test reads [this.isObject] without calling it: a method is
    always truthy, so every payload that is not an array takes that branch.
    In the array branch the transform is handed [newData], the array the
    results are being pushed to; it is handed here what that array holds at
    the time of the call, which is all it sees of it unless it keeps the
    array itself in its result ([map_in_store] follows the array). *)
Definition map (callback : callback) : M returned :=
  fun this =>
    let buffer := internal this in
    (if isArray this then
       newData <-
         for_of (elements_of buffer) 0
           (fun val i newData =>
              Return (Array_push newData
                        (or_else (callback val (position i) (VArr newData))
                                 VUndefined))) [] ;;
       Return (Result (VArr newData))
     else
       newData <-
         for_in buffer
           (fun key newData =>
              let data := or_else (callback (VStr key) (member buffer key) buffer)
                                  (VObj [(key, VNull)]) in
              Return (spread (spread [] (VObj newData)) data)) [] ;;
       Return (Result (VObj newData)), this).

Definition push_message (buffer payload : value) : string :=
  "Cannot push data of type " ++ typeof buffer ++ newline_and_spaces 16
  ++ "to an internal buffer of type " ++ typeof payload.

Definition push (buffer : value) : M returned :=
  fun this =>
    if Array_isArray buffer && isArray this then
      (Return This,
       set_internal (VArr (elements_of (internal this) ++ elements_of buffer))
                    this)
    else if truthy buffer && String.eqb (typeof buffer) "object"
            && String.eqb (typeof (internal this)) "object" then
      (Return This,
       set_internal (VObj (spread (spread [] (internal this)) buffer)) this)
    else if isArray this then
      (Return This,
       set_internal (VArr (Array_push (elements_of (internal this)) buffer))
                    this)
    else if truthy buffer
            && negb (String.eqb (typeof buffer) (typeof (internal this))) then
      (Throw (ObjockeyError (push_message buffer (internal this))), this)
    else (Return This, this).

Definition set_message : string :=
  String dquote ("buffer" ++ String dquote
                 " must be of type string, object, or array.").

Definition set (buffer : value) : M returned :=
  fun this =>
    if String.eqb (typeof buffer) "string" then
      match JSON_parse buffer with
      | Return newInternal => (Return This, set_internal newInternal this)
      | Throw err => (Throw err, this)
      end
    else if (Array_isArray buffer || String.eqb (typeof buffer) "object")
            && negb (is_null buffer) then
      (Return This, set_internal buffer this)
    else (Throw (ObjockeyError set_message), this).

Definition valueOf : M returned :=
  fun this => (Return (Result (internal this)), this).

Definition setPrint (newFunction : option printer) : M returned :=
  fun this =>
    (Return This,
     {| print_output_using :=
          match newFunction with
          | Some f => f
          | None => console_log
          end;
        internal := internal this |}).

(** The names every object inherits from [Object.prototype]: reading one
    that is not an own key gives a function, writing [__proto__] changes the
    prototype. *)
Definition Object_prototype_names : list string :=
  ["constructor"; "hasOwnProperty"; "isPrototypeOf"; "propertyIsEnumerable";
   "toLocaleString"; "toString"; "valueOf"; "__proto__";
   "__defineGetter__"; "__defineSetter__"; "__lookupGetter__";
   "__lookupSetter__"].

(** [array[i] = v]: a write past the end extends the array.  The gap is
    filled with [undefined]; the host leaves holes there, which read as
    [undefined] too but which [for in] and a spread pass over. *)
Definition write_element (i : nat) (v : value) (l : list value) : list value :=
  (firstn i l ++ repeat VUndefined (i - List.length l) ++ v :: skipn (S i) l)%list.

(** [this.#internal[key] = callback(this.#internal[key])], in strict mode.
    The model covers a write to an element of an array and to a data
    property of an object; it is [None] where the write reaches a part of
    the host object that [value] does not carry (a Symbol key, a named
    property of an array such as [length], an inherited name). *)
Definition replace (key : value) (callback : value -> value)
  : ObjockeyObject -> option (completion returned * ObjockeyObject) :=
  fun this =>
    match internal this with
    | VUndefined | VNull => Some (Throw TypeError, this)
    | VBool _ | VNum _ | VBigInt _ | VStr _ | VSymbol _ =>
        Some (Throw TypeError, this)
    | VArr l =>
        match key with
        | VSymbol _ => None
        | _ =>
            match ToString key with
            | Throw err => Some (Throw err, this)
            | Return k =>
                match array_index k with
                | Some i =>
                    let i := N.to_nat i in
                    Some (Return (Result VUndefined),
                          set_internal
                            (VArr (write_element i (callback (nth i l VUndefined)) l))
                            this)
                | None => None
                end
            end
        end
    | VObj ps =>
        match key with
        | VSymbol _ => None
        | _ =>
            match ToString key with
            | Throw err => Some (Throw err, this)
            | Return k =>
                match get_property k ps with
                | Some v =>
                    Some (Return (Result VUndefined),
                          set_internal (VObj (define_property k (callback v) ps))
                                       this)
                | None =>
                    if existsb (String.eqb k) Object_prototype_names then None
                    else
                      Some (Return (Result VUndefined),
                            set_internal
                              (VObj (define_property k (callback VUndefined) ps))
                              this)
                end
            end
        end
    end.

(** ** The remaining methods *)

(** [for (let x of l) { if (...) return ...; i++ }]: what the first
    returning round returns. *)
Fixpoint for_of_return {E R : Type} (l : list E) (i : nat)
    (body : E -> nat -> option R) : option R :=
  match l with
  | [] => None
  | x :: rest =>
      match body x i with
      | Some r => Some r
      | None => for_of_return rest (S i) body
      end
  end.

Definition minus_one : value := VNum (num_of_Z (-1)).

Definition findIndex (callback : callback) : M returned :=
  fun this =>
    let buffer := internal this in
    let found :=
      if Array_isArray buffer then
        for_of_return (elements_of buffer) 0
          (fun val i =>
             if truthy (callback val (position i) buffer)
             then Some (position i) else None)
      else if String.eqb (typeof buffer) "object" && negb (is_null buffer) then
        for_of_return (keys_in buffer) 0
          (fun key _ =>
             if truthy (callback (VStr key) (member buffer key) buffer)
             then Some (VStr key) else None)
      else None in
    (Return (Result match found with
                    | Some r => r
                    | None => minus_one
                    end), this).

(** [forEach]: the callback is called for its effect, which is kept here
    as a state [S] of the caller that every call updates; the completion
    carries the state after the last call.  The method returns nothing. *)
Definition forEach {S : Type} (callback : value -> value -> value -> S -> S)
    (s : S) (this : ObjockeyObject) : completion S * ObjockeyObject :=
  let buffer := internal this in
  (if isArray this then
     for_of (elements_of buffer) 0
       (fun val i s => Return (callback val (position i) buffer s)) s
   else if isObject this then
     for_in buffer
       (fun key s => Return (callback (VStr key) (member buffer key) buffer s)) s
   else Return s, this).

(** [v[key]] where the key is any value.  [None] where the answer lies in
    a part of the host object that [value] does not carry: a Symbol key, a
    name that is neither an index nor [length] on an array or a string, a
    name inherited from [Object.prototype], a property of a number, a
    boolean, a BigInt or a Symbol. *)
Definition Get (v key : value) : option (completion value) :=
  match v with
  | VUndefined | VNull => Some (Throw TypeError)
  | VBool _ | VNum _ | VBigInt _ | VSymbol _ => None
  | _ =>
      match key with
      | VSymbol _ => None
      | _ =>
          match ToString key with
          | Throw err => Some (Throw err)
          | Return k =>
              match v with
              | VObj ps =>
                  match get_property k ps with
                  | Some x => Some (Return x)
                  | None =>
                      if existsb (String.eqb k) Object_prototype_names
                      then None else Some (Return VUndefined)
                  end
              | _ =>
                  let l := match v with
                           | VStr s => characters s
                           | _ => elements_of v
                           end in
                  match array_index k with
                  | Some i => Some (Return (nth (N.to_nat i) l VUndefined))
                  | None =>
                      if String.eqb k "length"
                      then Some (Return (position (List.length l)))
                      else None
                  end
              end
          end
      end
  end.

(** [print]: the call made to the printer is returned beside the object. *)
Definition print (index : value) (this : ObjockeyObject)
  : option ((completion returned * ObjockeyObject) * list (printer * value)) :=
  if truthy index then
    match Get (internal this) index with
    | None => None
    | Some (Throw err) => Some ((Throw err, this), [])
    | Some (Return x) =>
        Some ((Return This, this), [(print_output_using this, x)])
    end
  else Some ((Return This, this), [(print_output_using this, internal this)]).

(** ** [JSON.stringify] *)

Definition hex_digit (n : nat) : ascii :=
  if (n <? 10)%nat then ascii_of_nat (48 + n) else ascii_of_nat (87 + n).

(** One character of a string inside the quotes. *)
Definition quote_character (c : ascii) : list ascii :=
  let n := nat_of_ascii c in
  if Ascii.eqb c dquote then [backslash; dquote]
  else if Ascii.eqb c backslash then [backslash; backslash]
  else if Ascii.eqb c "008"%char then [backslash; "b"%char]
  else if Ascii.eqb c "012"%char then [backslash; "f"%char]
  else if Ascii.eqb c "010"%char then [backslash; "n"%char]
  else if Ascii.eqb c "013"%char then [backslash; "r"%char]
  else if Ascii.eqb c "009"%char then [backslash; "t"%char]
  else if (n <? 32)%nat then
    [backslash; "u"%char; "0"%char; "0"%char; hex_digit (n / 16);
     hex_digit (n mod 16)]
  else [c].

Definition quote (s : string) : list ascii :=
  (dquote :: flat_map quote_character (list_ascii_of_string s) ++ [dquote])%list.

Fixpoint join (parts : list (list ascii)) : list ascii :=
  match parts with
  | [] => []
  | [p] => p
  | p :: rest => (p ++ ","%char :: join rest)%list
  end.

Definition number_text (n : number) : list ascii :=
  match n with
  | Finite _ _ => list_ascii_of_string (Number_toString n)
  | _ => list_ascii_of_string "null"
  end.

(** The text of a value, [None] where [JSON.stringify] gives [undefined].
    An [undefined] or a Symbol is [null] inside an array and is left out of
    an object; a BigInt throws. *)
Fixpoint serialize (v : value) : completion (option (list ascii)) :=
  match v with
  | VUndefined | VSymbol _ => Return None
  | VNull => Return (Some (list_ascii_of_string "null"))
  | VBool true => Return (Some (list_ascii_of_string "true"))
  | VBool false => Return (Some (list_ascii_of_string "false"))
  | VNum n => Return (Some (number_text n))
  | VBigInt _ => Throw TypeError
  | VStr s => Return (Some (quote s))
  | VArr l =>
      parts <-
        (fix elements (l : list value) : completion (list (list ascii)) :=
           match l with
           | [] => Return []
           | x :: rest =>
               t <- serialize x ;;
               ts <- elements rest ;;
               Return (match t with
                       | Some text => text
                       | None => list_ascii_of_string "null"
                       end :: ts)
           end) l ;;
      Return (Some ("["%char :: join parts ++ ["]"%char])%list)
  | VObj ps =>
      parts <-
        (fix members (ps : list (string * value))
           : completion (list (list ascii)) :=
           match ps with
           | [] => Return []
           | (k, x) :: rest =>
               t <- serialize x ;;
               ts <- members rest ;;
               Return (match t with
                       | Some text => (quote k ++ ":"%char :: text)%list :: ts
                       | None => ts
                       end)
           end) ps ;;
      Return (Some ("{"%char :: join parts ++ ["}"%char])%list)
  end.

Definition JSON_stringify (v : value) : completion value :=
  t <- serialize v ;;
  Return match t with
         | Some text => VStr (string_of_list_ascii text)
         | None => VUndefined
         end.

(** [string()]; [toString()] has the same body. *)
Definition string_ : M returned :=
  fun this =>
    (text <- JSON_stringify (internal this) ;; Return (Result text), this).

Definition toString : M returned :=
  fun this =>
    (text <- JSON_stringify (internal this) ;; Return (Result text), this).

(** ** Containers and their identity

    The methods above work on the contents of the payload.  To tell the
    container a method creates from the one it was given, the three
    transformations are followed here through a store of containers:
    [[]], [{}] and [{...x}] take an address that is not in use, [x.push(v)]
    writes at the address [x] holds, and a variable or a field holds a
    primitive or an address.  The contents of a container are kept as a
    value, so the identity of the containers nested in it, and of those a
    callback creates, is not followed. *)

Definition address : Type := nat.

(** Cell [a] of the store is the contents of the container at address [a]. *)
Definition store : Type := list value.

Inductive slot : Type :=
| Primitive (v : value)
| Container (a : address).

Definition fetch (a : address) (s : store) : value := nth a s VUndefined.

Definition contents (x : slot) (s : store) : value :=
  match x with
  | Primitive v => v
  | Container a => fetch a s
  end.

(** A new container *)
Definition allocate (v : value) (s : store) : address * store :=
  (List.length s, (s ++ [v])%list).

(** A write into the container at [a], which stays where it is. *)
Definition overwrite (a : address) (v : value) (s : store) : store :=
  (firstn a s ++ v :: skipn (S a) s)%list.

(** [x.push(v)], for the array at [x] *)
Definition push_at (x : address) (v : value) (s : store) : store :=
  overwrite x (VArr (Array_push (elements_of (fetch x s)) v)) s.

(** The properties of the object at [x], for [{...x}]. *)
Definition properties_at (x : address) (s : store) : properties :=
  spread [] (fetch x s).

(** A step in the store: its completion and the store after it, which a
    throw leaves as it stands. *)
Definition stored (A : Type) : Type := store -> completion A * store.

(** [for (let x of l) { body; i++ }] over the mutable locals [A], in the
    store. *)
Fixpoint for_of_stored {E A : Type} (l : list E) (i : nat)
    (body : E -> nat -> A -> stored A) (locals : A) : stored A :=
  fun s =>
    match l with
    | [] => (Return locals, s)
    | x :: rest =>
        match body x i locals s with
        | (Return locals', s') => for_of_stored rest (S i) body locals' s'
        | (Throw err, s') => (Throw err, s')
        end
    end.

Definition for_in_stored {A : Type} (v : value)
    (body : string -> A -> stored A) (locals : A) : stored A :=
  for_of_stored (keys_in v) 0 (fun key _ => body key) locals.

(** [return x], for the variable [x] *)
Definition returns (outcome : completion address * store)
  : completion slot * store :=
  (x <- fst outcome ;; Return (Container x), snd outcome).

(** [filter], [condenseMap] and [map] once more, [internal] being what the
    field [#internal] holds. *)
Definition filter_in_store (callback : callback) (internal : slot)
  : stored slot :=
  fun s0 =>
    let buffer := contents internal s0 in
    let '(filtered, s) :=
      allocate (if Array_isArray buffer then VArr [] else VObj []) s0 in
    returns
      (if Array_isArray buffer then
         for_of_stored (elements_of buffer) 0
           (fun val i filtered s =>
              (Return filtered,
               if truthy (callback val (position i) (contents internal s))
               then push_at filtered val s else s)) filtered s
       else if String.eqb (typeof buffer) "object" && negb (is_null buffer) then
         for_in_stored buffer
           (fun key filtered s =>
              let buffer := contents internal s in
              if truthy (callback (VStr key) (member buffer key) buffer)
              then
                let '(filtered, s) :=
                  allocate (VObj (define_property key (member buffer key)
                                    (properties_at filtered s))) s in
                (Return filtered, s)
              else (Return filtered, s)) filtered s
       else (Return filtered, s)).

Definition condenseMap_in_store (callback : callback) (internal : slot)
  : stored slot :=
  fun s0 =>
    let buffer := contents internal s0 in
    let '(newData, s) :=
      allocate (if Array_isArray buffer then VArr [] else VObj []) s0 in
    returns
      (if Array_isArray buffer then
         for_of_stored (elements_of buffer) 0
           (fun val i newData s =>
              let data := callback val (position i) (contents internal s) in
              (Return newData,
               if negb (is_undefined data)
               then push_at newData data s else s)) newData s
       else if String.eqb (typeof buffer) "object" && negb (is_null buffer) then
         for_in_stored buffer
           (fun key newData s =>
              let buffer := contents internal s in
              let data := callback (VStr key) (member buffer key) buffer in
              if negb (is_undefined data) then
                match JSON_parse data with
                | Throw err => (Throw err, s)
                | Return _ =>
                    if negb (Array_isArray data) then
                      let '(newData, s) :=
                        allocate (VObj (spread (properties_at newData s) data))
                                 s in
                      (Return newData, s)
                    else (Throw (ObjockeyError (condenseMap_message data)), s)
                end
              else (Return newData, s)) newData s
       else (Return newData, s)).

(** The transform of the array branch is handed [newData] itself, the array
    it is being collected into. *)
Definition map_in_store (callback : callback) (internal : slot)
  : stored slot :=
  fun s0 =>
    let buffer := contents internal s0 in
    let '(newData, s) :=
      allocate (if Array_isArray buffer then VArr [] else VObj []) s0 in
    returns
      (if Array_isArray buffer then
         for_of_stored (elements_of buffer) 0
           (fun val i newData s =>
              (Return newData,
               push_at newData
                 (or_else (callback val (position i) (fetch newData s))
                          VUndefined) s)) newData s
       else
         for_in_stored buffer
           (fun key newData s =>
              let buffer := contents internal s in
              let data :=
                or_else (callback (VStr key) (member buffer key) buffer)
                        (VObj [(key, VNull)]) in
              let '(newData, s) :=
                allocate (VObj (spread (properties_at newData s) data)) s in
              (Return newData, s)) newData s).

(** * Vocabulary of the statements *)

(** An object whose payload is [v] and whose printer is the default. *)
Definition holding (v : value) : ObjockeyObject :=
  {| print_output_using := console_log; internal := v |}.

Definition first_argument : callback := fun a _ _ => a.
Definition always : callback := fun _ _ _ => VBool true.

(** [(key, value) => ({ [key]: value })] *)
Definition entry : callback :=
  fun key v _ =>
    match key with
    | VStr k => VObj [(k, v)]
    | _ => VUndefined
    end.

Definition one_two_three : value := VArr [position 1; position 2; position 3].

Fixpoint fold_indexed {E A : Type} (f : E -> nat -> A -> A) (l : list E)
    (i : nat) (a : A) : A :=
  match l with
  | [] => a
  | x :: rest => fold_indexed f rest (S i) (f x i a)
  end.

(** The elements of [S] at which [p] holds, in the order of [S]. *)
Definition kept (p : callback) (S : list value) : list value :=
  List.map fst
    (List.filter (fun vi => truthy (p (fst vi) (position (snd vi)) (VArr S)))
                 (combine S (seq 0 (List.length S)))).

(** [(value, index) => index]: truthy everywhere but at position 0. *)
Definition second_argument : callback := fun _ i _ => i.

Fixpoint distinct_keys (ps : properties) : bool :=
  match ps with
  | [] => true
  | (k, _) :: rest =>
      match get_property k rest with
      | Some _ => false
      | None => distinct_keys rest
      end
  end.

(** Neither an array nor a mapping. *)
Definition scalar (v : value) : bool := negb (instanceof_Object v).

Definition sequence_or_mapping (v : value) : bool :=
  match v with
  | VArr _ | VObj _ => true
  | _ => false
  end.

(** The text starts, after white space, with a bracket or a brace. *)
Definition opens_container (s : list ascii) : bool :=
  match skip_whitespace s with
  | c :: _ => Ascii.eqb c "["%char || Ascii.eqb c "{"%char
  | [] => false
  end.

(** The two collecting loops of [median]. *)
Definition numeric_results (callback : callback) (this : ObjockeyObject)
  : completion (list numeric) :=
  let buffer := internal this in
  matched <-
    (if isArray this then
       for_of (elements_of buffer) 0
         (fun val i => collect (callback val (position i) buffer)) []
     else Return []) ;;
  if isObject this then
    for_in buffer
      (fun key => collect (callback (VStr key) (member buffer key) buffer))
      matched
  else Return matched.

(** [x] is the non-negative integer [k]. *)
Definition integer (x : number) (k : nat) : Prop :=
  match x with
  | Finite m e => (0 <= e)%Z /\ (m * 10 ^ e)%Z = Z.of_nat k
  | _ => False
  end.

(** The predicate [p] holds at position [i] of the sequence [S]. *)
Definition holds_at (p : callback) (S : list value) (i : nat) : bool :=
  truthy (p (nth i S VUndefined) (position i) (VArr S)).

(** The predicate [p] holds for the key [k] of the payload [buffer]. *)
Definition holds_for (p : callback) (buffer : value) (k : string) : bool :=
  truthy (p (VStr k) (member buffer k) buffer).

Definition matching_positions (p : callback) (S : list value) : list nat :=
  List.filter (holds_at p S) (seq 0 (List.length S)).

Definition matching_keys (p : callback) (buffer : value) : list string :=
  List.filter (holds_for p buffer) (keys_in buffer).

(** A finite Number in canonical form. *)
Definition canonical (n : number) : bool :=
  match n with
  | Finite m e =>
      match decimal m e with
      | Finite m' e' => (m' =? m)%Z && (e' =? e)%Z
      | _ => false
      end
  | _ => false
  end.

(** No key comes before an earlier one in the order in which the host lists
    own keys. *)
Fixpoint ordered_keys (ps : properties) : bool :=
  match ps with
  | [] => true
  | (k, _) :: rest =>
      forallb (fun kv => negb (precedes (fst kv) k)) rest && ordered_keys rest
  end.

(** The values [JSON.parse] can produce: [null], booleans, finite Numbers,
    strings, arrays of such values, and objects of such values whose keys
    are distinct and in the host's order. *)
Fixpoint json (v : value) : bool :=
  match v with
  | VNull | VBool _ | VStr _ => true
  | VNum n => canonical n
  | VArr l => forallb json l
  | VObj ps =>
      distinct_keys ps && ordered_keys ps
      && forallb (fun kv => json (snd kv)) ps
  | VUndefined | VBigInt _ | VSymbol _ => false
  end.

(** What may follow a value in a JSON text: nothing, a comma, or a closing
    bracket or brace. *)
Definition delimited (rest : list ascii) : bool :=
  match rest with
  | [] => true
  | c :: _ =>
      Ascii.eqb c ","%char || Ascii.eqb c "]"%char || Ascii.eqb c "}"%char
  end.

(** The four stages of [parse_number], named. *)
Definition read_sign (s : list ascii) : bool * list ascii :=
  match s with
  | c :: rest => if Ascii.eqb c "-"%char then (true, rest) else (false, s)
  | [] => (false, s)
  end.

Definition read_integer (s1 : list ascii) : option (list ascii * list ascii) :=
  match s1 with
  | c :: rest =>
      if Ascii.eqb c "0"%char then Some ([c], rest)
      else if is_digit c then Some (take_digits s1)
      else None
  | [] => None
  end.

Definition read_fraction (s2 : list ascii) : option (list ascii * list ascii) :=
  match s2 with
  | c :: rest =>
      if Ascii.eqb c "."%char then
        match take_digits rest with
        | ([], _) => None
        | (d, rest') => Some (d, rest')
        end
      else Some ([], s2)
  | [] => Some ([], s2)
  end.

Definition read_exponent (s3 : list ascii) : option (Z * list ascii) :=
  match s3 with
  | c :: rest =>
      if Ascii.eqb c "e"%char || Ascii.eqb c "E"%char then
        let '(minus, rest1) :=
          match rest with
          | c1 :: rest' =>
              if Ascii.eqb c1 "-"%char then (true, rest')
              else if Ascii.eqb c1 "+"%char then (false, rest')
              else (false, rest)
          | [] => (false, rest)
          end in
        match take_digits rest1 with
        | ([], _) => None
        | (d, rest2) =>
            Some (if minus then (- digits_value d)%Z else digits_value d, rest2)
        end
      else Some (0%Z, s3)
  | [] => Some (0%Z, s3)
  end.

(** The text of an exponent: nothing, or [e], a sign and digits. *)
Definition exponent_text (minus : bool) (expo : list ascii) : list ascii :=
  match expo with
  | [] => []
  | _ :: _ => "e"%char :: (if minus then "-"%char else "+"%char) :: expo
  end.

Definition exponent_value (minus : bool) (expo : list ascii) : Z :=
  match expo with
  | [] => 0%Z
  | _ :: _ => if minus then (- digits_value expo)%Z else digits_value expo
  end.

(** The text of a fraction: nothing, or a point and digits. *)
Definition fraction_text (frac : list ascii) : list ascii :=
  match frac with
  | [] => []
  | _ :: _ => "."%char :: frac
  end.

(** What follows a run of digits is no digit. *)
Definition stops (tail : list ascii) : Prop :=
  match tail with
  | [] => True
  | c :: _ => is_digit c = false
  end.

(** The two inner loops of [serialize], named. *)
Definition serialize_elements : list value -> completion (list (list ascii)) :=
  fix elements (l : list value) : completion (list (list ascii)) :=
    match l with
    | [] => Return []
    | x :: rest =>
        t <- serialize x ;;
        ts <- elements rest ;;
        Return (match t with
                | Some text => text
                | None => list_ascii_of_string "null"
                end :: ts)
    end.

Definition serialize_members
  : list (string * value) -> completion (list (list ascii)) :=
  fix members (ps : list (string * value)) : completion (list (list ascii)) :=
    match ps with
    | [] => Return []
    | (k, x) :: rest =>
        t <- serialize x ;;
        ts <- members rest ;;
        Return (match t with
                | Some text => (quote k ++ ":"%char :: text)%list :: ts
                | None => ts
                end)
    end.

(** The text [text] of the value [v] starts with a character that is not
    white space and closes no array, and is read back as [v] whatever
    follows it in a JSON text. *)
Definition reads_back (v : value) (text : list ascii) : Prop :=
  (exists c cs, text = c :: cs /\ is_whitespace c = false
                /\ Ascii.eqb c "]"%char = false)
  /\ forall fuel rest,
       delimited rest = true ->
       2 * List.length (text ++ rest) + 1 <= fuel ->
       parse_value fuel (text ++ rest) = Parsed v rest.

(** The text [part] of the member [kv] of an object: the quoted key, a
    colon, and a text of the value that is read back. *)
Definition member_reads_back (kv : string * value) (part : list ascii) : Prop :=
  exists text,
    part = (quote (fst kv) ++ ":"%char :: text)%list
    /\ reads_back (snd kv) text.

(** [o[k] = v] for every entry of [ps] in turn. *)
Definition define_all (ps acc : properties) : properties :=
  fold_left (fun acc kv => define_property (fst kv) (snd kv) acc) ps acc.

(** [JSON.stringify] gives a text of [v] that is read back as [v]. *)
Definition round_trips (v : value) : Prop :=
  json v = true ->
  exists text, serialize v = Return (Some text) /\ reads_back v text.

(** What the field [#internal] holds, in a store that has it: a primitive,
    or the address of an array or an object. *)
Definition well_formed (x : slot) (s : store) : bool :=
  match x with
  | Primitive v => scalar v
  | Container a =>
      Nat.ltb a (List.length s) && sequence_or_mapping (fetch a s)
  end.

(** The outcome of a call that started in the store [s]: every container of
    [s] is as it was, and what the call returns, if it returns, is an array
    or an object at an address that [s] does not have. *)
Definition new_container (s : store) (outcome : completion slot * store)
  : Prop :=
  firstn (List.length s) (snd outcome) = s
  /\ match fst outcome with
     | Return (Container r) =>
         List.length s <= r < List.length (snd outcome)
         /\ sequence_or_mapping (fetch r (snd outcome)) = true
     | Return (Primitive _) => False
     | Throw _ => True
     end.

(** The call in the store and the call on the contents end alike. *)
Definition same_result (outcome : completion slot * store)
    (c : completion returned) : Prop :=
  match fst outcome, c with
  | Return x, Return (Result v) => contents x (snd outcome) = v
  | Throw err, Throw err' => err = err'
  | _, _ => False
  end.

(** The result of the callback holds no reference to its third argument:
    it is a primitive, or it is the same whatever the third argument. *)
Definition keeps_no_reference (t : callback) : Prop :=
  forall a b c, scalar (t a b c) = true \/ forall c', t a b c' = t a b c.


(** A loop on the contents and the same loop in the store [s0] are in step
    when the store has every container of [s0] as it was and the variable
    holds the address, not one of [s0], of a container with the contents
    that the loop on the contents has in its local. *)
Definition in_step (s0 : store) (wrap : list value + properties)
    (x : address) (s : store) : Prop :=
  firstn (List.length s0) s = s0
  /\ List.length s0 <= x < List.length s
  /\ fetch x s = match wrap with
                 | inl l => VArr l
                 | inr ps => VObj ps
                 end.

(** The two loops end alike: in step, or with the same throw. *)
Definition alike {A : Type} (s0 : store) (wrap : A -> list value + properties)
    (c : completion A) (d : completion address * store) : Prop :=
  match c, fst d with
  | Return a, Return x => in_step s0 (wrap a) x (snd d)
  | Throw err, Throw err' =>
      err = err' /\ firstn (List.length s0) (snd d) = s0
  | _, _ => False
  end.

(** The data [JSON.parse] builds its results of: [null], booleans, Numbers
    other than NaN, strings, and arrays and objects of such data.  No
    [undefined], no BigInt and no Symbol is among them, at any depth. *)
Fixpoint plain_data (v : value) : bool :=
  match v with
  | VNull | VBool _ | VStr _ => true
  | VNum NaN => false
  | VNum _ => true
  | VArr l => forallb plain_data l
  | VObj ps => forallb (fun kv => plain_data (snd kv)) ps
  | VUndefined | VBigInt _ | VSymbol _ => false
  end.

(** * Properties *)

(** ** Loops whose body does not throw *)

Lemma for_of_pure {E A : Type} (body : E -> nat -> A -> completion A)
    (f : E -> nat -> A -> A) :
  (forall x i a, body x i a = Return (f x i a)) ->
  forall l i a, for_of l i body a = Return (fold_indexed f l i a).
Proof.
  intros Hbody l. induction l as [| x rest IH]; intros i a; simpl.
  - reflexivity.
  - rewrite Hbody. simpl. apply IH.
Qed.

Lemma for_in_pure {A : Type} (body : string -> A -> completion A)
    (f : string -> A -> A) (v : value) :
  (forall k a, body k a = Return (f k a)) ->
  forall a, for_in v body a
            = Return (fold_indexed (fun k _ => f k) (keys_in v) 0 a).
Proof.
  intros Hbody a. unfold for_in.
  apply for_of_pure. intros x i a'. apply Hbody.
Qed.

Lemma for_of_map_unchanged {E F A : Type} (g : E -> F)
    (body : F -> nat -> A -> completion A) (l : list E) :
  (forall x i a, body (g x) i a = Return a) ->
  forall i a, for_of (List.map g l) i body a = Return a.
Proof.
  intros Hbody. induction l as [| x rest IH]; intros i a; simpl.
  - reflexivity.
  - rewrite Hbody. simpl. apply IH.
Qed.

(** ** Construction *)

Lemma JSON_parse_text_error (text : string) (e : error) :
  JSON_parse_text text = Throw e -> e = SyntaxError.
Proof.
  unfold JSON_parse_text.
  destruct (parse_value _ _) as [v rest | |]; try congruence.
  destruct (skip_whitespace rest); congruence.
Qed.

Lemma constructor_structured (source : value) :
  Array_isArray source || instanceof_Object source = true ->
  constructor source = Return (holding VUndefined).
Proof.
  intros H. unfold constructor. rewrite H. reflexivity.
Qed.

Lemma constructor_empty_string :
  constructor (VStr "") = Return (holding VUndefined).
Proof. reflexivity. Qed.

Lemma constructor_text (text : string) :
  text <> "" ->
  constructor (VStr text)
  = match JSON_parse_text text with
    | Return v => Return (holding v)
    | Throw e => Throw e
    end.
Proof.
  intros Hne. unfold constructor. simpl.
  destruct (String.eqb_spec text ""); [contradiction |].
  change (JSON_parse (VStr text)) with (JSON_parse_text text).
  destruct (JSON_parse_text text) as [v | e] eqn:Hp; [reflexivity |].
  apply JSON_parse_text_error in Hp. subst e. reflexivity.
Qed.

Lemma constructor_malformed_text :
  constructor (VStr "not json") = Throw SyntaxError.
Proof. vm_compute. reflexivity. Qed.

Lemma constructor_suppresses_other_errors (description : string) :
  constructor (VSymbol description) = Return (holding VUndefined).
Proof. reflexivity. Qed.

(** C1 (code defect).  The constructor is given the array [[1, 2, 3]].  Its
    first test, under the comment "Keep data as-is if it is already an array
    or an object", returns before anything is assigned, so the payload stays
    unset instead of holding the given structure. *)
Theorem constructor_drops_structured_source :
  constructor one_two_three = Return (holding VUndefined)
  /\ constructor (VObj [("a", position 1)]) = Return (holding VUndefined).
Proof. split; reflexivity. Qed.

(** ** [average] *)

Lemma average_always_throws (callback : callback) (this : ObjockeyObject) :
  exists e, average callback this = (Throw e, this).
Proof.
  unfold average.
  match goal with
  | |- context [bind ?c _] => destruct c as [[calculation count] | e]
  end; simpl; eauto.
Qed.

(** C2 (code defect).  [average] ends with [return average / count]: the
    sum is held by [calculation], and no binding named [average] is in scope,
    so the call throws a ReferenceError where the mean (here 2) is
    expected, and likewise where no result is numeric. *)
Theorem average_unbound_identifier :
  average first_argument (holding one_two_three)
  = (Throw (ReferenceError "average"), holding one_two_three)
  /\ average first_argument (holding (VArr []))
     = (Throw (ReferenceError "average"), holding (VArr [])).
Proof. split; vm_compute; reflexivity. Qed.

(** ** [median] *)

(** C4 (code defect).  Three numeric results: the position is computed as
    [matched.length / 2], which is 1.5, not a position of the array, and
    the call returns [[undefined]] where the middle element 2 is expected.
    With four results the positions 2 and 3 are read. *)
Theorem median_middle_element_missing :
  fst (median first_argument (holding one_two_three))
  = Return (Result (VArr [VUndefined]))
  /\ fst (median first_argument
            (holding (VArr [position 1; position 2; position 3; position 4])))
     = Return (Result (VArr [position 3; position 4])).
Proof. split; vm_compute; reflexivity. Qed.

(** ** [condenseMap] *)

Lemma JSON_parse_mapping (ps : properties) :
  JSON_parse (VObj ps) = Throw SyntaxError.
Proof. reflexivity. Qed.

Lemma condenseMap_mapping_result (callback : callback) (k : string)
    (v : value) (rest ps : properties) :
  callback (VStr k) v (VObj ((k, v) :: rest)) = VObj ps ->
  condenseMap callback (holding (VObj ((k, v) :: rest)))
  = (Throw SyntaxError, holding (VObj ((k, v) :: rest))).
Proof.
  intros Hcb. unfold condenseMap, for_in, member. simpl.
  rewrite String.eqb_refl, Hcb. reflexivity.
Qed.

(** C5 (code defect).  The payload is [{a: 1}] and the transform returns
    [{[key]: value}].  The result is first handed to [JSON.parse], which
    reads its text [[object Object]] and throws a SyntaxError, where the
    merged mapping [{a: 1}] is expected.  A result that is a Number raises no
    error at all, and a two-element array fails in [JSON.parse] as well. *)
Theorem condenseMap_rejects_mapping_result :
  let this := holding (VObj [("a", position 1)]) in
  condenseMap entry this = (Throw SyntaxError, this)
  /\ condenseMap (fun _ v _ => v) this = (Return (Result (VObj [])), this)
  /\ condenseMap (fun _ v _ => VArr [v; v]) this = (Throw SyntaxError, this).
Proof. repeat split; vm_compute; reflexivity. Qed.

(** ** [findIndexes2D] *)

Lemma findIndexes2D_not_array (this : ObjockeyObject) (fs : list callback) :
  isArray this = false ->
  findIndexes2D (ArrayOf (List.map Function fs)) this
  = (Return (Result (VArr [])), this).
Proof.
  intros Hshape. unfold findIndexes2D. simpl.
  rewrite for_of_map_unchanged; [reflexivity |].
  intros f i indexes. simpl. rewrite Hshape.
  destruct (String.eqb (typeof (internal this)) "object"); [| reflexivity].
  erewrite for_in_pure by (intros; reflexivity). reflexivity.
Qed.

(** C6 (code defect).  The payload is the mapping [{a: 1}] and the single
    predicate holds everywhere.  The match set [["a"]] is computed, but only
    the array branch pushes a match set onto the result.  The call returns
    [[]] where [[["a"]]] is expected, the set [findAllIndexes] gives. *)
Theorem findIndexes2D_drops_mapping_matches :
  let this := holding (VObj [("a", position 1)]) in
  findIndexes2D (ArrayOf [Function always]) this
  = (Return (Result (VArr [])), this)
  /\ findAllIndexes always this = (Return (Result (VArr [VStr "a"])), this).
Proof. split; vm_compute; reflexivity. Qed.

(** ** [map] *)

(** C7 (code defect).  The transform hands back each element.  Every result
    goes through [|| undefined], which turns the falsy ones ([0], [false],
    the empty string, [null]) into [undefined]; only the truthy [7] stays. *)
Theorem map_loses_falsy_results :
  let elements := [position 0; VBool false; VStr ""; VNull; position 7] in
  map first_argument (holding (VArr elements))
  = (Return (Result (VArr [VUndefined; VUndefined; VUndefined; VUndefined;
                           position 7])),
     holding (VArr elements)).
Proof. vm_compute. reflexivity. Qed.

(** ** [set] *)

Lemma set_rejects (buffer : value) (this : ObjockeyObject) :
  typeof buffer <> "string" ->
  Array_isArray buffer = false ->
  (typeof buffer <> "object" \/ buffer = VNull) ->
  set buffer this = (Throw (ObjockeyError set_message), this).
Proof.
  intros Hs Ha Ho. unfold set.
  destruct buffer; simpl in *; try congruence; try reflexivity.
  destruct Ho; congruence.
Qed.

(** C10.  Whenever [set] throws, the object is what it was before the call:
    the text is parsed before the assignment, and the branch that rejects
    the argument assigns nothing. *)
Theorem set_failure_keeps_payload (buffer : value) (this this' : ObjockeyObject)
    (e : error) :
  set buffer this = (Throw e, this') ->
  this' = this /\ internal this' = internal this.
Proof.
  unfold set. intros H.
  destruct (String.eqb (typeof buffer) "string").
  - destruct (JSON_parse buffer); inversion H; subst; auto.
  - destruct ((Array_isArray buffer || String.eqb (typeof buffer) "object")
              && negb (is_null buffer));
      inversion H; subst; auto.
Qed.

Lemma set_failure_keeps_payload_witness :
  set (VStr "not json") (holding one_two_three)
  = (Throw SyntaxError, holding one_two_three)
  /\ internal (holding one_two_three) = one_two_three
  /\ set VNull (holding one_two_three)
     = (Throw (ObjockeyError set_message), holding one_two_three).
Proof.
  assert (H : set (VStr "not json") (holding one_two_three)
              = (Throw SyntaxError, holding one_two_three))
    by (vm_compute; reflexivity).
  split; [exact H |].
  split.
  - exact (proj2 (set_failure_keeps_payload _ _ _ _ H)).
  - reflexivity.
Defined.

(** ** [filter], [map] and [condenseMap] leave the payload alone *)

Lemma filter_loop (p : callback) (buffer : value) (l : list value) :
  forall i filtered,
    fold_indexed
      (fun val i filtered =>
         if truthy (p val (position i) buffer)
         then Array_push filtered val else filtered) l i filtered
    = (filtered ++
       List.map fst
         (List.filter (fun vi => truthy (p (fst vi) (position (snd vi)) buffer))
                      (combine l (seq i (List.length l)))))%list.
Proof.
  induction l as [| x rest IH]; intros i filtered; simpl.
  - now rewrite app_nil_r.
  - rewrite IH. destruct (truthy (p x (position i) buffer)); simpl.
    + unfold Array_push. now rewrite <- app_assoc.
    + reflexivity.
Qed.

Lemma filter_sequence (p : callback) (this : ObjockeyObject) (S : list value) :
  internal this = VArr S ->
  filter p this = (Return (Result (VArr (kept p S))), this).
Proof.
  intros Hs. unfold filter, isArray. rewrite Hs. simpl.
  erewrite for_of_pure by (intros; reflexivity).
  simpl. rewrite filter_loop. reflexivity.
Qed.

(** ** Lookup after a write and after a spread *)

Lemma get_replace_property (k k' : string) (v : value) (ps : properties) :
  get_property k' ps <> None ->
  get_property k (replace_property k' v ps)
  = if String.eqb k k' then Some v else get_property k ps.
Proof.
  induction ps as [| [k0 v0] rest IH]; simpl; intros Hin; [congruence |].
  destruct (String.eqb_spec k' k0) as [-> | Hne]; simpl.
  - destruct (String.eqb k k0); reflexivity.
  - destruct (String.eqb_spec k k0) as [-> | Hne'].
    + destruct (String.eqb_spec k0 k'); [congruence | reflexivity].
    + apply IH. exact Hin.
Qed.

Lemma get_insert_property (k k' : string) (v : value) (ps : properties) :
  get_property k' ps = None ->
  get_property k (insert_property k' v ps)
  = if String.eqb k k' then Some v else get_property k ps.
Proof.
  induction ps as [| [k0 v0] rest IH]; simpl; intros Hout.
  - destruct (String.eqb k k'); reflexivity.
  - destruct (String.eqb_spec k' k0) as [-> | Hne]; [discriminate |].
    destruct (precedes k' k0); simpl.
    + destruct (String.eqb k k'); reflexivity.
    + destruct (String.eqb_spec k k0) as [-> | Hne'].
      * destruct (String.eqb_spec k0 k'); [congruence | reflexivity].
      * apply IH. exact Hout.
Qed.

Lemma get_define_property (k k' : string) (v : value) (ps : properties) :
  get_property k (define_property k' v ps)
  = if String.eqb k k' then Some v else get_property k ps.
Proof.
  unfold define_property.
  destruct (get_property k' ps) eqn:Hk'.
  - apply get_replace_property. congruence.
  - apply get_insert_property. exact Hk'.
Qed.

Lemma get_property_app (k : string) (ps qs : properties) :
  get_property k (ps ++ qs)%list
  = match get_property k ps with
    | Some v => Some v
    | None => get_property k qs
    end.
Proof.
  induction ps as [| [k0 v0] rest IH]; simpl; [reflexivity |].
  destruct (String.eqb k k0); [reflexivity | exact IH].
Qed.

Lemma get_property_rev (k : string) (ps : properties) :
  distinct_keys ps = true ->
  get_property k (rev ps) = get_property k ps.
Proof.
  induction ps as [| [k0 v0] rest IH]; simpl; [reflexivity |].
  destruct (get_property k0 rest) eqn:Hk0; [discriminate |].
  intros Hd. rewrite get_property_app, (IH Hd). simpl.
  destruct (String.eqb_spec k k0) as [-> | Hne].
  - now rewrite Hk0.
  - now destruct (get_property k rest).
Qed.

Lemma get_property_fold (k : string) (entries target : properties) :
  get_property k
    (fold_left (fun acc kv => define_property (fst kv) (snd kv) acc)
               entries target)
  = match get_property k (rev entries) with
    | Some v => Some v
    | None => get_property k target
    end.
Proof.
  revert target.
  induction entries as [| [k0 v0] rest IH]; intros target; simpl;
    [reflexivity |].
  rewrite IH, get_property_app, get_define_property. simpl.
  destruct (get_property k (rev rest)); [reflexivity |].
  now destruct (String.eqb k k0).
Qed.

(** In [{...a, ...b}] an entry of [b] wins over one of [a]. *)
Lemma get_property_merge (k : string) (ps qs : properties) :
  distinct_keys ps = true ->
  distinct_keys qs = true ->
  get_property k (spread (spread [] (VObj ps)) (VObj qs))
  = match get_property k qs with
    | Some v => Some v
    | None => get_property k ps
    end.
Proof.
  intros Hp Hq. unfold spread. simpl.
  rewrite !get_property_fold, (get_property_rev k qs Hq),
    (get_property_rev k ps Hp).
  destruct (get_property k qs); [reflexivity |].
  now destruct (get_property k ps).
Qed.

(** ** [push] *)

(** C8, as the claim states it, fails here: the payload is the Number 5, the
    addition is [false], their types differ, and [push] returns the object
    without an error, because a falsy addition skips the type test. *)
Lemma push_falsy_addition_not_refused :
  (let this := holding (position 5) in
   scalar (internal this) = true
   /\ scalar (VBool false) = true
   /\ typeof (VBool false) <> typeof (internal this)
   /\ push (VBool false) this = (Return This, this))
  /\ ~ (forall this buffer,
          scalar (internal this) = true ->
          scalar buffer = true ->
          typeof buffer <> typeof (internal this) ->
          exists message,
            fst (push buffer this) = Throw (ObjockeyError message)).
Proof.
  split.
  - simpl. repeat split. discriminate.
  - intros Hclaim.
    destruct (Hclaim (holding (position 5)) (VBool false) eq_refl eq_refl)
      as [message Hthrow]; [discriminate |].
    simpl in Hthrow. discriminate.
Qed.

(** C8, amended.  Sequence payload and sequence addition: concatenation.
    Mapping payload and mapping addition: a merge in which the incoming
    entries win.  Sequence payload and scalar addition: one more element.
    Scalar payload and scalar addition: an [ObjockeyError] when the
    addition is truthy and of another type, nothing otherwise.  Whenever it
    does not throw, [push] returns the object. *)
Theorem push_contract (this : ObjockeyObject) (buffer : value) :
  (forall l b, internal this = VArr l -> buffer = VArr b ->
     push buffer this = (Return This, set_internal (VArr (l ++ b)%list) this))
  /\ (forall ps qs, internal this = VObj ps -> buffer = VObj qs ->
        distinct_keys ps = true -> distinct_keys qs = true ->
        exists merged,
          push buffer this = (Return This, set_internal (VObj merged) this)
          /\ forall k, get_property k merged
                       = match get_property k qs with
                         | Some v => Some v
                         | None => get_property k ps
                         end)
  /\ (forall l, internal this = VArr l -> scalar buffer = true ->
        push buffer this
        = (Return This, set_internal (VArr (l ++ [buffer])%list) this))
  /\ (scalar (internal this) = true -> scalar buffer = true ->
        push buffer this
        = if truthy buffer
             && negb (String.eqb (typeof buffer) (typeof (internal this)))
          then (Throw (ObjockeyError (push_message buffer (internal this))),
                this)
          else (Return This, this))
  /\ (forall r this', push buffer this = (Return r, this') -> r = This).
Proof.
  repeat split.
  - intros l b Hl Hb. unfold push, isArray. rewrite Hl, Hb. reflexivity.
  - intros ps qs Hp Hq Hdp Hdq.
    exists (spread (spread [] (VObj ps)) (VObj qs)). split.
    + unfold push, isArray. rewrite Hp, Hq. reflexivity.
    + intros k. now apply get_property_merge.
  - intros l Hl Hs. unfold push, isArray. rewrite Hl.
    destruct buffer; simpl in *; try discriminate;
      rewrite ?andb_false_r; reflexivity.
  - intros Hp Hs. unfold push, isArray.
    destruct buffer; simpl in Hs; try discriminate;
      destruct (internal this); simpl in Hp; try discriminate;
      simpl; rewrite ?andb_false_r; reflexivity.
  - intros r this'. unfold push.
    repeat match goal with
           | |- context [if ?c then _ else _] => destruct c
           end; congruence.
Qed.

Lemma push_contract_witness :
  (exists merged,
     push (VObj [("a", position 2)]) (holding (VObj [("a", position 1)]))
     = (Return This, holding (VObj merged))
     /\ get_property "a" merged = Some (position 2))
  /\ push (VArr [position 3; position 4])
          (holding (VArr [position 1; position 2]))
     = (Return This,
        holding (VArr [position 1; position 2; position 3; position 4]))
  /\ push (VStr "x") (holding (VArr [position 1]))
     = (Return This, holding (VArr [position 1; VStr "x"]))
  /\ push (VStr "x") (holding (position 5))
     = (Throw (ObjockeyError (push_message (VStr "x") (position 5))),
        holding (position 5)).
Proof.
  split; [| split; [| split]].
  - destruct (proj1 (proj2 (push_contract
                              (holding (VObj [("a", position 1)]))
                              (VObj [("a", position 2)])))
                    _ _ eq_refl eq_refl eq_refl eq_refl)
      as [merged [Hpush Hget]].
    exists merged. split; [exact Hpush | exact (Hget "a")].
  - exact (proj1 (push_contract (holding (VArr [position 1; position 2]))
                                (VArr [position 3; position 4]))
                 _ _ eq_refl eq_refl).
  - exact (proj1 (proj2 (proj2 (push_contract (holding (VArr [position 1]))
                                              (VStr "x"))))
                 _ eq_refl eq_refl).
  - exact (proj1 (proj2 (proj2 (proj2 (push_contract (holding (position 5))
                                                     (VStr "x")))))
                 eq_refl eq_refl).
Defined.

(** ** The shape of the payload *)

Lemma parse_elements_array (fuel : nat) :
  forall s acc v rest,
    parse_elements fuel s acc = Parsed v rest -> sequence_or_mapping v = true.
Proof.
  induction fuel as [| fuel IH]; intros s acc v rest; simpl; [discriminate |].
  destruct (parse_value fuel s) as [v0 rest0 | |]; try discriminate.
  destruct (skip_whitespace rest0) as [| c rest1]; try discriminate.
  destruct (Ascii.eqb c ","%char); [apply IH |].
  destruct (Ascii.eqb c "]"%char); [| discriminate].
  intros H. inversion H. reflexivity.
Qed.

Lemma parse_members_mapping (fuel : nat) :
  forall s acc v rest,
    parse_members fuel s acc = Parsed v rest -> sequence_or_mapping v = true.
Proof.
  induction fuel as [| fuel IH]; intros s acc v rest; simpl; [discriminate |].
  destruct (skip_whitespace s) as [| c rest0]; try discriminate.
  destruct (Ascii.eqb c dquote); [| discriminate].
  destruct (parse_string rest0 []) as [[k rest1] |]; try discriminate.
  destruct (skip_whitespace rest1) as [| c1 rest2]; try discriminate.
  destruct (Ascii.eqb c1 ":"%char); [| discriminate].
  destruct (parse_value fuel rest2) as [v0 rest3 | |]; try discriminate.
  destruct (skip_whitespace rest3) as [| c2 rest4]; try discriminate.
  destruct (Ascii.eqb c2 ","%char); [apply IH |].
  destruct (Ascii.eqb c2 "}"%char); [| discriminate].
  intros H. inversion H. reflexivity.
Qed.

Lemma parse_value_shape (fuel : nat) (s : list ascii) (v : value)
    (rest : list ascii) :
  parse_value fuel s = Parsed v rest ->
  sequence_or_mapping v = opens_container s.
Proof.
  unfold opens_container.
  destruct fuel as [| fuel]; simpl; [discriminate |].
  destruct (skip_whitespace s) as [| c rest0]; [discriminate |].
  destruct (Ascii.eqb c "["%char) eqn:Hbracket.
  { destruct (skip_whitespace rest0) as [| c1 rest1]; [discriminate |].
    destruct (Ascii.eqb c1 "]"%char).
    - intros H. inversion H. reflexivity.
    - apply parse_elements_array. }
  destruct (Ascii.eqb c "{"%char) eqn:Hbrace.
  { destruct (skip_whitespace rest0) as [| c1 rest1]; [discriminate |].
    destruct (Ascii.eqb c1 "}"%char).
    - intros H. inversion H. reflexivity.
    - apply parse_members_mapping. }
  simpl.
  destruct (Ascii.eqb c dquote).
  { destruct (parse_string rest0 []) as [[str rest1] |]; [| discriminate].
    intros H. inversion H. reflexivity. }
  unfold parse_keyword.
  repeat match goal with
         | |- context [if ?b then _ else _] => destruct b
         | |- context [match ?o with Some _ => _ | None => _ end] =>
             destruct o as [[? ?] | ] || destruct o
         end;
    try discriminate; intros H; inversion H; reflexivity.
Qed.

Lemma JSON_parse_text_shape (text : string) (v : value) :
  JSON_parse_text text = Return v ->
  sequence_or_mapping v = opens_container (list_ascii_of_string text).
Proof.
  unfold JSON_parse_text.
  destruct (parse_value _ _) as [v0 rest | |] eqn:Hp; try discriminate.
  destruct (skip_whitespace rest); [| discriminate].
  intros H. inversion H. subst v0.
  exact (parse_value_shape _ _ _ _ Hp).
Qed.

Lemma set_text (text : string) (this : ObjockeyObject) :
  set (VStr text) this
  = match JSON_parse_text text with
    | Return v => (Return This, set_internal v this)
    | Throw e => (Throw e, this)
    end.
Proof. reflexivity. Qed.

Lemma push_keeps_shape (buffer : value) (this this' : ObjockeyObject)
    (c : completion returned) :
  sequence_or_mapping (internal this) = true ->
  push buffer this = (c, this') ->
  sequence_or_mapping (internal this') = true.
Proof.
  intros Hshape. unfold push.
  repeat match goal with
         | |- context [if ?b then _ else _] => destruct b
         end;
    intros H; inversion H; subst; simpl; auto.
Qed.

Lemma replace_keeps_shape (key : value) (f : value -> value)
    (this this' : ObjockeyObject) (c : completion returned) :
  sequence_or_mapping (internal this) = true ->
  replace key f this = Some (c, this') ->
  sequence_or_mapping (internal this') = true.
Proof.
  intros Hshape. unfold replace.
  destruct (internal this) eqn:Hp; simpl in Hshape; try discriminate;
    destruct key; simpl;
    repeat match goal with
           | |- context [match ?o with Some _ => _ | None => _ end] =>
               destruct o
           | |- context [match ?o with Return _ => _ | Throw _ => _ end] =>
               destruct o
           | |- context [if ?b then _ else _] => destruct b
           end;
    try discriminate; intros H; inversion H; subst; simpl; auto;
    rewrite Hp; reflexivity.
Qed.

Lemma set_structured_shape (buffer : value) (this this' : ObjockeyObject)
    (r : returned) :
  typeof buffer <> "string" ->
  set buffer this = (Return r, this') ->
  internal this' = buffer /\ sequence_or_mapping buffer = true.
Proof.
  intros Hs. unfold set.
  destruct buffer; simpl in *; try congruence;
    intros H; inversion H; subst; auto.
Qed.

(** C3, as the claim states it, fails here: [set] is given the text [5],
    which is JSON, and the payload becomes the Number 5, neither a sequence
    nor a mapping; the constructor does the same with the text [true]. *)
Lemma set_scalar_text_leaves_scalar_payload :
  (set (VStr "5") (holding one_two_three)
   = (Return This, holding (position 5))
   /\ is_undefined (position 5) = false
   /\ sequence_or_mapping (position 5) = false
   /\ constructor (VStr "true") = Return (holding (VBool true)))
  /\ ~ (forall buffer this r this',
          set buffer this = (Return r, this') ->
          is_undefined (internal this') = false ->
          sequence_or_mapping (internal this') = true).
Proof.
  split.
  - repeat split; vm_compute; reflexivity.
  - intros Hclaim.
    assert (Hset : set (VStr "5") (holding one_two_three)
                   = (Return This, holding (position 5)))
      by (vm_compute; reflexivity).
    specialize (Hclaim _ _ _ _ Hset eq_refl). discriminate.
Qed.

(** C3, amended.  [push] and [replace] keep a payload that is a sequence or
    a mapping one; [set] with an argument that is not text stores a sequence
    or a mapping; construction from text and [set] from text store the
    value the JSON text denotes, which is a sequence or a mapping exactly
    when the text opens with a bracket or a brace, and a scalar otherwise. *)
Theorem payload_shape (this : ObjockeyObject) :
  sequence_or_mapping (internal this) = true ->
  (forall buffer c this',
     push buffer this = (c, this') ->
     sequence_or_mapping (internal this') = true)
  /\ (forall key f c this',
        replace key f this = Some (c, this') ->
        sequence_or_mapping (internal this') = true)
  /\ (forall buffer that r that',
        typeof buffer <> "string" ->
        set buffer that = (Return r, that') ->
        sequence_or_mapping (internal that') = true)
  /\ (forall text that r that',
        set (VStr text) that = (Return r, that') ->
        JSON_parse_text text = Return (internal that')
        /\ sequence_or_mapping (internal that')
           = opens_container (list_ascii_of_string text))
  /\ (forall text that,
        constructor (VStr text) = Return that ->
        text = "" /\ internal that = VUndefined
        \/ JSON_parse_text text = Return (internal that)
           /\ sequence_or_mapping (internal that)
              = opens_container (list_ascii_of_string text)).
Proof.
  intros Hshape. repeat split.
  - intros buffer c this'. now apply push_keeps_shape.
  - intros key f c this'. now apply replace_keeps_shape.
  - intros buffer that r that' Hs H.
    destruct (set_structured_shape _ _ _ _ Hs H) as [-> Hb]. exact Hb.
  - rewrite set_text in H.
    destruct (JSON_parse_text text) as [v | e]; inversion H. reflexivity.
  - rewrite set_text in H.
    destruct (JSON_parse_text text) as [v | e] eqn:Hp; inversion H. simpl.
    now apply JSON_parse_text_shape.
  - intros text that.
    destruct (String.eqb_spec text "") as [-> | Hne].
    + intros H. inversion H. left. split; reflexivity.
    + rewrite (constructor_text text Hne).
      destruct (JSON_parse_text text) as [v | e] eqn:Hp; intros H;
        inversion H. right. split; [reflexivity |].
      now apply JSON_parse_text_shape.
Qed.

Lemma payload_shape_witness :
  sequence_or_mapping
    (internal (snd (push (VObj [("b", position 2)]) (holding one_two_three))))
  = true.
Proof.
  exact (proj1 (payload_shape (holding one_two_three) eq_refl)
               (VObj [("b", position 2)]) _ _ eq_refl).
Defined.

(** ** The parser never runs out of fuel *)

Lemma skip_whitespace_length (s : list ascii) :
  List.length (skip_whitespace s) <= List.length s.
Proof.
  induction s as [| c rest IH]; simpl; [lia |].
  destruct (is_whitespace c); simpl; lia.
Qed.

Lemma take_digits_length (s d rest : list ascii) :
  take_digits s = (d, rest) -> List.length rest <= List.length s.
Proof.
  revert d rest. induction s as [| c s' IH]; simpl; intros d rest H.
  - inversion H. simpl. lia.
  - destruct (is_digit c).
    + destruct (take_digits s') as [d' rest'] eqn:Hd. inversion H. subst.
      specialize (IH _ _ eq_refl). lia.
    + inversion H. simpl. lia.
Qed.

Lemma parse_number_length (s : list ascii) (n : number) (rest : list ascii) :
  parse_number s = Some (n, rest) -> List.length rest <= List.length s.
Proof.
  unfold parse_number.
  repeat match goal with
         | |- context [take_digits ?x] =>
             let H := fresh "Hd" in
             destruct (take_digits x) as [? ?] eqn:H;
             apply take_digits_length in H; simpl in H
         | |- context [if ?b then _ else _] => destruct b
         | |- context [match ?l with [] => _ | _ :: _ => _ end] => destruct l
         end;
    simpl; intros H; inversion H; subst; simpl in *; lia.
Qed.

Lemma parse_string_length (s : list ascii) :
  forall acc k rest,
    parse_string s acc = Some (k, rest) -> List.length rest <= List.length s.
Proof.
  induction s as [s IH] using (well_founded_induction
                                 (Wf_nat.well_founded_ltof _ (@List.length ascii))).
  unfold Wf_nat.ltof in IH.
  intros acc k rest. destruct s as [| c s1]; simpl; [discriminate |].
  destruct (Ascii.eqb c dquote).
  { intros H. inversion H. subst. lia. }
  destruct (Ascii.eqb c backslash).
  - destruct s1 as [| e s2]; [discriminate |].
    destruct (Ascii.eqb e "u"%char).
    + destruct s2 as [| h1 [| h2 [| h3 [| h4 s3]]]]; try discriminate.
      destruct (hex_value h1), (hex_value h2), (hex_value h3), (hex_value h4);
        try discriminate.
      intros H. apply IH in H; simpl in *; lia.
    + destruct (unescape e); [| discriminate].
      intros H. apply IH in H; simpl in *; lia.
  - destruct (nat_of_ascii c <? 32)%nat; [discriminate |].
    intros H. apply IH in H; simpl in *; lia.
Qed.

Lemma strip_prefix_length (p : list ascii) :
  forall s rest, strip_prefix p s = Some rest ->
                 List.length rest <= List.length s.
Proof.
  induction p as [| a p' IH]; intros s rest; simpl.
  - intros H. inversion H. lia.
  - destruct s as [| b s']; [discriminate |].
    destruct (Ascii.eqb a b); [| discriminate].
    intros H. apply IH in H. simpl. lia.
Qed.

Lemma parse_keyword_length (word : string) (v0 v : value)
    (s rest : list ascii) :
  parse_keyword word v0 s = Parsed v rest ->
  List.length rest <= List.length s.
Proof.
  unfold parse_keyword.
  destruct (strip_prefix _ s) as [rest0 |] eqn:Hp; [| discriminate].
  intros H. inversion H. subst. now apply strip_prefix_length in Hp.
Qed.

(** What a parser hands back as the rest is no longer than what it was
    given. *)
Lemma parse_rest_length (fuel : nat) :
  (forall s v rest,
     parse_value fuel s = Parsed v rest -> List.length rest <= List.length s)
  /\ (forall s acc v rest,
        parse_elements fuel s acc = Parsed v rest ->
        List.length rest <= List.length s)
  /\ (forall s acc v rest,
        parse_members fuel s acc = Parsed v rest ->
        List.length rest <= List.length s).
Proof.
  induction fuel as [| fuel [IHv [IHe IHm]]];
    [repeat split; intros; discriminate |].
  repeat split.
  - intros s v rest. simpl.
    pose proof (skip_whitespace_length s) as Hs.
    destruct (skip_whitespace s) as [| c rest0]; [discriminate |].
    simpl in Hs.
    destruct (Ascii.eqb c "["%char).
    { pose proof (skip_whitespace_length rest0) as Hs0.
      destruct (skip_whitespace rest0) as [| c1 rest1]; [discriminate |].
      simpl in Hs0.
      destruct (Ascii.eqb c1 "]"%char).
      - intros H. inversion H. subst. lia.
      - intros H. apply IHe in H. lia. }
    destruct (Ascii.eqb c "{"%char).
    { pose proof (skip_whitespace_length rest0) as Hs0.
      destruct (skip_whitespace rest0) as [| c1 rest1]; [discriminate |].
      simpl in Hs0.
      destruct (Ascii.eqb c1 "}"%char).
      - intros H. inversion H. subst. lia.
      - intros H. apply IHm in H. lia. }
    destruct (Ascii.eqb c dquote).
    { destruct (parse_string rest0 []) as [[str rest1] |] eqn:Hp;
        [| discriminate].
      apply parse_string_length in Hp.
      intros H. inversion H. subst. lia. }
    destruct (Ascii.eqb c "t"%char);
      [intros H; apply parse_keyword_length in H; simpl in H; lia |].
    destruct (Ascii.eqb c "f"%char);
      [intros H; apply parse_keyword_length in H; simpl in H; lia |].
    destruct (Ascii.eqb c "n"%char);
      [intros H; apply parse_keyword_length in H; simpl in H; lia |].
    destruct (parse_number (c :: rest0)) as [[n rest1] |] eqn:Hp;
      [| discriminate].
    apply parse_number_length in Hp. simpl in Hp.
    intros H. inversion H. subst. lia.
  - intros s acc v rest. simpl.
    destruct (parse_value fuel s) as [v0 rest0 | |] eqn:Hp; try discriminate.
    apply IHv in Hp.
    pose proof (skip_whitespace_length rest0) as Hs0.
    destruct (skip_whitespace rest0) as [| c rest1]; [discriminate |].
    simpl in Hs0.
    destruct (Ascii.eqb c ","%char).
    { intros H. apply IHe in H. lia. }
    destruct (Ascii.eqb c "]"%char); [| discriminate].
    intros H. inversion H. subst. lia.
  - intros s acc v rest. simpl.
    pose proof (skip_whitespace_length s) as Hs.
    destruct (skip_whitespace s) as [| c rest0]; [discriminate |].
    simpl in Hs.
    destruct (Ascii.eqb c dquote); [| discriminate].
    destruct (parse_string rest0 []) as [[k rest1] |] eqn:Hk; [| discriminate].
    apply parse_string_length in Hk.
    pose proof (skip_whitespace_length rest1) as Hs1.
    destruct (skip_whitespace rest1) as [| c1 rest2]; [discriminate |].
    simpl in Hs1.
    destruct (Ascii.eqb c1 ":"%char); [| discriminate].
    destruct (parse_value fuel rest2) as [v0 rest3 | |] eqn:Hp;
      try discriminate.
    apply IHv in Hp.
    pose proof (skip_whitespace_length rest3) as Hs3.
    destruct (skip_whitespace rest3) as [| c2 rest4]; [discriminate |].
    simpl in Hs3.
    destruct (Ascii.eqb c2 ","%char).
    { intros H. apply IHm in H. lia. }
    destruct (Ascii.eqb c2 "}"%char); [| discriminate].
    intros H. inversion H. subst. lia.
Qed.

Lemma parse_fuel (fuel : nat) :
  (forall s, 2 * List.length s + 1 <= fuel -> parse_value fuel s <> Exhausted)
  /\ (forall s acc,
        2 * List.length s + 2 <= fuel ->
        parse_elements fuel s acc <> Exhausted)
  /\ (forall s acc,
        2 * List.length s + 2 <= fuel ->
        parse_members fuel s acc <> Exhausted).
Proof.
  induction fuel as [| fuel [IHv [IHe IHm]]];
    [repeat split; intros; lia |].
  repeat split.
  - intros s Hf. simpl.
    pose proof (skip_whitespace_length s) as Hs.
    destruct (skip_whitespace s) as [| c rest0]; [discriminate |].
    simpl in Hs.
    destruct (Ascii.eqb c "["%char).
    { destruct (skip_whitespace rest0) as [| c1 rest1]; [discriminate |].
      destruct (Ascii.eqb c1 "]"%char); [discriminate |].
      apply IHe. lia. }
    destruct (Ascii.eqb c "{"%char).
    { destruct (skip_whitespace rest0) as [| c1 rest1]; [discriminate |].
      destruct (Ascii.eqb c1 "}"%char); [discriminate |].
      apply IHm. lia. }
    unfold parse_keyword.
    repeat match goal with
           | |- context [if ?b then _ else _] => destruct b
           | |- context [match ?o with Some _ => _ | None => _ end] =>
               destruct o as [[? ?] |] || destruct o
           end; discriminate.
  - intros s acc Hf. simpl.
    destruct (parse_value fuel s) as [v0 rest0 | |] eqn:Hp.
    + apply (proj1 (parse_rest_length fuel)) in Hp.
      pose proof (skip_whitespace_length rest0) as Hs0.
      destruct (skip_whitespace rest0) as [| c rest1]; [discriminate |].
      simpl in Hs0.
      destruct (Ascii.eqb c ","%char); [apply IHe; lia |].
      destruct (Ascii.eqb c "]"%char); discriminate.
    + discriminate.
    + exfalso. revert Hp. apply IHv. lia.
  - intros s acc Hf. simpl.
    pose proof (skip_whitespace_length s) as Hs.
    destruct (skip_whitespace s) as [| c rest0]; [discriminate |].
    simpl in Hs.
    destruct (Ascii.eqb c dquote); [| discriminate].
    destruct (parse_string rest0 []) as [[k rest1] |] eqn:Hk; [| discriminate].
    apply parse_string_length in Hk.
    pose proof (skip_whitespace_length rest1) as Hs1.
    destruct (skip_whitespace rest1) as [| c1 rest2]; [discriminate |].
    simpl in Hs1.
    destruct (Ascii.eqb c1 ":"%char); [| discriminate].
    destruct (parse_value fuel rest2) as [v0 rest3 | |] eqn:Hp.
    + apply (proj1 (parse_rest_length fuel)) in Hp.
      pose proof (skip_whitespace_length rest3) as Hs3.
      destruct (skip_whitespace rest3) as [| c2 rest4]; [discriminate |].
      simpl in Hs3.
      destruct (Ascii.eqb c2 ","%char); [apply IHm; lia |].
      destruct (Ascii.eqb c2 "}"%char); discriminate.
    + discriminate.
    + exfalso. revert Hp. apply IHv. lia.
Qed.

(** [JSON_parse_text] gives its parser enough fuel. *)
Lemma parse_value_fuel (text : string) :
  let s := list_ascii_of_string text in
  parse_value (2 * List.length s + 1) s <> Exhausted.
Proof. intros s. apply (proj1 (parse_fuel _)). lia. Qed.

(** ** [median] on an odd count *)

Lemma strip_zeros_spec (fuel : nat) :
  forall m e m' e',
    strip_zeros fuel m e = (m', e') ->
    (e <= e')%Z /\ m = (m' * 10 ^ (e' - e))%Z.
Proof.
  induction fuel as [| fuel IH]; intros m e m' e'; simpl.
  - intros H. inversion H. subst. rewrite Z.sub_diag. simpl. lia.
  - destruct (Z.eqb_spec (m mod 10) 0) as [Hz | Hnz].
    + intros H. apply IH in H. destruct H as [Hle Hm]. split; [lia |].
      replace (e' - e)%Z with (Z.succ (e' - (e + 1)))%Z by lia.
      rewrite Z.pow_succ_r by lia.
      assert (m = 10 * (m / 10))%Z by (Z.div_mod_to_equations; lia).
      lia.
    + intros H. inversion H. subst. rewrite Z.sub_diag. simpl. lia.
Qed.

Lemma decimal_spec (m e : Z) :
  m <> 0%Z ->
  exists m' e',
    decimal m e = Finite m' e' /\ (e <= e')%Z /\ m = (m' * 10 ^ (e' - e))%Z.
Proof.
  intros Hm. unfold decimal.
  destruct (Z.eqb_spec m 0); [contradiction |].
  destruct (strip_zeros _ m e) as [m' e'] eqn:Hs.
  exists m', e'. split; [reflexivity |]. now apply strip_zeros_spec in Hs.
Qed.

Lemma odd_of_nat (n : nat) : n mod 2 = 1 -> (Z.of_nat n mod 2 = 1)%Z.
Proof.
  intros H. change 2%Z with (Z.of_nat 2).
  rewrite <- Nat2Z.inj_mod, H. reflexivity.
Qed.

Lemma num_of_nat_odd (n : nat) :
  n mod 2 = 1 -> num_of_nat n = Finite (Z.of_nat n) 0.
Proof.
  intros Hodd. apply odd_of_nat in Hodd.
  unfold num_of_nat, num_of_Z, decimal.
  destruct (Z.eqb_spec (Z.of_nat n) 0) as [Hz | _].
  { rewrite Hz in Hodd. discriminate. }
  destruct (Z.to_nat _); simpl; [reflexivity |].
  destruct (Z.eqb_spec (Z.of_nat n mod 10) 0) as [Hz | _]; [| reflexivity].
  exfalso. Z.div_mod_to_equations. lia.
Qed.

(** Half of an odd length is no position of an array. *)
Lemma half_of_odd_length (l : list value) (n : nat) :
  n mod 2 = 1 ->
  element_at l (num_div (num_of_nat n) (num_of_nat 2)) = VUndefined.
Proof.
  intros Hodd. rewrite (num_of_nat_odd n Hodd).
  change (num_of_nat 2) with (Finite 2 0).
  set (z := Z.of_nat n).
  assert (Hz : (0 < z)%Z) by (subst z; destruct n; [discriminate | lia]).
  assert (Hzodd : (z mod 2 = 1)%Z) by (subst z; now apply odd_of_nat).
  unfold num_div.
  change (2 =? 0)%Z with false. cbv iota.
  change (18 + Z.log2 (Z.abs 2))%Z with 19%Z.
  change (Z.abs 2) with 2%Z. change (Z.sgn 2) with 1%Z.
  rewrite (Z.abs_eq z) by lia. rewrite (Z.sgn_pos z) by lia.
  assert (Hq : ((2 * z * 10 ^ 19 + 2) / (2 * 2) = z * (5 * 10 ^ 18))%Z).
  { change (10 ^ 19)%Z with (10 * 10 ^ 18)%Z.
    generalize (10 ^ 18)%Z. intros t.
    symmetry. apply Z.div_unique with (r := 2%Z); lia. }
  rewrite Hq. clear Hq.
  replace (1 * 1 * (z * (5 * 10 ^ 18)))%Z with (z * (5 * 10 ^ 18))%Z by lia.
  assert (Hne : (z * (5 * 10 ^ 18) <> 0)%Z) by lia.
  destruct (decimal_spec _ (0 - 0 - 19) Hne) as [m1 [e1 [Hd1 [Hle1 Hm1]]]].
  rewrite Hd1. unfold element_at, normalize.
  assert (Hne1 : m1 <> 0%Z) by (intros ->; lia).
  destruct (decimal_spec m1 e1 Hne1) as [m2 [e2 [Hd2 [Hle2 Hm2]]]].
  rewrite Hd2.
  destruct (Z.leb_spec 0 m2); simpl; [| reflexivity].
  destruct (Z.leb_spec 0 e2); simpl; [| reflexivity].
  exfalso.
  assert (Hpow : (10 ^ (e2 - e1) * 10 ^ (e1 - (0 - 0 - 19))
                  = 10 * (10 ^ e2 * 10 ^ 18))%Z).
  { rewrite <- Z.pow_add_r by lia.
    replace (e2 - e1 + (e1 - (0 - 0 - 19)))%Z with (Z.succ (e2 + 18))%Z by lia.
    rewrite Z.pow_succ_r by lia. rewrite Z.pow_add_r by lia. reflexivity. }
  assert (Hval : (z * (5 * 10 ^ 18) = m2 * (10 * (10 ^ e2 * 10 ^ 18)))%Z).
  { rewrite <- Hpow, Hm1, Hm2. ring. }
  assert (H18 : (0 < 10 ^ 18)%Z) by (apply Z.pow_pos_nonneg; lia).
  assert (Hz5 : (z * 5 = m2 * 10 ^ e2 * 10)%Z).
  { apply (Z.mul_cancel_r _ _ (10 ^ 18)%Z); [lia |].
    rewrite <- !Z.mul_assoc. rewrite Hval. ring. }
  Z.div_mod_to_equations. lia.
Qed.

Lemma sort_insert_length {A : Type} (comparefn : A -> A -> completion numeric)
    (x : A) (sorted : list A) :
  forall out, sort_insert comparefn x sorted = Return out ->
              List.length out = S (List.length sorted).
Proof.
  induction sorted as [| y rest IH]; simpl; intros out H.
  - inversion H. reflexivity.
  - destruct (comparefn x y) as [r | e]; simpl in H; [| discriminate].
    destruct (ToNumber r) as [v | e]; simpl in H; [| discriminate].
    destruct (not_after v).
    + inversion H. reflexivity.
    + destruct (sort_insert comparefn x rest) as [rest' | e]; simpl in H;
        [| discriminate].
      inversion H. simpl. now rewrite (IH rest' eq_refl).
Qed.

Lemma Array_sort_length {A : Type} (comparefn : A -> A -> completion numeric)
    (l : list A) :
  forall sorted, Array_sort comparefn l = Return sorted ->
                 List.length sorted = List.length l.
Proof.
  induction l as [| x rest IH]; simpl; intros sorted H.
  - inversion H. reflexivity.
  - destruct (Array_sort comparefn rest) as [sorted' | e]; simpl in H;
      [| discriminate].
    apply sort_insert_length in H. rewrite H. now rewrite (IH sorted' eq_refl).
Qed.

(** Whatever the payload and the selector: when the numeric results are
    odd in number and can be sorted, [median] returns [[undefined]]. *)
Lemma median_odd_count (callback : callback) (this : ObjockeyObject)
    (matched sorted : list numeric) :
  numeric_results callback this = Return matched ->
  Array_sort numeric_sub matched = Return sorted ->
  List.length matched mod 2 = 1 ->
  median callback this = (Return (Result (VArr [VUndefined])), this).
Proof.
  intros Hm Hs Hodd. revert Hm. unfold median, numeric_results.
  match goal with
  | |- context [bind ?c _] => destruct c as [first_pass | e]
  end; cbn [bind]; [| discriminate].
  intros Hm. rewrite Hm. cbn [bind]. rewrite Hs. cbn [bind].
  rewrite (Array_sort_length _ _ _ Hs), Hodd. cbn [Nat.eqb].
  now rewrite half_of_odd_length.
Qed.

(** ** [map] on a sequence, in general *)

Lemma map_loop (t : callback) (l : list value) :
  forall i newData,
    let out :=
      fold_indexed
        (fun val i newData =>
           Array_push newData
             (or_else (t val (position i) (VArr newData)) VUndefined))
        l i newData in
    List.length out = List.length newData + List.length l
    /\ (Forall (fun v => truthy v = true \/ v = VUndefined) newData ->
        Forall (fun v => truthy v = true \/ v = VUndefined) out).
Proof.
  induction l as [| x rest IH]; intros i newData; simpl.
  - split; [lia | auto].
  - destruct (IH (S i)
                (Array_push newData
                   (or_else (t x (position i) (VArr newData)) VUndefined)))
      as [Hlen Hall].
    split.
    + rewrite Hlen. unfold Array_push. rewrite length_app. simpl. lia.
    + intros Hacc. apply Hall. unfold Array_push.
      apply Forall_app. split; [exact Hacc |].
      constructor; [| constructor].
      unfold or_else.
      destruct (truthy (t x (position i) (VArr newData))) eqn:Ht; auto.
Qed.

(** On a sequence payload [map] returns a sequence of the same length, and
    each of its elements is truthy or [undefined]: no falsy result of the
    transform is ever kept. *)
Lemma map_sequence_results (t : callback) (this : ObjockeyObject)
    (S : list value) :
  internal this = VArr S ->
  exists out,
    map t this = (Return (Result (VArr out)), this)
    /\ List.length out = List.length S
    /\ Forall (fun v => truthy v = true \/ v = VUndefined) out.
Proof.
  intros Hs. unfold map, isArray. rewrite Hs. simpl.
  erewrite for_of_pure by (intros; reflexivity). simpl.
  destruct (map_loop t S 0 []) as [Hlen Hall].
  eexists. split; [reflexivity |]. split; [exact Hlen | apply Hall; constructor].
Qed.

(** ** [median] on an even count *)

Lemma decimal_integer (m e : Z) (k : nat) :
  (0 <= e)%Z -> (m * 10 ^ e)%Z = Z.of_nat k -> integer (decimal m e) k.
Proof.
  intros He Hk. destruct (Z.eq_dec m 0) as [-> | Hm].
  - unfold decimal. simpl. split; [lia | simpl in *; lia].
  - destruct (decimal_spec m e Hm) as [m' [e' [Hd [Hle Hm']]]].
    rewrite Hd. split; [lia |].
    rewrite <- Hk, Hm'. rewrite <- Z.mul_assoc, <- Z.pow_add_r by lia.
    f_equal. f_equal. lia.
Qed.

Lemma element_at_integer (l : list value) (x : number) (k : nat) :
  integer x k -> element_at l x = nth k l VUndefined.
Proof.
  destruct x as [| s | m e]; simpl; try contradiction.
  intros [He Hk]. unfold element_at, normalize.
  pose proof (decimal_integer m e k He Hk) as Hi.
  destruct (decimal m e) as [| s | m' e']; simpl in Hi; try contradiction.
  destruct Hi as [He' Hk'].
  assert (H10 : (0 < 10 ^ e')%Z) by (apply Z.pow_pos_nonneg; lia).
  destruct (Z.leb_spec 0 m'); [| exfalso; nia].
  destruct (Z.leb_spec 0 e'); [| lia].
  simpl. rewrite Hk', Nat2Z.id. reflexivity.
Qed.

Lemma num_of_nat_integer (k : nat) : integer (num_of_nat k) k.
Proof.
  unfold num_of_nat, num_of_Z. apply decimal_integer; [lia |]. simpl. lia.
Qed.

Lemma num_add_integer (x y : number) (j k : nat) :
  integer x j -> integer y k -> integer (num_add x y) (j + k).
Proof.
  destruct x as [| s | m1 e1]; simpl; try contradiction.
  destruct y as [| s | m2 e2]; simpl; try contradiction.
  intros [He1 Hj] [He2 Hk].
  apply decimal_integer; [lia |].
  rewrite Z.mul_add_distr_r, <- !Z.mul_assoc, <- !Z.pow_add_r by lia.
  replace (e1 - Z.min e1 e2 + Z.min e1 e2)%Z with e1 by lia.
  replace (e2 - Z.min e1 e2 + Z.min e1 e2)%Z with e2 by lia.
  lia.
Qed.

Lemma strip_zeros_complete (fuel : nat) :
  forall m e m' e',
    m <> 0%Z -> (Z.abs m < 2 ^ Z.of_nat (S fuel))%Z ->
    strip_zeros fuel m e = (m', e') -> (m' mod 10 <> 0)%Z.
Proof.
  induction fuel as [| fuel IH]; intros m e m' e' Hm Hb; simpl.
  - intros H. inversion H. subst. change (2 ^ Z.of_nat 1)%Z with 2%Z in Hb.
    Z.div_mod_to_equations. lia.
  - destruct (Z.eqb_spec (m mod 10) 0) as [Hz | Hnz].
    + apply IH.
      * Z.div_mod_to_equations. lia.
      * rewrite Nat2Z.inj_succ, Z.pow_succ_r in Hb by lia.
        Z.div_mod_to_equations. lia.
    + intros H. inversion H. subst. exact Hnz.
Qed.

Lemma decimal_complete (m e m' e' : Z) :
  m <> 0%Z -> decimal m e = Finite m' e' -> (m' mod 10 <> 0)%Z.
Proof.
  intros Hm. unfold decimal.
  destruct (Z.eqb_spec m 0); [contradiction |].
  destruct (strip_zeros _ m e) as [m1 e1] eqn:Hs.
  intros H. inversion H. subst.
  apply (strip_zeros_complete _ _ _ _ _ Hm) in Hs; [exact Hs |].
  rewrite Nat2Z.inj_succ, Z2Nat.id by apply Z.log2_nonneg.
  apply Z.log2_spec. lia.
Qed.

(** Half of an even length is a position. *)
Lemma half_of_even_length (k : nat) :
  integer (num_div (num_of_nat (2 * k)) (num_of_nat 2)) k.
Proof.
  destruct (Nat.eq_dec k 0) as [-> | Hk];
    [vm_compute; split; [discriminate | reflexivity] |].
  pose proof (num_of_nat_integer (2 * k)) as Hn.
  destruct (num_of_nat (2 * k)) as [| s | m e]; cbn [integer] in Hn;
    try contradiction.
  destruct Hn as [He Hn].
  change (num_of_nat 2) with (Finite 2 0).
  assert (H10e : (0 < 10 ^ e)%Z) by (apply Z.pow_pos_nonneg; lia).
  assert (Hm : (0 < m)%Z) by nia.
  unfold num_div.
  change (2 =? 0)%Z with false. cbv iota.
  change (18 + Z.log2 (Z.abs 2))%Z with 19%Z.
  change (Z.abs 2) with 2%Z. change (Z.sgn 2) with 1%Z.
  rewrite (Z.abs_eq m) by lia. rewrite (Z.sgn_pos m) by lia.
  assert (Hq : ((2 * m * 10 ^ 19 + 2) / (2 * 2) = m * (5 * 10 ^ 18))%Z).
  { change (10 ^ 19)%Z with (10 * 10 ^ 18)%Z.
    generalize (10 ^ 18)%Z. intros t.
    symmetry. apply Z.div_unique with (r := 2%Z); lia. }
  rewrite Hq. clear Hq.
  replace (1 * 1 * (m * (5 * 10 ^ 18)))%Z with (m * (5 * 10 ^ 18))%Z by lia.
  assert (Hne : (m * (5 * 10 ^ 18) <> 0)%Z) by lia.
  destruct (decimal_spec _ (e - 0 - 19) Hne) as [m1 [e1 [Hd1 [Hle1 Hm1]]]].
  pose proof (decimal_complete _ _ _ _ Hne Hd1) as Hc.
  rewrite Hd1. simpl.
  (* m1 * 10^(e1 + 19) = k * 10^19 *)
  assert (Hval : (m1 * 10 ^ (e1 + 19) = Z.of_nat k * 10 ^ 19)%Z).
  { replace (e1 + 19)%Z with ((e1 - (e - 0 - 19)) + e)%Z by lia.
    rewrite Z.pow_add_r by lia. rewrite Z.mul_assoc, <- Hm1.
    change (10 ^ 19)%Z with (10 * 10 ^ 18)%Z.
    replace (m * (5 * 10 ^ 18) * 10 ^ e)%Z
      with (m * 10 ^ e * (5 * 10 ^ 18))%Z by ring.
    rewrite Hn. rewrite Nat2Z.inj_mul. change (Z.of_nat 2) with 2%Z. ring. }
  destruct (Z.lt_ge_cases e1 0) as [Hneg | Hpos].
  - exfalso. apply Hc.
    assert (H19 : (10 ^ 19 = 10 ^ (e1 + 19) * 10 ^ (- e1))%Z).
    { rewrite <- Z.pow_add_r by lia. f_equal. lia. }
    rewrite H19 in Hval.
    assert (Hp : (0 < 10 ^ (e1 + 19))%Z) by (apply Z.pow_pos_nonneg; lia).
    assert (Hm1' : (m1 = Z.of_nat k * 10 ^ (- e1))%Z).
    { apply (Z.mul_cancel_r _ _ (10 ^ (e1 + 19))%Z); [lia |].
      rewrite Hval. ring. }
    replace (- e1)%Z with (Z.succ (- e1 - 1))%Z in Hm1' by lia.
    rewrite Z.pow_succ_r in Hm1' by lia.
    rewrite Hm1'.
    replace (Z.of_nat k * (10 * 10 ^ (- e1 - 1)))%Z
      with (Z.of_nat k * 10 ^ (- e1 - 1) * 10)%Z by ring.
    apply Z.mod_mul. lia.
  - split; [exact Hpos |].
    rewrite Z.pow_add_r in Hval by lia.
    apply (Z.mul_cancel_r _ _ (10 ^ 19)%Z); [discriminate |].
    rewrite <- Hval. ring.
Qed.

(** When the numeric results are even in number, [2 * k], and can be
    sorted, [median] returns the elements at positions [k] and [k + 1] of the
    sorted results, [undefined] standing for a position past the end. *)
Lemma median_even_count (callback : callback) (this : ObjockeyObject)
    (matched sorted : list numeric) (k : nat) :
  numeric_results callback this = Return matched ->
  Array_sort numeric_sub matched = Return sorted ->
  List.length matched = 2 * k ->
  median callback this
  = (Return (Result (VArr [nth k (List.map numeric_value sorted) VUndefined;
                           nth (k + 1) (List.map numeric_value sorted)
                               VUndefined])), this).
Proof.
  intros Hm Hs Heven. revert Hm. unfold median, numeric_results.
  match goal with
  | |- context [bind ?c _] => destruct c as [first_pass | e]
  end; cbn [bind]; [| discriminate].
  intros Hm. rewrite Hm. cbn [bind]. rewrite Hs. cbn [bind].
  rewrite (Array_sort_length _ _ _ Hs), Heven.
  replace (Nat.eqb ((2 * k) mod 2) 0) with true.
  - pose proof (half_of_even_length k) as Hhalf.
    rewrite (element_at_integer _ _ k Hhalf).
    rewrite (element_at_integer _ _ (k + 1)
               (num_add_integer _ _ _ _ Hhalf (num_of_nat_integer 1))).
    reflexivity.
  - symmetry. apply Nat.eqb_eq.
    rewrite Nat.mul_comm. apply Nat.Div0.mod_mul.
Qed.

(** ** [findIndexes2D] on a sequence payload *)

Lemma findIndexes2D_not_a_list (callbacks : argument) (this : ObjockeyObject) :
  array_items callbacks = None ->
  findIndexes2D callbacks this
  = (Throw (ObjockeyError callbacks_message), this).
Proof. intros H. unfold findIndexes2D. rewrite H. reflexivity. Qed.

Lemma findAllIndexes_sequence (f : callback) (this : ObjockeyObject)
    (S : list value) :
  internal this = VArr S ->
  findAllIndexes f this
  = (Return (Result (set_or_null
       (fold_indexed
          (fun val i indexes =>
             if truthy (f val (position i) (VArr S))
             then Array_push indexes (position i) else indexes) S 0 []))),
     this).
Proof.
  intros Hs. unfold findAllIndexes. rewrite Hs. simpl.
  erewrite for_of_pure by (intros; reflexivity). reflexivity.
Qed.

(** On a sequence payload each predicate contributes, in order, what
    [findAllIndexes] returns for it. *)
Lemma findIndexes2D_sequence (fs : list callback) (this : ObjockeyObject)
    (S : list value) :
  internal this = VArr S ->
  findIndexes2D (ArrayOf (List.map Function fs)) this
  = (Return (Result (VArr
       (List.map (fun f =>
                    match fst (findAllIndexes f this) with
                    | Return (Result v) => v
                    | _ => VUndefined
                    end) fs))), this).
Proof.
  intros Hs.
  rewrite (List.map_ext _
             (fun f =>
                set_or_null
                  (fold_indexed
                     (fun val i indexes =>
                        if truthy (f val (position i) (VArr S))
                        then Array_push indexes (position i) else indexes)
                     S 0 [])))
    by (intros f; now rewrite (findAllIndexes_sequence f this S Hs)).
  unfold findIndexes2D, isArray. rewrite Hs. simpl.
  assert (Hloop : forall l i indexes,
    for_of (List.map Function l) i
      (fun item _ indexes =>
         match as_function item with
         | Some callback =>
             set <-
               for_of S 0
                 (fun val i set =>
                    Return (if truthy (callback val (position i) (VArr S))
                            then Array_push set (position i) else set)) [] ;;
             Return (Array_push indexes (set_or_null set))
         | None => Throw (ObjockeyError callbacks_message)
         end) indexes
    = Return (indexes ++
              List.map (fun f =>
                          set_or_null
                            (fold_indexed
                               (fun val i indexes =>
                                  if truthy (f val (position i) (VArr S))
                                  then Array_push indexes (position i)
                                  else indexes) S 0 [])) l)%list).
  { induction l as [| f rest IH]; intros i indexes; simpl.
    - now rewrite app_nil_r.
    - erewrite for_of_pure by (intros; reflexivity). simpl.
      rewrite IH. unfold Array_push. now rewrite <- app_assoc. }
  rewrite Hloop. reflexivity.
Qed.

(** * Further properties of the class *)

(** ** Searching *)

Lemma collect_loop {E X : Type} (q : E -> nat -> bool) (g : E -> nat -> X)
    (l : list E) :
  forall i acc,
    fold_indexed (fun x i acc => if q x i then Array_push acc (g x i) else acc)
                 l i acc
    = (acc ++ List.map (fun xi => g (fst xi) (snd xi))
                (List.filter (fun xi => q (fst xi) (snd xi))
                             (combine l (seq i (List.length l)))))%list.
Proof.
  induction l as [| x rest IH]; intros i acc; simpl.
  - now rewrite app_nil_r.
  - rewrite IH. destruct (q x i); simpl.
    + unfold Array_push. now rewrite <- app_assoc.
    + reflexivity.
Qed.

Lemma first_loop {E X : Type} (q : E -> nat -> bool) (g : E -> nat -> X)
    (l : list E) :
  forall i,
    for_of_return l i (fun x i => if q x i then Some (g x i) else None)
    = hd_error (List.map (fun xi => g (fst xi) (snd xi))
                  (List.filter (fun xi => q (fst xi) (snd xi))
                               (combine l (seq i (List.length l))))).
Proof.
  induction l as [| x rest IH]; intros i; simpl; [reflexivity |].
  destruct (q x i); simpl; [reflexivity | apply IH].
Qed.

Lemma filter_combine_seq {E : Type} (d : E) (q : E -> nat -> bool)
    (l : list E) :
  forall i,
    List.map snd (List.filter (fun xi => q (fst xi) (snd xi))
                              (combine l (seq i (List.length l))))
    = List.filter (fun j => q (nth (j - i) l d) j) (seq i (List.length l)).
Proof.
  induction l as [| x rest IH]; intros i; [reflexivity |].
  cbn [List.length seq combine List.filter fst snd].
  assert (Htail :
    List.filter (fun j => q (nth (j - i) (x :: rest) d) j)
                (seq (S i) (List.length rest))
    = List.filter (fun j => q (nth (j - S i) rest d) j)
                  (seq (S i) (List.length rest))).
  { apply List.filter_ext_in. intros j Hj. apply in_seq in Hj.
    replace (j - i) with (S (j - S i)) by lia. reflexivity. }
  rewrite Htail, <- IH, Nat.sub_diag. cbn [nth].
  destruct (q x i); reflexivity.
Qed.

Lemma sequence_matches (p : callback) (S : list value) :
  List.map (fun vi => position (snd vi))
    (List.filter (fun vi => truthy (p (fst vi) (position (snd vi)) (VArr S)))
                 (combine S (seq 0 (List.length S))))
  = List.map position (matching_positions p S).
Proof.
  unfold matching_positions, holds_at.
  rewrite <- (List.map_map snd position).
  rewrite (filter_combine_seq VUndefined
             (fun v j => truthy (p v (position j) (VArr S))) S 0).
  f_equal. apply List.filter_ext. intros j. now rewrite Nat.sub_0_r.
Qed.

Lemma findAllIndexes_positions (p : callback) (this : ObjockeyObject)
    (S : list value) :
  internal this = VArr S ->
  findAllIndexes p this
  = (Return (Result (set_or_null (List.map position (matching_positions p S)))),
     this).
Proof.
  intros Hs. rewrite (findAllIndexes_sequence p this S Hs).
  rewrite (collect_loop (fun v i => truthy (p v (position i) (VArr S)))
                        (fun _ i => position i)).
  simpl. now rewrite sequence_matches.
Qed.

Lemma ignore_index {E X : Type} (q : E -> bool) (g : E -> X) (l : list E) :
  forall i,
    List.map (fun xi => g (fst xi))
      (List.filter (fun xi => q (fst xi)) (combine l (seq i (List.length l))))
    = List.map g (List.filter q l).
Proof.
  induction l as [| x rest IH]; intros i; simpl; [reflexivity |].
  destruct (q x); simpl; now rewrite IH.
Qed.

Lemma findAllIndexes_keys (p : callback) (this : ObjockeyObject) :
  isArray this = false ->
  typeof (internal this) = "object" ->
  findAllIndexes p this
  = (Return (Result (set_or_null
       (List.map VStr (matching_keys p (internal this))))), this).
Proof.
  intros Ha Ho. unfold findAllIndexes. unfold isArray in Ha.
  rewrite Ha, Ho. simpl.
  erewrite for_in_pure by (intros; reflexivity). simpl.
  rewrite (collect_loop
             (fun k (_ : nat) => holds_for p (internal this) k)
             (fun k _ => VStr k)).
  simpl. now rewrite (ignore_index (holds_for p (internal this)) VStr).
Qed.

Lemma set_or_null_null (l : list value) : set_or_null l = VNull <-> l = [].
Proof. destruct l; simpl; split; congruence. Qed.

Lemma filter_nil_iff {E : Type} (q : E -> bool) (l : list E) :
  List.filter q l = [] <-> forall x, In x l -> q x = false.
Proof.
  induction l as [| x rest IH]; simpl.
  - split; [intros _ y [] | reflexivity].
  - destruct (q x) eqn:Hq.
    + split; [discriminate |]. intros H. rewrite (H x) in Hq; [discriminate | auto].
    + rewrite IH. split.
      * intros H y [<- | Hy]; auto.
      * intros H y Hy. apply H. auto.
Qed.

(** X1.  On a sequence payload [findAllIndexes] returns the positions at
    which the predicate holds, in ascending order, and [null], not an empty
    sequence, exactly when it holds nowhere. *)
Theorem findAllIndexes_sequence_matches (p : callback) (this : ObjockeyObject)
    (S : list value) :
  internal this = VArr S ->
  findAllIndexes p this
  = (Return (Result (set_or_null (List.map position (matching_positions p S)))),
     this)
  /\ (forall i, In i (matching_positions p S)
                <-> i < List.length S /\ holds_at p S i = true)
  /\ (fst (findAllIndexes p this) = Return (Result VNull)
      <-> forall i, i < List.length S -> holds_at p S i = false).
Proof.
  intros Hs. rewrite (findAllIndexes_positions p this S Hs).
  split; [reflexivity |]. split.
  - intros i. unfold matching_positions. rewrite filter_In, in_seq. intuition lia.
  - simpl. split.
    + intros H. inversion H as [Hnull].
      apply set_or_null_null in Hnull. apply map_eq_nil in Hnull.
      unfold matching_positions in Hnull.
      intros i Hi. apply (proj1 (filter_nil_iff _ _) Hnull).
      apply in_seq. lia.
    + intros H.
      assert (Hnil : matching_positions p S = []).
      { apply filter_nil_iff. intros i Hi. apply in_seq in Hi. apply H. lia. }
      now rewrite Hnil.
Qed.

Lemma findAllIndexes_sequence_matches_witness :
  findAllIndexes second_argument (holding one_two_three)
  = (Return (Result (VArr [position 1; position 2])), holding one_two_three).
Proof.
  exact (proj1 (findAllIndexes_sequence_matches second_argument
                  (holding one_two_three)
                  [position 1; position 2; position 3] eq_refl)).
Defined.

(** X2.  On a mapping payload [findAllIndexes] returns the keys for which
    the predicate holds, in the order of the payload, and [null] exactly when
    it holds for no key. *)
Theorem findAllIndexes_mapping_matches (p : callback) (this : ObjockeyObject)
    (ps : properties) :
  internal this = VObj ps ->
  findAllIndexes p this
  = (Return (Result (set_or_null (List.map VStr (matching_keys p (VObj ps))))),
     this)
  /\ (forall k, In k (matching_keys p (VObj ps))
                <-> In k (List.map fst ps) /\ holds_for p (VObj ps) k = true)
  /\ (fst (findAllIndexes p this) = Return (Result VNull)
      <-> forall k, In k (List.map fst ps) -> holds_for p (VObj ps) k = false).
Proof.
  intros Hs.
  rewrite (findAllIndexes_keys p this)
    by (unfold isArray; rewrite Hs; reflexivity).
  rewrite Hs. split; [reflexivity |]. split.
  - intros k. unfold matching_keys. now rewrite filter_In.
  - simpl. unfold matching_keys. rewrite <- filter_nil_iff. split.
    + intros H. inversion H as [Hnull].
      apply set_or_null_null in Hnull. now apply map_eq_nil in Hnull.
    + intros H. unfold keys_in in H. simpl in H. unfold keys_in. simpl.
      now rewrite H.
Qed.

Lemma findAllIndexes_mapping_matches_witness :
  findAllIndexes (fun _ v _ => v)
    (holding (VObj [("a", position 0); ("b", position 2); ("c", position 3)]))
  = (Return (Result (VArr [VStr "b"; VStr "c"])),
     holding (VObj [("a", position 0); ("b", position 2); ("c", position 3)])).
Proof.
  exact (proj1 (findAllIndexes_mapping_matches (fun _ v _ => v)
                  (holding (VObj [("a", position 0); ("b", position 2);
                                  ("c", position 3)]))
                  [("a", position 0); ("b", position 2); ("c", position 3)]
                  eq_refl)).
Defined.

Lemma for_of_return_spec {E R : Type} (d : E) (body : E -> nat -> option R)
    (l : list E) :
  forall i,
    match for_of_return l i body with
    | Some r =>
        exists j, j < List.length l /\ body (nth j l d) (i + j) = Some r
                  /\ forall j', j' < j -> body (nth j' l d) (i + j') = None
    | None => forall j, j < List.length l -> body (nth j l d) (i + j) = None
    end.
Proof.
  induction l as [| x rest IH]; intros i; simpl.
  - intros j Hj. lia.
  - destruct (body x i) as [r |] eqn:Hx.
    + exists 0. rewrite Nat.add_0_r. repeat split; [lia | exact Hx |].
      intros j' Hj'. lia.
    + specialize (IH (S i)).
      destruct (for_of_return rest (S i) body) as [r |].
      * destruct IH as [j [Hj [Hr Hbefore]]].
        exists (S j). repeat split; [lia | |].
        -- now rewrite Nat.add_succ_r.
        -- intros [| j'] Hj'; [now rewrite Nat.add_0_r |].
           rewrite Nat.add_succ_r. apply Hbefore. lia.
      * intros [| j] Hj; [now rewrite Nat.add_0_r |].
        rewrite Nat.add_succ_r. apply IH. lia.
Qed.

(** X3.  On a sequence payload [findIndex] returns the first position at
    which the predicate holds, and [-1] exactly when there is none; the
    object is unchanged. *)
Theorem findIndex_first_match (p : callback) (this : ObjockeyObject)
    (S : list value) :
  internal this = VArr S ->
  snd (findIndex p this) = this
  /\ ((exists i,
         fst (findIndex p this) = Return (Result (position i))
         /\ i < List.length S /\ holds_at p S i = true
         /\ forall j, j < i -> holds_at p S j = false)
      \/ (fst (findIndex p this) = Return (Result minus_one)
          /\ forall j, j < List.length S -> holds_at p S j = false)).
Proof.
  intros Hs. split; [reflexivity |].
  unfold findIndex. rewrite Hs. simpl.
  pose proof (for_of_return_spec VUndefined
                (fun val i =>
                   if truthy (p val (position i) (VArr S))
                   then Some (position i) else None) S 0) as Hspec.
  destruct (for_of_return S 0 _) as [r |].
  - left. destruct Hspec as [i [Hi [Hr Hbefore]]]. simpl in Hr.
    exists i. unfold holds_at.
    destruct (truthy (p (nth i S VUndefined) (position i) (VArr S))) eqn:Ht;
      [| discriminate].
    inversion Hr. repeat split; [exact Hi |].
    intros j Hj. specialize (Hbefore j Hj). simpl in Hbefore.
    destruct (truthy (p (nth j S VUndefined) (position j) (VArr S)));
      [discriminate | reflexivity].
  - right. split; [reflexivity |].
    intros j Hj. specialize (Hspec j Hj). simpl in Hspec. unfold holds_at.
    destruct (truthy (p (nth j S VUndefined) (position j) (VArr S)));
      [discriminate | reflexivity].
Qed.

Lemma findIndex_first_match_witness :
  fst (findIndex second_argument (holding one_two_three))
  = Return (Result (position 1))
  /\ fst (findIndex (fun _ _ _ => VNull) (holding one_two_three))
     = Return (Result minus_one).
Proof.
  split.
  - destruct (proj2 (findIndex_first_match second_argument
                       (holding one_two_three)
                       [position 1; position 2; position 3] eq_refl))
      as [[i [Hr _]] | [Hr _]]; reflexivity.
  - reflexivity.
Defined.

(** X4.  Whatever the payload, [findIndex] returns the first entry of what
    [findAllIndexes] returns for the same predicate, and [-1] where that is
    [null]. *)
Theorem findIndex_heads_findAllIndexes (p : callback) (this : ObjockeyObject) :
  fst (findIndex p this)
  = Return (Result match fst (findAllIndexes p this) with
                   | Return (Result (VArr (first :: _))) => first
                   | _ => minus_one
                   end).
Proof.
  destruct (internal this) as [| | b | n | z | s | d | S | ps] eqn:Hs;
    try (unfold findIndex, findAllIndexes; rewrite Hs; reflexivity).
  - rewrite (findAllIndexes_sequence p this S Hs).
    unfold findIndex. rewrite Hs. simpl.
    rewrite (collect_loop (fun v i => truthy (p v (position i) (VArr S)))
                          (fun _ i => position i)).
    rewrite (first_loop (fun v i => truthy (p v (position i) (VArr S)))
                        (fun _ i => position i)).
    simpl. now destruct (List.map _ _).
  - rewrite (findAllIndexes_keys p this)
      by (unfold isArray; rewrite Hs; reflexivity).
    unfold findIndex. rewrite Hs. simpl.
    rewrite (first_loop (fun k (_ : nat) => holds_for p (VObj ps) k)
                        (fun k _ => VStr k)).
    rewrite (ignore_index (holds_for p (VObj ps)) VStr).
    unfold matching_keys, keys_in. simpl.
    now destruct (List.map VStr _).
Qed.

(** ** Keys stay distinct *)

Lemma replace_property_absent (k : string) (v : value) (ps : properties) :
  get_property k ps = None -> replace_property k v ps = ps.
Proof.
  induction ps as [| [k0 v0] rest IH]; simpl; [reflexivity |].
  destruct (String.eqb k k0); [discriminate |].
  intros H. now rewrite (IH H).
Qed.

Lemma distinct_replace_property (k : string) (v : value) (ps : properties) :
  distinct_keys ps = true -> distinct_keys (replace_property k v ps) = true.
Proof.
  induction ps as [| [k0 v0] rest IH]; simpl; [reflexivity |].
  destruct (get_property k0 rest) eqn:Hk0; [discriminate |].
  intros Hd. destruct (String.eqb_spec k k0) as [-> | Hne]; simpl.
  - now rewrite Hk0.
  - destruct (get_property k rest) eqn:Hk.
    + rewrite get_replace_property by congruence.
      destruct (String.eqb_spec k0 k); [congruence |].
      rewrite Hk0. now apply IH.
    + rewrite (replace_property_absent _ _ _ Hk), Hk0. exact Hd.
Qed.

Lemma distinct_insert_property (k : string) (v : value) (ps : properties) :
  get_property k ps = None ->
  distinct_keys ps = true -> distinct_keys (insert_property k v ps) = true.
Proof.
  induction ps as [| [k0 v0] rest IH]; simpl; [reflexivity |].
  destruct (String.eqb_spec k k0) as [-> | Hne]; [discriminate |].
  intros Hk. destruct (get_property k0 rest) eqn:Hk0; [discriminate |].
  intros Hd. destruct (precedes k k0); simpl.
  - destruct (String.eqb_spec k k0); [contradiction |].
    now rewrite Hk, Hk0.
  - rewrite (get_insert_property _ _ _ _ Hk).
    destruct (String.eqb_spec k0 k); [congruence |].
    rewrite Hk0. now apply IH.
Qed.

Lemma distinct_define_property (k : string) (v : value) (ps : properties) :
  distinct_keys ps = true -> distinct_keys (define_property k v ps) = true.
Proof.
  intros Hd. unfold define_property.
  destruct (get_property k ps) eqn:Hk.
  - now apply distinct_replace_property.
  - now apply distinct_insert_property.
Qed.

Lemma distinct_spread (source : value) (target : properties) :
  distinct_keys target = true -> distinct_keys (spread target source) = true.
Proof.
  unfold spread. generalize (own_enumerable source). intros entries.
  revert target. induction entries as [| [k v] rest IH]; intros target Hd;
    simpl; [exact Hd |].
  apply IH. now apply distinct_define_property.
Qed.

(** A copy [{...o}] of an object answers every lookup as [o] does. *)
Lemma get_property_copy (k : string) (ps : properties) :
  distinct_keys ps = true ->
  get_property k (spread [] (VObj ps)) = get_property k ps.
Proof.
  intros Hd. unfold spread. simpl.
  rewrite get_property_fold, (get_property_rev k ps Hd).
  now destruct (get_property k ps).
Qed.

Lemma member_get (ps : properties) (k : string) (v : value) :
  get_property k ps = Some v -> member (VObj ps) k = v.
Proof. intros H. unfold member. simpl. now rewrite H. Qed.

Lemma get_property_key (k : string) (ps : properties) :
  existsb (String.eqb k) (List.map fst ps)
  = match get_property k ps with
    | Some _ => true
    | None => false
    end.
Proof.
  induction ps as [| [k0 v0] rest IH]; simpl; [reflexivity |].
  destruct (String.eqb k k0); [reflexivity | exact IH].
Qed.

(** ** [filter] and [map] on a mapping *)

Lemma filter_mapping_loop (q : string -> bool) (datum : string -> value)
    (keys : list string) :
  forall i filtered,
    distinct_keys filtered = true ->
    let out :=
      fold_indexed
        (fun key (_ : nat) filtered =>
           if q key
           then define_property key (datum key) (spread [] (VObj filtered))
           else filtered) keys i filtered in
    distinct_keys out = true
    /\ forall k, get_property k out
                 = if existsb (String.eqb k) keys && q k
                   then Some (datum k) else get_property k filtered.
Proof.
  induction keys as [| key rest IH]; intros i filtered Hd; simpl.
  - split; [exact Hd | reflexivity].
  - set (next := if q key
                  then define_property key (datum key)
                         (spread [] (VObj filtered))
                  else filtered).
    assert (Hnext : distinct_keys next = true).
    { subst next. destruct (q key); [| exact Hd].
      apply distinct_define_property. now apply distinct_spread. }
    destruct (IH (S i) next Hnext) as [Hout Hget].
    split; [exact Hout |].
    intros k. rewrite Hget. subst next.
    destruct (String.eqb_spec k key) as [-> | Hne]; simpl.
    + destruct (q key) eqn:Hq.
      * rewrite get_define_property, String.eqb_refl.
        now destruct (existsb _ rest).
      * now rewrite andb_false_r.
    + destruct (existsb (String.eqb k) rest && q k); [reflexivity |].
      destruct (q key); [| reflexivity].
      rewrite get_define_property.
      destruct (String.eqb_spec k key); [contradiction |].
      now apply get_property_copy.
Qed.

(** X5.  On a mapping payload [filter] returns a mapping that holds, under
    its own key, each entry for which the predicate holds and no other
    key; the object is unchanged. *)
Theorem filter_mapping_entries (p : callback) (this : ObjockeyObject)
    (ps : properties) :
  internal this = VObj ps ->
  exists entries,
    filter p this = (Return (Result (VObj entries)), this)
    /\ distinct_keys entries = true
    /\ forall k, get_property k entries
                 = match get_property k ps with
                   | Some v => if holds_for p (VObj ps) k then Some v else None
                   | None => None
                   end.
Proof.
  intros Hs. unfold filter, isArray, isObject. rewrite Hs. simpl.
  erewrite for_in_pure by (intros; reflexivity). simpl.
  destruct (filter_mapping_loop (holds_for p (VObj ps)) (member (VObj ps))
              (keys_in (VObj ps)) 0 [] eq_refl) as [Hd Hget].
  eexists. split; [reflexivity |]. split; [exact Hd |].
  intros k. rewrite Hget. unfold keys_in. simpl.
  rewrite get_property_key.
  destruct (get_property k ps) as [v |] eqn:Hk; simpl; [| reflexivity].
  now rewrite (member_get _ _ _ Hk).
Qed.

Lemma filter_mapping_entries_witness :
  exists entries,
    filter (fun _ v _ => v)
      (holding (VObj [("a", position 0); ("b", position 2)]))
    = (Return (Result (VObj entries)),
       holding (VObj [("a", position 0); ("b", position 2)]))
    /\ get_property "a" entries = None
    /\ get_property "b" entries = Some (position 2).
Proof.
  destruct (filter_mapping_entries (fun _ v _ => v)
              (holding (VObj [("a", position 0); ("b", position 2)]))
              [("a", position 0); ("b", position 2)] eq_refl)
    as [entries [Hf [_ Hget]]].
  exists entries. split; [exact Hf |].
  split; [exact (Hget "a") | exact (Hget "b")].
Defined.

Lemma map_mapping_loop (data h : string -> value) (keys : list string) :
  (forall key, In key keys -> data key = VObj [(key, h key)]) ->
  forall i newData,
    distinct_keys newData = true ->
    let out :=
      fold_indexed
        (fun key (_ : nat) newData =>
           spread (spread [] (VObj newData)) (data key)) keys i newData in
    distinct_keys out = true
    /\ forall k, get_property k out
                 = if existsb (String.eqb k) keys
                   then Some (h k) else get_property k newData.
Proof.
  induction keys as [| key rest IH]; intros Hdata i newData Hd; simpl.
  - split; [exact Hd | reflexivity].
  - rewrite (Hdata key) by (left; reflexivity).
    set (next := spread (spread [] (VObj newData)) (VObj [(key, h key)])).
    assert (Hnext : distinct_keys next = true)
      by (subst next; now repeat apply distinct_spread).
    destruct (IH (fun k Hk => Hdata k (or_intror Hk)) (S i) next Hnext)
      as [Hout Hget].
    split; [exact Hout |].
    intros k. rewrite Hget. subst next.
    destruct (existsb (String.eqb k) rest) eqn:Hrest.
    + now rewrite orb_true_r.
    + rewrite orb_false_r. unfold spread at 1. simpl.
      rewrite get_define_property.
      destruct (String.eqb_spec k key) as [-> | Hne]; [reflexivity |].
      now apply get_property_copy.
Qed.

(** X6.  On a mapping payload, [map] with a transform that yields nothing
    (or any falsy value) returns a mapping with the keys of the payload, each
    bound to [null]; with a transform that returns [{[key]: g(key, value)}]
    it returns the mapping that binds each key to [g] of its entry. *)
Theorem map_mapping_entries (t : callback) (this : ObjockeyObject)
    (ps : properties) :
  internal this = VObj ps ->
  exists entries,
    map t this = (Return (Result (VObj entries)), this)
    /\ ((forall k v, truthy (t (VStr k) v (VObj ps)) = false) ->
        forall k, get_property k entries
                  = match get_property k ps with
                    | Some _ => Some VNull
                    | None => None
                    end)
    /\ (forall g : string -> value -> value,
          (forall k v, t (VStr k) v (VObj ps) = VObj [(k, g k v)]) ->
          forall k, get_property k entries
                    = option_map (g k) (get_property k ps)).
Proof.
  intros Hs. unfold map, isArray. rewrite Hs. simpl.
  erewrite for_in_pure by (intros; reflexivity). simpl.
  eexists. split; [reflexivity |]. split.
  - intros Hfalsy k.
    destruct (map_mapping_loop
                (fun key => or_else (t (VStr key) (member (VObj ps) key) (VObj ps))
                                    (VObj [(key, VNull)]))
                (fun _ => VNull) (keys_in (VObj ps))) with (i := 0) (newData := @nil (string * value))
      as [_ Hget]; [| reflexivity |].
    + intros key _. unfold or_else. now rewrite Hfalsy.
    + rewrite Hget. unfold keys_in. simpl. rewrite get_property_key.
      now destruct (get_property k ps).
  - intros g Hg k.
    destruct (map_mapping_loop
                (fun key => or_else (t (VStr key) (member (VObj ps) key) (VObj ps))
                                    (VObj [(key, VNull)]))
                (fun key => g key (member (VObj ps) key)) (keys_in (VObj ps)))
      with (i := 0) (newData := @nil (string * value))
      as [_ Hget]; [| reflexivity |].
    + intros key _. unfold or_else. now rewrite Hg.
    + rewrite Hget. unfold keys_in. simpl. rewrite get_property_key.
      destruct (get_property k ps) as [v |] eqn:Hk; simpl; [| reflexivity].
      now rewrite (member_get _ _ _ Hk).
Qed.

Lemma map_mapping_entries_witness :
  exists entries,
    map (fun _ _ _ => VUndefined)
      (holding (VObj [("a", position 1); ("b", position 2)]))
    = (Return (Result (VObj entries)),
       holding (VObj [("a", position 1); ("b", position 2)]))
    /\ get_property "a" entries = Some VNull
    /\ get_property "c" entries = None.
Proof.
  destruct (map_mapping_entries (fun _ _ _ => VUndefined)
              (holding (VObj [("a", position 1); ("b", position 2)]))
              [("a", position 1); ("b", position 2)] eq_refl)
    as [entries [Hm [Hnull _]]].
  exists entries. split; [exact Hm |].
  split; [exact (Hnull (fun _ _ => eq_refl) "a")
         | exact (Hnull (fun _ _ => eq_refl) "c")].
Defined.

(** ** [filter] followed by [set] *)

Lemma kept_value_only (p : callback) (q : value -> bool) (S : list value) :
  (forall v i b, truthy (p v i b) = q v) -> kept p S = List.filter q S.
Proof.
  intros Hq. unfold kept.
  rewrite (List.filter_ext _ (fun vi => q (fst vi)))
    by (intros vi; apply Hq).
  rewrite <- (List.map_id (List.filter q S)).
  apply (ignore_index q (fun v => v)).
Qed.

Lemma filter_twice {E : Type} (q : E -> bool) (l : list E) :
  List.filter q (List.filter q l) = List.filter q l.
Proof.
  induction l as [| x rest IH]; simpl; [reflexivity |].
  destruct (q x) eqn:Hq; simpl; [rewrite Hq |]; now rewrite IH.
Qed.

(** X7.  For a predicate that looks at the element only, the result of
    [filter] can be stored with [set], as the doc comment of [filter] says,
    and filtering the stored payload again gives the same sequence. *)
Theorem filter_set_filter (p : callback) (q : value -> bool)
    (this : ObjockeyObject) (S : list value) :
  internal this = VArr S ->
  (forall v i b, truthy (p v i b) = q v) ->
  let R := VArr (List.filter q S) in
  filter p this = (Return (Result R), this)
  /\ set R this = (Return This, set_internal R this)
  /\ filter p (set_internal R this) = (Return (Result R), set_internal R this).
Proof.
  intros Hs Hq R. split; [| split].
  - rewrite (filter_sequence p this S Hs). subst R.
    now rewrite (kept_value_only p q S Hq).
  - reflexivity.
  - rewrite (filter_sequence p (set_internal R this) (List.filter q S) eq_refl).
    subst R. now rewrite (kept_value_only p q _ Hq), filter_twice.
Qed.

Lemma filter_set_filter_witness :
  filter first_argument
    (holding (VArr [position 0; position 4; VNull; VStr "a"]))
  = (Return (Result (VArr [position 4; VStr "a"])),
     holding (VArr [position 0; position 4; VNull; VStr "a"])).
Proof.
  exact (proj1 (filter_set_filter first_argument truthy
                  (holding (VArr [position 0; position 4; VNull; VStr "a"]))
                  [position 0; position 4; VNull; VStr "a"] eq_refl
                  (fun _ _ _ => eq_refl))).
Defined.

(** ** [condenseMap] and [map] on a sequence *)

(** X8.  On a sequence payload [condenseMap] never throws: it returns the
    results of the transform that are not [undefined], in order, so the result
    holds no [undefined] and is no longer than the payload. *)
Theorem condenseMap_sequence (t : callback) (this : ObjockeyObject)
    (S : list value) :
  internal this = VArr S ->
  let results :=
    List.map (fun vi => t (fst vi) (position (snd vi)) (VArr S))
             (combine S (seq 0 (List.length S))) in
  let out := List.filter (fun v => negb (is_undefined v)) results in
  condenseMap t this = (Return (Result (VArr out)), this)
  /\ List.length out <= List.length S
  /\ ~ In VUndefined out.
Proof.
  intros Hs results out. split; [| split].
  - unfold condenseMap, isArray. rewrite Hs. simpl.
    erewrite for_of_pure by (intros; reflexivity). simpl.
    rewrite (collect_loop
               (fun v i => negb (is_undefined (t v (position i) (VArr S))))
               (fun v i => t v (position i) (VArr S))).
    simpl. subst out results. now rewrite filter_map_swap.
  - subst out. etransitivity; [apply filter_length_le |].
    subst results. rewrite length_map, length_combine, length_seq. lia.
  - subst out. intros Hin. apply filter_In in Hin. destruct Hin as [_ H].
    discriminate.
Qed.

Lemma condenseMap_sequence_witness :
  condenseMap (fun v i _ => if truthy i then v else VUndefined)
    (holding one_two_three)
  = (Return (Result (VArr [position 2; position 3])), holding one_two_three).
Proof.
  exact (proj1 (condenseMap_sequence
                  (fun v i _ => if truthy i then v else VUndefined)
                  (holding one_two_three)
                  [position 1; position 2; position 3] eq_refl)).
Defined.

Lemma map_sequence_loop (t : callback) (l : list value) :
  forall i newData,
    let out :=
      fold_indexed
        (fun val i newData =>
           Array_push newData
             (or_else (t val (position i) (VArr newData)) VUndefined))
        l i newData in
    firstn (List.length newData) out = newData
    /\ forall j,
         j < List.length l ->
         nth (List.length newData + j) out VUndefined
         = or_else (t (nth j l VUndefined) (position (i + j))
                      (VArr (firstn (List.length newData + j) out)))
                   VUndefined.
Proof.
  induction l as [| x rest IH]; intros i newData; simpl.
  - split; [apply firstn_all | intros j Hj; lia].
  - set (e := or_else (t x (position i) (VArr newData)) VUndefined).
    destruct (IH (S i) (Array_push newData e)) as [Hfirst Hnth].
    set (out := fold_indexed _ rest (S i) (Array_push newData e)) in *.
    unfold Array_push in Hfirst, Hnth. rewrite length_app in Hfirst, Hnth.
    simpl in Hfirst, Hnth.
    assert (Hprefix : firstn (List.length newData) out = newData).
    { rewrite <- (firstn_all newData) at 2.
      rewrite <- (app_nil_r (firstn _ newData)).
      replace (@nil value)
        with (firstn (List.length newData - List.length newData) [e])
        by (now rewrite Nat.sub_diag).
      rewrite <- firstn_app, <- Hfirst, firstn_firstn.
      f_equal. lia. }
    split; [exact Hprefix |].
    intros [| j] Hj.
    + rewrite !Nat.add_0_r, Hprefix.
      assert (Hn : nth (List.length newData) out VUndefined
                   = nth (List.length newData)
                         (firstn (List.length newData + 1) out) VUndefined).
      { rewrite nth_firstn.
        destruct (Nat.ltb_spec (List.length newData) (List.length newData + 1));
          [reflexivity | lia]. }
      rewrite Hn, Hfirst. apply nth_middle.
    + replace (List.length newData + S j) with (List.length newData + 1 + j)
        by lia.
      replace (i + S j) with (S i + j) by lia.
      apply Hnth. lia.
Qed.



(** ** [push] in pieces *)

(** X10.  On a sequence payload, pushing two sequences one after the other
    is pushing their concatenation, and pushing the empty sequence changes
    nothing. *)
Theorem push_sequences_compose (this : ObjockeyObject) (l b c : list value) :
  internal this = VArr l ->
  push (VArr c) (snd (push (VArr b) this)) = push (VArr (b ++ c)%list) this
  /\ push (VArr (b ++ c)%list) this
     = (Return This, set_internal (VArr (l ++ b ++ c)%list) this)
  /\ push (VArr []) this = (Return This, set_internal (VArr l) this).
Proof.
  intros Hs. unfold push, isArray. rewrite Hs. simpl.
  repeat split.
  - unfold set_internal. simpl. now rewrite app_assoc.
  - now rewrite app_nil_r.
Qed.

Lemma push_sequences_compose_witness :
  push (VArr [position 3]) (snd (push (VArr [position 2]) (holding (VArr [position 1]))))
  = (Return This, holding one_two_three).
Proof.
  rewrite (proj1 (push_sequences_compose (holding (VArr [position 1]))
                    [position 1] [position 2] [position 3] eq_refl)).
  reflexivity.
Defined.

(** ** [replace] *)

Lemma write_element_length (i : nat) (v : value) (l : list value) :
  List.length (write_element i v l) = Nat.max (List.length l) (S i).
Proof.
  unfold write_element.
  rewrite !length_app, length_firstn, repeat_length.
  cbn [List.length]. rewrite length_skipn. lia.
Qed.

Lemma write_element_nth (i j : nat) (v : value) (l : list value) :
  nth j (write_element i v l) VUndefined
  = if Nat.eqb j i then v else nth j l VUndefined.
Proof.
  unfold write_element.
  destruct (Nat.eqb_spec j i) as [-> | Hne].
  - rewrite app_assoc.
    set (front := (firstn i l ++ repeat VUndefined (i - List.length l))%list).
    assert (Hlen : List.length front = i)
      by (subst front; rewrite length_app, length_firstn, repeat_length; lia).
    rewrite <- Hlen at 1. apply nth_middle.
  - destruct (Nat.lt_ge_cases j i) as [Hlt | Hge].
    + destruct (Nat.lt_ge_cases j (List.length l)) as [Hin | Hout].
      * rewrite app_nth1 by (rewrite length_firstn; lia).
        rewrite nth_firstn.
        destruct (Nat.ltb_spec j i); [reflexivity | lia].
      * rewrite app_nth2 by (rewrite length_firstn; lia).
        rewrite length_firstn.
        rewrite app_nth1 by (rewrite repeat_length; lia).
        rewrite nth_repeat. symmetry. now apply nth_overflow.
    + rewrite app_assoc.
      rewrite app_nth2
        by (rewrite length_app, length_firstn, repeat_length; lia).
      rewrite length_app, length_firstn, repeat_length.
      replace (j - (Nat.min i (List.length l) + (i - List.length l)))
        with (S (j - S i)) by lia.
      cbn [nth]. rewrite nth_skipn. f_equal. lia.
Qed.

(** X11.  On a sequence payload, [replace] at an array index writes the
    callback's result for the element there and touches no other element; a
    write past the end lengthens the sequence, the gap reading as
    [undefined]. *)
Theorem replace_element (k : string) (i : N) (f : value -> value)
    (this : ObjockeyObject) (l : list value) :
  internal this = VArr l ->
  array_index k = Some i ->
  exists l',
    replace (VStr k) f this
    = Some (Return (Result VUndefined), set_internal (VArr l') this)
    /\ List.length l' = Nat.max (List.length l) (S (N.to_nat i))
    /\ nth (N.to_nat i) l' VUndefined = f (nth (N.to_nat i) l VUndefined)
    /\ forall j, j <> N.to_nat i -> nth j l' VUndefined = nth j l VUndefined.
Proof.
  intros Hs Hk. unfold replace. rewrite Hs. simpl. rewrite Hk.
  eexists. split; [reflexivity |]. split; [apply write_element_length |].
  split.
  - now rewrite write_element_nth, Nat.eqb_refl.
  - intros j Hj. rewrite write_element_nth.
    destruct (Nat.eqb_spec j (N.to_nat i)); [contradiction | reflexivity].
Qed.

Lemma replace_element_witness :
  exists l',
    replace (VStr "4") (fun _ => VNull) (holding one_two_three)
    = Some (Return (Result VUndefined), holding (VArr l'))
    /\ List.length l' = 5
    /\ nth 3 l' VNull = VUndefined.
Proof.
  destruct (replace_element "4" 4 (fun _ => VNull) (holding one_two_three)
              [position 1; position 2; position 3] eq_refl eq_refl)
    as [l' [Hr [Hl [_ Hother]]]].
  exists l'. split; [exact Hr |]. split; [exact Hl |].
  assert (H3 : nth 3 l' VUndefined = VUndefined)
    by (rewrite (Hother 3) by discriminate; reflexivity).
  assert (Hlt : 3 < List.length l') by (rewrite Hl; repeat constructor).
  rewrite (nth_indep l' VNull VUndefined Hlt). exact H3.
Defined.

(** X12.  On a mapping payload, [replace] at a key the payload has binds
    that key to the callback's result for its value; the key keeps its place
    and every other key its value. *)
Theorem replace_entry (k : string) (f : value -> value) (v : value)
    (this : ObjockeyObject) (ps : properties) :
  internal this = VObj ps ->
  get_property k ps = Some v ->
  exists ps',
    replace (VStr k) f this
    = Some (Return (Result VUndefined), set_internal (VObj ps') this)
    /\ List.map fst ps' = List.map fst ps
    /\ forall k', get_property k' ps'
                  = if String.eqb k' k then Some (f v) else get_property k' ps.
Proof.
  intros Hs Hk. unfold replace. rewrite Hs. simpl. rewrite Hk.
  eexists. split; [reflexivity |]. split.
  - unfold define_property. rewrite Hk. clear Hk Hs.
    induction ps as [| [k0 v0] rest IH]; simpl; [reflexivity |].
    destruct (String.eqb_spec k k0) as [-> | Hne]; simpl;
      [reflexivity | now rewrite IH].
  - intros k'. apply get_define_property.
Qed.

Lemma replace_entry_witness :
  exists ps',
    replace (VStr "a") (fun v => VArr [v])
      (holding (VObj [("a", position 1); ("b", position 2)]))
    = Some (Return (Result VUndefined), holding (VObj ps'))
    /\ get_property "a" ps' = Some (VArr [position 1])
    /\ get_property "b" ps' = Some (position 2).
Proof.
  destruct (replace_entry "a" (fun v => VArr [v]) (position 1)
              (holding (VObj [("a", position 1); ("b", position 2)]))
              [("a", position 1); ("b", position 2)] eq_refl eq_refl)
    as [ps' [Hr [_ Hget]]].
  exists ps'. split; [exact Hr |].
  split; [exact (Hget "a") | exact (Hget "b")].
Defined.

(** ** Printing *)

(** X13.  [print] goes through the printer that [setPrint] installed, or
    through [console.log] after a [setPrint] without argument.  With a falsy
    index, position 0 included, it prints the whole payload; with the key of
    an element of a sequence it prints that element. *)
Theorem print_after_setPrint (f : option printer) (index : value)
    (this : ObjockeyObject) :
  let that := snd (setPrint f this) in
  let printer := match f with
                 | Some g => g
                 | None => console_log
                 end in
  internal that = internal this
  /\ (truthy index = false ->
      print index that = Some ((Return This, that), [(printer, internal this)]))
  /\ (forall l k i,
        internal this = VArr l -> array_index k = Some i ->
        print (VStr k) that
        = Some ((Return This, that),
                [(printer, nth (N.to_nat i) l VUndefined)])).
Proof.
  intros that printer. split; [reflexivity |]. split.
  - intros Hfalsy. unfold print. now rewrite Hfalsy.
  - intros l k i Hs Hk. unfold print.
    assert (Ht : truthy (VStr k) = true).
    { destruct k; [discriminate | reflexivity]. }
    rewrite Ht. subst that. simpl. rewrite Hs. simpl. now rewrite Hk.
Qed.

Lemma print_after_setPrint_witness :
  print (position 0) (holding one_two_three)
  = Some ((Return This, holding one_two_three), [(console_log, one_two_three)])
  /\ print (VStr "0") (holding one_two_three)
     = Some ((Return This, holding one_two_three), [(console_log, position 1)]).
Proof.
  split.
  - exact (proj1 (proj2 (print_after_setPrint None (position 0)
                           (holding one_two_three))) eq_refl).
  - exact (proj2 (proj2 (print_after_setPrint None (position 0)
                           (holding one_two_three)))
                 [position 1; position 2; position 3] "0" 0%N eq_refl eq_refl).
Defined.

(** ** The two predicates *)

(** X14.  [isObject] holds exactly of a payload that is a sequence or a
    mapping, so it holds wherever [isArray] does; an unset payload and a
    [null] payload are neither. *)
Theorem isObject_classifies (this : ObjockeyObject) :
  isObject this = sequence_or_mapping (internal this)
  /\ (isArray this = true -> isObject this = true)
  /\ (internal this = VUndefined \/ internal this = VNull ->
      isArray this = false /\ isObject this = false).
Proof.
  unfold isObject, isArray.
  destruct (internal this); simpl;
    (split; [reflexivity |]);
    (split; [intros Ha; try discriminate; reflexivity |]);
    intros [Hp | Hp]; try discriminate; split; reflexivity.
Qed.

Lemma isObject_classifies_witness :
  isObject (holding one_two_three) = true
  /\ isObject (holding VNull) = false.
Proof.
  split.
  - exact (proj1 (proj2 (isObject_classifies (holding one_two_three)))
                 eq_refl).
  - exact (proj2 (proj2 (proj2 (isObject_classifies (holding VNull)))
                        (or_intror eq_refl))).
Defined.

(** ** [forEach] *)

Lemma forEach_loop {E S : Type} (f : E -> nat -> S -> S) (l : list E) :
  forall i s,
    fold_indexed f l i s
    = fold_left (fun s vi => f (fst vi) (snd vi) s)
                (combine l (seq i (List.length l))) s.
Proof.
  induction l as [| x rest IH]; intros i s; simpl; [reflexivity | apply IH].
Qed.

Lemma forEach_keys {S : Type} (f : string -> value -> S -> S)
    (ps : properties) :
  forall (front : properties) (s : S),
    distinct_keys (front ++ ps)%list = true ->
    fold_left (fun s k => f k (member (VObj (front ++ ps)%list) k) s)
              (List.map fst ps) s
    = fold_left (fun s kv => f (fst kv) (snd kv) s) ps s.
Proof.
  induction ps as [| [k v] rest IH]; intros front s Hd; simpl;
    [reflexivity |].
  assert (Hm : member (VObj (front ++ (k, v) :: rest)%list) k = v).
  { apply member_get. rewrite get_property_app.
    destruct (get_property k front) as [w |] eqn:Hf.
    - exfalso. clear IH. induction front as [| [k0 v0] front' IHf];
        simpl in *; [discriminate |].
      destruct (get_property k0 (front' ++ (k, v) :: rest)%list) eqn:Hk0;
        [discriminate |].
      destruct (String.eqb_spec k k0) as [-> | Hne].
      + rewrite get_property_app in Hk0.
        destruct (get_property k0 front'); [discriminate |].
        simpl in Hk0. now rewrite String.eqb_refl in Hk0.
      + now apply IHf.
    - simpl. now rewrite String.eqb_refl. }
  rewrite Hm.
  specialize (IH (front ++ [(k, v)])%list (f k v s)).
  rewrite <- app_assoc in IH. simpl in IH. now apply IH.
Qed.

(** X15.  [forEach] leaves the object unchanged.  On a sequence payload it
    calls the action once per element, in order, with the element, its
    position and the payload; on a mapping payload once per entry, in order,
    with the key first and the value second; on any other payload not at
    all. *)
Theorem forEach_calls {S : Type} (action : value -> value -> value -> S -> S)
    (s : S) (this : ObjockeyObject) :
  snd (forEach action s this) = this
  /\ (forall l, internal this = VArr l ->
        fst (forEach action s this)
        = Return (fold_left
                    (fun s vi => action (fst vi) (position (snd vi)) (VArr l) s)
                    (combine l (seq 0 (List.length l))) s))
  /\ (forall ps, internal this = VObj ps -> distinct_keys ps = true ->
        fst (forEach action s this)
        = Return (fold_left
                    (fun s kv => action (VStr (fst kv)) (snd kv) (VObj ps) s)
                    ps s))
  /\ (sequence_or_mapping (internal this) = false ->
      fst (forEach action s this) = Return s).
Proof.
  split; [reflexivity |]. split; [| split].
  - intros l Hs. unfold forEach, isArray. rewrite Hs. simpl.
    erewrite for_of_pure by (intros; reflexivity).
    now rewrite (forEach_loop (fun v i s => action v (position i) (VArr l) s)).
  - intros ps Hs Hd. unfold forEach, isArray, isObject. rewrite Hs. simpl.
    erewrite for_in_pure by (intros; reflexivity).
    rewrite (forEach_loop
               (fun k (_ : nat) s =>
                  action (VStr k) (member (VObj ps) k) (VObj ps) s)).
    unfold keys_in. simpl.
    assert (Hfold : forall (keys : list string) i s0,
              fold_left
                (fun s1 (vi : string * nat) =>
                   action (VStr (fst vi)) (member (VObj ps) (fst vi)) (VObj ps) s1)
                (combine keys (seq i (List.length keys))) s0
              = fold_left
                  (fun s1 k => action (VStr k) (member (VObj ps) k) (VObj ps) s1)
                  keys s0).
    { induction keys as [| k rest IH]; intros i s0; simpl;
        [reflexivity | apply IH]. }
    rewrite Hfold.
    exact (f_equal Return
             (forEach_keys (fun k v s => action (VStr k) v (VObj ps) s) ps [] s Hd)).
  - intros Hn. unfold forEach, isArray, isObject.
    destruct (internal this); simpl in *; try discriminate; reflexivity.
Qed.

Lemma forEach_calls_witness :
  fst (forEach (fun k v _ log => (log ++ [(k, v)])%list) []
         (holding (VObj [("a", position 1); ("b", position 2)])))
  = Return [(VStr "a", position 1); (VStr "b", position 2)].
Proof.
  exact (proj1 (proj2 (proj2 (forEach_calls
                                (fun k v _ log => (log ++ [(k, v)])%list) []
                                (holding (VObj [("a", position 1);
                                                ("b", position 2)])))))
               [("a", position 1); ("b", position 2)] eq_refl eq_refl).
Defined.

(** ** Digits *)

Lemma uint_digits (d : Decimal.uint) :
  Forall (fun c => is_digit c = true)
         (list_ascii_of_string (NilEmpty.string_of_uint d)).
Proof. induction d; simpl; constructor; auto. Qed.

Lemma uint_value_acc (d : Decimal.uint) :
  forall (acc : positive) (z : Z),
    z = Z.pos acc ->
    fold_left (fun acc c => 10 * acc + Z.of_nat (nat_of_ascii c - 48))%Z
              (list_ascii_of_string (NilEmpty.string_of_uint d)) z
    = Z.pos (Pos.of_uint_acc d acc).
Proof.
  induction d; intros acc z Hz;
    cbn [NilEmpty.string_of_uint list_ascii_of_string fold_left Pos.of_uint_acc];
    [exact Hz | ..];
    apply IHd; subst z;
    match goal with
    | |- context [Z.of_nat ?n] =>
        let k := eval vm_compute in (Z.of_nat n) in
        change (Z.of_nat n) with k
    end; lia.
Qed.

Lemma uint_value (d : Decimal.uint) :
  digits_value (list_ascii_of_string (NilEmpty.string_of_uint d))
  = Z.of_N (N.of_uint d).
Proof.
  unfold digits_value, N.of_uint.
  induction d;
    cbn [NilEmpty.string_of_uint list_ascii_of_string fold_left Pos.of_uint];
    [reflexivity | exact IHd | ..];
    cbn [Z.of_N]; apply uint_value_acc; reflexivity.
Qed.

Lemma digits_of_value (a : Z) :
  (0 <= a)%Z -> digits_value (list_ascii_of_string (digits_of a)) = a.
Proof.
  intros Ha. unfold digits_of.
  rewrite uint_value, DecimalN.Unsigned.of_to. now apply Z2N.id.
Qed.

Lemma digits_of_digits (a : Z) :
  Forall (fun c => is_digit c = true) (list_ascii_of_string (digits_of a)).
Proof. apply uint_digits. Qed.

(** The numeral of a positive integer has no leading zero. *)
Lemma digits_of_head (a : Z) :
  (0 < a)%Z ->
  exists c cs,
    list_ascii_of_string (digits_of a) = c :: cs
    /\ is_digit c = true /\ Ascii.eqb c "0"%char = false.
Proof.
  intros Ha. unfold digits_of.
  set (n := Z.to_N a).
  assert (Hn : n <> 0%N) by (subst n; lia).
  pose proof (DecimalN.Unsigned.to_of (N.to_uint n)) as Hnorm.
  rewrite DecimalN.Unsigned.of_to in Hnorm.
  pose proof (uint_digits (N.to_uint n)) as Hdig.
  destruct (N.to_uint n) as [| d | d | d | d | d | d | d | d | d | d] eqn:Hd.
  - exfalso. apply Hn. apply DecimalN.Unsigned.to_uint_inj.
 rewrite Hd. symmetry in Hnorm. now apply DecimalFacts.unorm_nonnil in Hnorm.
  - exfalso. rewrite DecimalFacts.unorm_D0 in Hnorm.
    destruct d as [| | | | | | | | | |] eqn:Hd';
      try (pose proof (DecimalFacts.nb_digits_unorm d) as Hle; subst d;
           rewrite <- Hnorm in Hle; simpl in Hle;
           specialize (Hle ltac:(discriminate)); lia).
    apply Hn. apply DecimalN.Unsigned.to_uint_inj. now rewrite Hd.
  - simpl. eexists _, _. repeat split.
  - simpl. eexists _, _. repeat split.
  - simpl. eexists _, _. repeat split.
  - simpl. eexists _, _. repeat split.
  - simpl. eexists _, _. repeat split.
  - simpl. eexists _, _. repeat split.
  - simpl. eexists _, _. repeat split.
  - simpl. eexists _, _. repeat split.
  - simpl. eexists _, _. repeat split.
Qed.

(** ** Texts as lists of characters *)

Lemma list_ascii_of_string_app (s t : string) :
  list_ascii_of_string (s ++ t)
  = (list_ascii_of_string s ++ list_ascii_of_string t)%list.
Proof. induction s as [| c s IH]; simpl; [reflexivity | now rewrite IH]. Qed.

Lemma list_ascii_of_substring (s : string) :
  forall a b,
    list_ascii_of_string (substring a b s)
    = firstn b (skipn a (list_ascii_of_string s)).
Proof.
  induction s as [| c s IH]; intros a b.
  - destruct a, b; reflexivity.
  - destruct a as [| a]; simpl.
    + destruct b as [| b]; simpl; [reflexivity |]. f_equal. apply (IH 0 b).
    + apply IH.
Qed.

Lemma list_ascii_of_zeros (k : nat) :
  list_ascii_of_string (zeros k) = repeat "0"%char k.
Proof. induction k as [| k IH]; simpl; [reflexivity | now rewrite IH]. Qed.

Lemma string_length_list (s : string) :
  String.length s = List.length (list_ascii_of_string s).
Proof. induction s as [| c s IH]; simpl; [reflexivity | now rewrite IH]. Qed.

Lemma digits_value_app (a b : list ascii) :
  digits_value (a ++ b)
  = fold_left (fun acc c => 10 * acc + Z.of_nat (nat_of_ascii c - 48))%Z b
              (digits_value a).
Proof. unfold digits_value. apply fold_left_app. Qed.

Lemma digits_value_zeros (k : nat) (z : Z) :
  fold_left (fun acc c => 10 * acc + Z.of_nat (nat_of_ascii c - 48))%Z
            (repeat "0"%char k) z
  = (z * 10 ^ Z.of_nat k)%Z.
Proof.
  revert z. induction k as [| k IH]; intros z.
  - simpl. lia.
  - cbn [repeat fold_left]. rewrite IH.
    change (Z.of_nat (nat_of_ascii "0" - 48)) with 0%Z.
    rewrite Nat2Z.inj_succ, Z.pow_succ_r by lia. lia.
Qed.

Lemma digits_value_leading_zeros (k : nat) (a : list ascii) :
  digits_value (repeat "0"%char k ++ a) = digits_value a.
Proof.
  rewrite digits_value_app.
  assert (Hz : digits_value (repeat "0"%char k) = 0%Z).
  { unfold digits_value. rewrite digits_value_zeros. reflexivity. }
  now rewrite Hz.
Qed.

(** A run of digits is read whole when what follows is no digit. *)
Lemma take_digits_all (ds rest : list ascii) :
  Forall (fun c => is_digit c = true) ds ->
  match rest with
  | [] => True
  | c :: _ => is_digit c = false
  end ->
  take_digits (ds ++ rest) = (ds, rest).
Proof.
  intros Hd Hr. induction Hd as [| c ds Hc Hds IH]; cbn [app take_digits].
  - destruct rest as [| c rest']; [reflexivity |].
    cbn [take_digits]. now rewrite Hr.
  - now rewrite Hc, IH.
Qed.

(** ** Canonical numbers *)

Lemma canonical_decimal (m e : Z) :
  canonical (Finite m e) = true -> decimal m e = Finite m e.
Proof.
  unfold canonical. destruct (decimal m e) as [| s | m' e']; try discriminate.
  intros H. apply andb_prop in H. destruct H as [Hm He].
  apply Z.eqb_eq in Hm, He. now subst.
Qed.

Lemma canonical_zero (e : Z) : canonical (Finite 0 e) = true -> e = 0%Z.
Proof.
  intros H. apply canonical_decimal in H. unfold decimal in H. simpl in H.
  congruence.
Qed.

Lemma canonical_last_digit (m e : Z) :
  canonical (Finite m e) = true -> m <> 0%Z -> (m mod 10 <> 0)%Z.
Proof.
  intros H Hm. apply canonical_decimal in H.
  exact (decimal_complete m e m e Hm H).
Qed.

Lemma decimal_canonical (m e : Z) : canonical (decimal m e) = true.
Proof.
  destruct (Z.eq_dec m 0) as [-> | Hm]; [reflexivity |].
  destruct (decimal_spec m e Hm) as [m' [e' [Hd [Hle Hv]]]].
  pose proof (decimal_complete m e m' e' Hm Hd) as Hc.
  rewrite Hd. unfold canonical, decimal.
  assert (Hm' : m' <> 0%Z) by (intros ->; now apply Hc).
  destruct (Z.eqb_spec m' 0); [contradiction |].
  destruct (Z.to_nat (Z.log2 (Z.abs m'))); simpl.
  - now rewrite !Z.eqb_refl.
  - destruct (Z.eqb_spec (m' mod 10) 0); [contradiction |].
    now rewrite !Z.eqb_refl.
Qed.

Lemma power_of_ten_positive (e : Z) : (0 <= e)%Z -> (0 < 10 ^ e)%Z.
Proof. intros He. apply Z.pow_pos_nonneg; lia. Qed.

(** Trailing zeros of an integer go into the exponent. *)
Lemma decimal_scale (m e : Z) :
  canonical (Finite m e) = true -> m <> 0%Z -> (0 <= e)%Z ->
  decimal (m * 10 ^ e) 0 = Finite m e.
Proof.
  intros Hc Hm He.
  pose proof (canonical_last_digit m e Hc Hm) as Hlast.
  pose proof (power_of_ten_positive e He) as Hpow.
  assert (Hne : (m * 10 ^ e <> 0)%Z) by nia.
  destruct (decimal_spec _ 0 Hne) as [m' [e' [Hd [Hle Hv]]]].
  pose proof (decimal_complete _ _ _ _ Hne Hd) as Hlast'.
  rewrite Hd. rewrite Z.sub_0_r in Hv.
  destruct (Z.lt_trichotomy e e') as [Hlt | [Heq | Hgt]].
  - exfalso. apply Hlast.
    replace e' with (Z.succ (e' - e - 1) + e)%Z in Hv by lia.
    rewrite Z.pow_add_r, Z.pow_succ_r in Hv by lia.
    assert (Hmv : m = (m' * 10 ^ (e' - e - 1) * 10)%Z).
    { apply (Z.mul_cancel_r _ _ (10 ^ e)%Z); [lia |]. rewrite Hv. ring. }
    rewrite Hmv. apply Z.mod_mul. lia.
  - subst e'. f_equal. apply (Z.mul_cancel_r _ _ (10 ^ e)%Z); [lia |].
    now symmetry.
  - exfalso. apply Hlast'.
    pose proof (power_of_ten_positive e' Hle) as Hpow'.
    replace e with (Z.succ (e - e' - 1) + e')%Z in Hv by lia.
    rewrite Z.pow_add_r, Z.pow_succ_r in Hv by lia.
    assert (Hmv : m' = (m * 10 ^ (e - e' - 1) * 10)%Z).
    { apply (Z.mul_cancel_r _ _ (10 ^ e')%Z); [lia |]. rewrite <- Hv. ring. }
    rewrite Hmv. apply Z.mod_mul. lia.
Qed.

(** ** Reading a number *)

Lemma digit_not_minus (c : ascii) :
  is_digit c = true -> Ascii.eqb c "-"%char = false.
Proof.
  intros H. destruct (Ascii.eqb_spec c "-"%char) as [-> |]; [discriminate |].
  reflexivity.
Qed.

Lemma delimited_head (c : ascii) (rest : list ascii) :
  delimited (c :: rest) = true ->
  is_digit c = false /\ Ascii.eqb c "."%char = false
  /\ Ascii.eqb c "e"%char = false /\ Ascii.eqb c "E"%char = false
  /\ is_whitespace c = false.
Proof.
  simpl. intros H.
  destruct (Ascii.eqb_spec c ","%char) as [-> |]; [repeat split |].
  destruct (Ascii.eqb_spec c "]"%char) as [-> |]; [repeat split |].
  destruct (Ascii.eqb_spec c "}"%char) as [-> |]; [repeat split |].
  discriminate.
Qed.

Lemma parse_number_stages (s : list ascii) :
  parse_number s
  = let '(negative, s1) := read_sign s in
    match read_integer s1 with
    | None => None
    | Some (int, s2) =>
        match read_fraction s2 with
        | None => None
        | Some (frac, s3) =>
            match read_exponent s3 with
            | None => None
            | Some (ex, s4) =>
                let mantissa := digits_value (int ++ frac) in
                Some (decimal (if negative then (- mantissa)%Z else mantissa)
                              (ex - Z.of_nat (List.length frac))%Z, s4)
            end
        end
    end.
Proof. reflexivity. Qed.

Lemma delimited_stops (rest : list ascii) : delimited rest = true -> stops rest.
Proof.
  destruct rest as [| c r]; [exact (fun _ => I) |].
  intros H. now apply delimited_head in H.
Qed.

Lemma read_exponent_text (minus : bool) (expo rest : list ascii) :
  Forall (fun c => is_digit c = true) expo ->
  delimited rest = true ->
  read_exponent (exponent_text minus expo ++ rest)
  = Some (exponent_value minus expo, rest).
Proof.
  intros Hd Hr. pose proof (delimited_stops rest Hr) as Hs.
  destruct expo as [| d ds].
  - cbn [exponent_text exponent_value app]. unfold read_exponent.
    destruct rest as [| c r]; [reflexivity |].
    apply delimited_head in Hr. destruct Hr as [_ [_ [He [HE _]]]].
    now rewrite He, HE.
  - cbn [exponent_text exponent_value app]. unfold read_exponent.
    change (Ascii.eqb "e" "e") with true. cbn [orb].
    destruct minus.
    + change (Ascii.eqb "-" "-") with true. cbv iota beta.
      rewrite app_comm_cons. rewrite (take_digits_all (d :: ds) rest Hd Hs).
      reflexivity.
    + change (Ascii.eqb "+" "-") with false.
      change (Ascii.eqb "+" "+") with true. cbv iota beta.
      rewrite app_comm_cons. rewrite (take_digits_all (d :: ds) rest Hd Hs).
      reflexivity.
Qed.

Lemma exponent_text_head (minus : bool) (expo rest : list ascii) :
  delimited rest = true ->
  match (exponent_text minus expo ++ rest)%list with
  | [] => True
  | c :: _ => is_digit c = false /\ Ascii.eqb c "."%char = false
  end.
Proof.
  intros Hr. destruct expo as [| d ds]; cbn [exponent_text app].
  - destruct rest as [| c r]; [exact I |].
    apply delimited_head in Hr. tauto.
  - split; reflexivity.
Qed.

Lemma read_fraction_text (frac tail : list ascii) :
  Forall (fun c => is_digit c = true) frac ->
  match tail with
  | [] => True
  | c :: _ => is_digit c = false /\ Ascii.eqb c "."%char = false
  end ->
  read_fraction (fraction_text frac ++ tail) = Some (frac, tail).
Proof.
  intros Hd Ht. destruct frac as [| d ds].
  - cbn [fraction_text app]. unfold read_fraction.
    destruct tail as [| c r]; [reflexivity |].
    destruct Ht as [_ Hp]. now rewrite Hp.
  - cbn [fraction_text app]. unfold read_fraction.
    change (Ascii.eqb "." ".") with true. cbv iota beta.
    rewrite app_comm_cons.
    rewrite (take_digits_all (d :: ds) tail Hd); [reflexivity |].
    destruct tail as [| c r]; [exact I | tauto].
Qed.

Lemma fraction_text_head (frac tail : list ascii) :
  match tail with
  | [] => True
  | c :: _ => is_digit c = false /\ Ascii.eqb c "."%char = false
  end ->
  stops (fraction_text frac ++ tail).
Proof.
  intros Ht. destruct frac as [| d ds]; cbn [fraction_text app].
  - destruct tail as [| c r]; [exact I | simpl; tauto].
  - reflexivity.
Qed.

Lemma read_integer_zero (tail : list ascii) :
  read_integer ("0"%char :: tail) = Some (["0"%char], tail).
Proof. reflexivity. Qed.

Lemma read_integer_digits (c : ascii) (cs tail : list ascii) :
  is_digit c = true -> Ascii.eqb c "0"%char = false ->
  Forall (fun c => is_digit c = true) cs ->
  stops tail ->
  read_integer ((c :: cs) ++ tail) = Some (c :: cs, tail).
Proof.
  intros Hc Hz Hcs Ht. cbn [app]. unfold read_integer. rewrite Hz, Hc.
  rewrite app_comm_cons.
  rewrite (take_digits_all (c :: cs) tail); [reflexivity | | exact Ht].
  now constructor.
Qed.

(** A number text read back, stage by stage: an integer part that is [0]
    or digits with no leading zero, then a fraction, then an exponent. *)
Lemma parse_number_text (negative minus : bool) (int frac expo rest : list ascii) :
  (int = ["0"%char]
   \/ exists c cs, int = c :: cs /\ is_digit c = true
                   /\ Ascii.eqb c "0"%char = false
                   /\ Forall (fun c => is_digit c = true) cs) ->
  Forall (fun c => is_digit c = true) frac ->
  Forall (fun c => is_digit c = true) expo ->
  delimited rest = true ->
  parse_number ((if negative then ["-"%char] else []) ++ int
                ++ fraction_text frac ++ exponent_text minus expo ++ rest)
  = Some (decimal (if negative then (- digits_value (int ++ frac))%Z
                   else digits_value (int ++ frac))
                  (exponent_value minus expo - Z.of_nat (List.length frac))%Z,
          rest).
Proof.
  intros Hint Hfrac Hexpo Hrest.
  set (tail3 := (exponent_text minus expo ++ rest)%list).
  set (tail2 := (fraction_text frac ++ tail3)%list).
  pose proof (exponent_text_head minus expo rest Hrest) as Hhead3.
  fold tail3 in Hhead3.
  pose proof (fraction_text_head frac tail3 Hhead3) as Hstop2. fold tail2 in Hstop2.
  assert (Hsign : read_sign ((if negative then ["-"%char] else []) ++ int ++ tail2)
                  = (negative, (int ++ tail2)%list)).
  { destruct negative; cbn [app]; [reflexivity |].
    destruct Hint as [-> | [c [cs [-> [Hc _]]]]]; cbn [app]; unfold read_sign.
    - reflexivity.
    - now rewrite (digit_not_minus c Hc). }
  assert (Hinteger : read_integer (int ++ tail2) = Some (int, tail2)).
  { destruct Hint as [-> | [c [cs [-> [Hc [Hz Hcs]]]]]].
    - apply read_integer_zero.
    - now apply read_integer_digits. }
  rewrite parse_number_stages, Hsign. cbv iota beta.
  rewrite Hinteger. subst tail2.
  rewrite (read_fraction_text frac tail3 Hfrac Hhead3). subst tail3.
  rewrite (read_exponent_text minus expo rest Hexpo Hrest).
  reflexivity.
Qed.

(** ** The text of a number *)

Lemma number_text_cases (m e : Z) :
  canonical (Finite m e) = true -> m <> 0%Z ->
  let ds := list_ascii_of_string (digits_of (Z.abs m)) in
  let k := Z.of_nat (List.length ds) in
  let n := (k + e)%Z in
  number_text (Finite m e)
  = ((if (m <? 0)%Z then ["-"%char] else []) ++
     (if (k <=? n)%Z && (n <=? 21)%Z then
        ds ++ repeat "0"%char (Z.to_nat (n - k))
      else if (0 <? n)%Z && (n <=? 21)%Z then
        firstn (Z.to_nat n) ds ++ "."%char
          :: firstn (Z.to_nat (k - n)) (skipn (Z.to_nat n) ds)
      else if (-6 <? n)%Z && (n <=? 0)%Z then
        "0"%char :: "."%char :: repeat "0"%char (Z.to_nat (- n)) ++ ds
      else
        let exs := (if (n - 1 <? 0)%Z then "-"%char else "+"%char)
                   :: list_ascii_of_string (digits_of (Z.abs (n - 1))) in
        if (k =? 1)%Z then ds ++ "e"%char :: exs
        else firstn 1 ds ++ "."%char
               :: firstn (Z.to_nat (k - 1)) (skipn 1 ds) ++ "e"%char :: exs))%list.
Proof.
  intros Hc Hm ds k n.
  unfold number_text, Number_toString, normalize.
  rewrite (canonical_decimal m e Hc).
  destruct (Z.eqb_spec m 0) as [| _]; [contradiction |].
  rewrite string_length_list. fold ds. fold k. fold n.
  destruct ((k <=? n)%Z && (n <=? 21)%Z).
  { cbn [String.concat]. 
    rewrite !list_ascii_of_string_app, list_ascii_of_zeros.
    destruct (m <? 0)%Z; reflexivity. }
  destruct ((0 <? n)%Z && (n <=? 21)%Z).
  { cbn [String.concat].
    rewrite !list_ascii_of_string_app, !list_ascii_of_substring.
    fold ds. destruct (m <? 0)%Z; reflexivity. }
  destruct ((-6 <? n)%Z && (n <=? 0)%Z).
  { cbn [String.concat].
    rewrite !list_ascii_of_string_app, list_ascii_of_zeros.
    destruct (m <? 0)%Z; reflexivity. }
  cbv zeta.
  destruct (k =? 1)%Z.
  - cbn [String.concat].
    rewrite !list_ascii_of_string_app.
    destruct (m <? 0)%Z, (n - 1 <? 0)%Z; reflexivity.
  - cbn [String.concat].
    rewrite !list_ascii_of_string_app, !list_ascii_of_substring.
    fold ds. destruct (m <? 0)%Z, (n - 1 <? 0)%Z; reflexivity.
Qed.

Lemma parse_number_of_text (negative minus : bool)
    (int frac expo text rest : list ascii) (x : number) :
  text = ((if negative then ["-"%char] else []) ++ int
          ++ fraction_text frac ++ exponent_text minus expo)%list ->
  (int = ["0"%char]
   \/ exists c cs, int = c :: cs /\ is_digit c = true
                   /\ Ascii.eqb c "0"%char = false
                   /\ Forall (fun c => is_digit c = true) cs) ->
  Forall (fun c => is_digit c = true) frac ->
  Forall (fun c => is_digit c = true) expo ->
  delimited rest = true ->
  decimal (if negative then (- digits_value (int ++ frac))%Z
           else digits_value (int ++ frac))
          (exponent_value minus expo - Z.of_nat (List.length frac))%Z = x ->
  parse_number (text ++ rest) = Some (x, rest).
Proof.
  intros -> Hint Hfrac Hexpo Hrest <-.
  rewrite <- !app_assoc.
  now apply parse_number_text.
Qed.

Lemma repeat_digits (k : nat) :
  Forall (fun c => is_digit c = true) (repeat "0"%char k).
Proof. induction k; simpl; constructor; auto. Qed.

Lemma Forall_firstn {E : Type} (P : E -> Prop) (n : nat) (l : list E) :
  Forall P l -> Forall P (firstn n l).
Proof.
  intros H. revert n. induction H as [| x l Hx Hl IH]; intros [| n]; simpl;
    constructor; auto.
Qed.

Lemma Forall_skipn {E : Type} (P : E -> Prop) (n : nat) (l : list E) :
  Forall P l -> Forall P (skipn n l).
Proof.
  intros H. revert n. induction H as [| x l Hx Hl IH]; intros [| n]; simpl;
    auto.
Qed.

Lemma skipn_nonempty {E : Type} (n : nat) (l : list E) :
  n < List.length l -> exists x xs, skipn n l = x :: xs.
Proof.
  intros H. destruct (skipn n l) as [| x xs] eqn:Hs; [| eauto].
  apply (f_equal (@List.length E)) in Hs. rewrite length_skipn in Hs.
  simpl in Hs. lia.
Qed.

(** The text [JSON.stringify] gives for a canonical Number reads back as
    that Number. *)
Lemma number_round_trip (m e : Z) (rest : list ascii) :
  canonical (Finite m e) = true ->
  delimited rest = true ->
  parse_number (number_text (Finite m e) ++ rest) = Some (Finite m e, rest).
Proof.
  intros Hc Hrest.
  destruct (Z.eq_dec m 0) as [-> | Hm].
  { rewrite (canonical_zero e Hc).
    apply (parse_number_of_text false false ["0"%char] [] []);
      try reflexivity; auto. }
  rewrite (number_text_cases m e Hc Hm).
  remember (Z.abs m) as a eqn:Ea.
  remember (list_ascii_of_string (digits_of a)) as ds eqn:Eds.
  remember (Z.of_nat (List.length ds)) as k eqn:Ek.
  remember (k + e)%Z as n eqn:En.
  assert (Ha : (0 < a)%Z) by lia.
  assert (Hsign : (if (m <? 0)%Z then (- a)%Z else a) = m)
    by (destruct (Z.ltb_spec m 0); lia).
  pose proof (digits_of_digits a) as Hdig. rewrite <- Eds in Hdig.
  pose proof (digits_of_value a (Z.lt_le_incl _ _ Ha)) as Hval.
  rewrite <- Eds in Hval.
  destruct (digits_of_head a Ha) as [c [cs [Hds [Hcd Hcz]]]].
  rewrite <- Eds in Hds.
  assert (Hcs : Forall (fun c => is_digit c = true) cs)
    by (rewrite Hds in Hdig; now inversion Hdig).
  assert (Hk : k = (1 + Z.of_nat (List.length cs))%Z)
    by (rewrite Ek, Hds; simpl List.length; lia).
  assert (Hlen : List.length ds = S (List.length cs)) by (now rewrite Hds).
  destruct ((k <=? n)%Z && (n <=? 21)%Z) eqn:HA.
  { (* the digits, then zeros *)
    apply andb_prop in HA. destruct HA as [HA1 HA2].
    apply Z.leb_le in HA1, HA2.
    apply (parse_number_of_text (m <? 0)%Z false
             (ds ++ repeat "0"%char (Z.to_nat (n - k))) [] []).
    - cbn [fraction_text exponent_text]. now rewrite !app_nil_r.
    - right. exists c, (cs ++ repeat "0"%char (Z.to_nat (n - k)))%list.
      rewrite Hds. repeat split; auto.
      apply Forall_app. split; [exact Hcs | apply repeat_digits].
    - constructor.
    - constructor.
    - exact Hrest.
    - rewrite app_nil_r, digits_value_app, digits_value_zeros, Hval.
      cbn [exponent_value List.length Z.of_nat]. rewrite Z.sub_0_r.
      replace (Z.of_nat (Z.to_nat (n - k))) with e by lia.
      rewrite <- (decimal_scale m e Hc Hm) by lia. f_equal.
      destruct (Z.ltb_spec m 0); lia. }
  assert (HA' : (n < k \/ 21 < n)%Z).
  { apply andb_false_iff in HA. destruct HA as [HA | HA].
    - apply Z.leb_gt in HA. lia.
    - apply Z.leb_gt in HA. lia. }
  clear HA.
  destruct ((0 <? n)%Z && (n <=? 21)%Z) eqn:HB.
  { (* a point inside the digits *)
    apply andb_prop in HB. destruct HB as [HB1 HB2].
    apply Z.ltb_lt in HB1. apply Z.leb_le in HB2.
    assert (Hall : firstn (Z.to_nat (k - n)) (skipn (Z.to_nat n) ds)
                   = skipn (Z.to_nat n) ds).
    { apply firstn_all2. rewrite length_skipn. lia. }
    rewrite Hall.
    destruct (skipn_nonempty (Z.to_nat n) ds) as [y [ys Hsk]]; [lia |].
    apply (parse_number_of_text (m <? 0)%Z false
             (firstn (Z.to_nat n) ds) (skipn (Z.to_nat n) ds) []).
    - cbn [exponent_text]. rewrite app_nil_r. now rewrite Hsk.
    - right. rewrite Hds.
      destruct (Z.to_nat n) as [| n'] eqn:Hn'; [lia |].
      exists c, (firstn n' cs). repeat split; auto. now apply Forall_firstn.
    - now apply Forall_skipn.
    - constructor.
    - exact Hrest.
    - rewrite firstn_skipn, Hval. cbn [exponent_value].
      rewrite length_skipn.
      replace (0 - Z.of_nat (List.length ds - Z.to_nat n))%Z with e by lia.
      rewrite Hsign. now apply canonical_decimal. }
  assert (HB' : (n <= 0 \/ 21 < n)%Z).
  { apply andb_false_iff in HB. destruct HB as [HB | HB].
    - apply Z.ltb_ge in HB. lia.
    - apply Z.leb_gt in HB. lia. }
  clear HB.
  destruct ((-6 <? n)%Z && (n <=? 0)%Z) eqn:HC.
  { (* zero, a point, zeros, the digits *)
    apply andb_prop in HC. destruct HC as [HC1 HC2].
    apply Z.ltb_lt in HC1. apply Z.leb_le in HC2.
    apply (parse_number_of_text (m <? 0)%Z false ["0"%char]
             (repeat "0"%char (Z.to_nat (- n)) ++ ds) []).
    - cbn [exponent_text app]. rewrite app_nil_r.
      destruct (repeat "0"%char (Z.to_nat (- n)) ++ ds)%list eqn:Hfr;
        [| reflexivity].
      exfalso. apply (f_equal (@List.length ascii)) in Hfr.
      rewrite length_app, Hlen in Hfr. simpl in Hfr. lia.
    - now left.
    - apply Forall_app. split; [apply repeat_digits | exact Hdig].
    - constructor.
    - exact Hrest.
    - change (["0"%char] ++ repeat "0"%char (Z.to_nat (- n)) ++ ds)%list
        with (repeat "0"%char (S (Z.to_nat (- n))) ++ ds)%list.
      rewrite digits_value_leading_zeros, Hval. cbn [exponent_value].
      rewrite length_app, repeat_length.
      replace (0 - Z.of_nat (Z.to_nat (- n) + List.length ds))%Z with e
        by lia.
      rewrite Hsign. now apply canonical_decimal. }
  assert (HC' : (n <= -6 \/ 21 < n)%Z).
  { apply andb_false_iff in HC. destruct HC as [HC | HC].
    - apply Z.ltb_ge in HC. lia.
    - apply Z.leb_gt in HC. lia. }
  clear HC. cbv zeta.
  remember (n - 1)%Z as ex eqn:Eex.
  assert (Hex : (0 < Z.abs ex)%Z) by lia.
  pose proof (digits_of_digits (Z.abs ex)) as Hexd.
  pose proof (digits_of_value (Z.abs ex) (Z.lt_le_incl _ _ Hex)) as Hexv.
  destruct (digits_of_head (Z.abs ex) Hex) as [x [xs [Hxs _]]].
  assert (Hexs : exponent_value (ex <? 0)%Z
                   (list_ascii_of_string (digits_of (Z.abs ex))) = ex).
  { rewrite Hxs. cbn [exponent_value]. rewrite <- Hxs, Hexv.
    destruct (Z.ltb_spec ex 0); lia. }
  destruct (Z.eqb_spec k 1) as [Hk1 | Hk1].
  - (* one digit and an exponent *)
    apply (parse_number_of_text (m <? 0)%Z (ex <? 0)%Z ds []
             (list_ascii_of_string (digits_of (Z.abs ex)))).
    + cbn [fraction_text app]. rewrite Hxs. cbn [exponent_text].
      now destruct (ex <? 0)%Z.
    + right. exists c, cs. repeat split; auto.
    + constructor.
    + exact Hexd.
    + exact Hrest.
    + rewrite app_nil_r, Hval, Hexs. cbn [List.length Z.of_nat].
      replace (ex - 0)%Z with e by lia.
      rewrite Hsign. now apply canonical_decimal.
  - (* one digit, a point, the other digits and an exponent *)
    assert (Hall : firstn (Z.to_nat (k - 1)) (skipn 1 ds) = skipn 1 ds).
    { apply firstn_all2. rewrite length_skipn. lia. }
    rewrite Hall.
    destruct (skipn_nonempty 1 ds) as [y [ys Hsk]]; [lia |].
    apply (parse_number_of_text (m <? 0)%Z (ex <? 0)%Z
             (firstn 1 ds) (skipn 1 ds)
             (list_ascii_of_string (digits_of (Z.abs ex)))).
    + rewrite Hsk. cbn [fraction_text]. rewrite Hxs. cbn [exponent_text].
      cbn [app]. now destruct (ex <? 0)%Z.
    + right. rewrite Hds. exists c, []. repeat split; auto.
    + now apply Forall_skipn.
    + exact Hexd.
    + exact Hrest.
    + rewrite firstn_skipn, Hval, Hexs. rewrite length_skipn.
      replace (ex - Z.of_nat (List.length ds - 1))%Z with e by lia.
      rewrite Hsign. now apply canonical_decimal.
Qed.

(** ** Reading a string *)

Lemma parse_string_quoted (cs : list ascii) :
  forall acc rest,
    parse_string (flat_map quote_character cs ++ dquote :: rest) acc
    = Some (string_of_list_ascii (rev acc ++ cs), rest).
Proof.
  induction cs as [| c cs IH]; intros acc rest.
  - simpl. now rewrite app_nil_r.
  - cbn [flat_map]. rewrite <- app_assoc.
    replace (rev acc ++ c :: cs)%list with (rev (c :: acc) ++ cs)%list
      by (simpl; now rewrite <- app_assoc).
    rewrite <- (IH (c :: acc) rest).
    generalize (flat_map quote_character cs ++ dquote :: rest)%list.
    intros tail. clear IH.
    destruct c as [[] [] [] [] [] [] [] []]; reflexivity.
Qed.

Lemma parse_string_quote (s : string) (rest : list ascii) :
  match quote s with
  | c :: body => Ascii.eqb c dquote = true
                 /\ parse_string (body ++ rest) [] = Some (s, rest)
  | [] => False
  end.
Proof.
  unfold quote. split; [reflexivity |].
  rewrite <- app_assoc. cbn [app].
  rewrite parse_string_quoted. cbn [rev app].
  now rewrite string_of_list_ascii_of_string.
Qed.

(** ** Reading back what [JSON.stringify] wrote *)

Lemma value_induction (P : value -> Prop) :
  P VUndefined -> P VNull -> (forall b, P (VBool b)) -> (forall n, P (VNum n)) ->
  (forall z, P (VBigInt z)) -> (forall s, P (VStr s)) ->
  (forall d, P (VSymbol d)) ->
  (forall l, Forall P l -> P (VArr l)) ->
  (forall ps, Forall (fun kv => P (snd kv)) ps -> P (VObj ps)) ->
  forall v, P v.
Proof.
  intros Hu Hn Hb Hnum Hz Hs Hd Ha Ho.
  fix IH 1. intros [| | b | n | z | s | d | l | ps].
  - exact Hu.
  - exact Hn.
  - apply Hb.
  - apply Hnum.
  - apply Hz.
  - apply Hs.
  - apply Hd.
  - apply Ha. induction l as [| x l IHl]; constructor; [apply IH | exact IHl].
  - apply Ho. induction ps as [| [k x] ps IHps]; constructor;
      [apply IH | exact IHps].
Qed.

Lemma serialize_array (l : list value) :
  serialize (VArr l)
  = (parts <- serialize_elements l ;;
     Return (Some ("["%char :: join parts ++ ["]"%char])%list)).
Proof. reflexivity. Qed.

Lemma serialize_object (ps : properties) :
  serialize (VObj ps)
  = (parts <- serialize_members ps ;;
     Return (Some ("{"%char :: join parts ++ ["}"%char])%list)).
Proof. reflexivity. Qed.

Lemma number_text_head (m e : Z) :
  canonical (Finite m e) = true ->
  exists c cs, number_text (Finite m e) = c :: cs
               /\ (c = "-"%char \/ is_digit c = true).
Proof.
  intros Hc. destruct (Z.eq_dec m 0) as [-> | Hm].
  { rewrite (canonical_zero e Hc). exists "0"%char, []. split; [reflexivity |].
    now right. }
  rewrite (number_text_cases m e Hc Hm). cbv zeta.
  destruct (digits_of_head (Z.abs m)) as [c [cs [Hds [Hcd _]]]]; [lia |].
  rewrite Hds.
  set (k := Z.of_nat (List.length (c :: cs))).
  set (n := (k + e)%Z).
  destruct (m <? 0)%Z; cbn [app]; [eexists _, _; split; [reflexivity | now left] |].
  destruct ((k <=? n)%Z && (n <=? 21)%Z).
  { cbn [app]. eexists _, _; split; [reflexivity | now right]. }
  destruct ((0 <? n)%Z && (n <=? 21)%Z) eqn:Hn.
  { apply andb_prop in Hn. destruct Hn as [Hn _]. apply Z.ltb_lt in Hn.
    destruct (Z.to_nat n) as [| p] eqn:Hp; [lia |].
    cbn [firstn app]. eexists _, _; split; [reflexivity | now right]. }
  destruct ((-6 <? n)%Z && (n <=? 0)%Z).
  { eexists _, _; split; [reflexivity | now right]. }
  destruct (k =? 1)%Z; cbn [firstn app];
    eexists _, _; (split; [reflexivity | now right]).
Qed.

Lemma number_head_tests (c : ascii) :
  c = "-"%char \/ is_digit c = true ->
  is_whitespace c = false /\ Ascii.eqb c "["%char = false
  /\ Ascii.eqb c "{"%char = false /\ Ascii.eqb c dquote = false
  /\ Ascii.eqb c "t"%char = false /\ Ascii.eqb c "f"%char = false
  /\ Ascii.eqb c "n"%char = false /\ Ascii.eqb c "]"%char = false.
Proof.
  intros [-> | H]; [repeat split |].
  destruct c as [[] [] [] [] [] [] [] []]; try discriminate; repeat split.
Qed.

Lemma distinct_keys_middle (acc rest : properties) (k : string) (v : value) :
  distinct_keys (acc ++ (k, v) :: rest)%list = true -> get_property k acc = None.
Proof.
  induction acc as [| [k0 v0] acc IH]; cbn [app distinct_keys get_property];
    [reflexivity |].
  rewrite get_property_app.
  destruct (get_property k0 acc) eqn:Hk0; [discriminate |].
  cbn [get_property].
  destruct (String.eqb_spec k k0) as [-> | Hne].
  - now rewrite String.eqb_refl.
  - destruct (String.eqb k0 k); [discriminate |].
    destruct (get_property k0 rest); [discriminate | exact IH].
Qed.

Lemma ordered_keys_middle (acc rest : properties) (k : string) (v : value) :
  ordered_keys (acc ++ (k, v) :: rest)%list = true ->
  Forall (fun kv => precedes k (fst kv) = false) acc.
Proof.
  induction acc as [| [k0 v0] acc IH]; cbn [app ordered_keys]; [constructor |].
  intros H. apply andb_prop in H. destruct H as [H1 H2].
  rewrite forallb_app in H1. apply andb_prop in H1. destruct H1 as [_ H1].
  cbn [forallb fst] in H1. apply andb_prop in H1. destruct H1 as [H1 _].
  constructor; [| exact (IH H2)].
  cbn [fst]. now destruct (precedes k k0).
Qed.

Lemma insert_property_last (k : string) (v : value) (ps : properties) :
  Forall (fun kv => precedes k (fst kv) = false) ps ->
  insert_property k v ps = (ps ++ [(k, v)])%list.
Proof.
  induction 1 as [| [k0 v0] ps H _ IH]; cbn [insert_property app];
    [reflexivity |].
  cbn [fst] in H. now rewrite H, IH.
Qed.

Lemma define_in_order (ps : properties) :
  forall acc,
    distinct_keys (acc ++ ps)%list = true ->
    ordered_keys (acc ++ ps)%list = true ->
    fold_left (fun acc kv => define_property (fst kv) (snd kv) acc) ps acc
    = (acc ++ ps)%list.
Proof.
  induction ps as [| [k v] ps IH]; intros acc Hd Ho; cbn [fold_left fst snd].
  - now rewrite app_nil_r.
  - unfold define_property at 2.
    rewrite (distinct_keys_middle acc ps k v Hd).
    rewrite (insert_property_last k v acc (ordered_keys_middle acc ps k v Ho)).
    rewrite IH; rewrite <- app_assoc; [reflexivity | exact Hd | exact Ho].
Qed.

Lemma skip_whitespace_head (c : ascii) (s : list ascii) :
  is_whitespace c = false -> skip_whitespace (c :: s) = c :: s.
Proof. intros H. cbn [skip_whitespace]. now rewrite H. Qed.

Lemma parse_elements_join (l : list value) (parts : list (list ascii)) :
  Forall2 reads_back l parts -> l <> [] ->
  forall acc fuel rest,
    2 * List.length (join parts ++ "]"%char :: rest) + 2 <= fuel ->
    parse_elements fuel (join parts ++ "]"%char :: rest) acc
    = Parsed (VArr (rev acc ++ l)) rest.
Proof.
  induction 1 as [| x text l parts [_ Hx] Hrest IH]; intros Hne acc fuel rest Hf;
    [contradiction |].
  destruct fuel as [| fuel]; [lia |].
  destruct Hrest as [| y text' l' parts' Hy Hrest'].
  - cbn [join] in *. cbn [parse_elements].
    rewrite (Hx fuel ("]"%char :: rest) eq_refl) by lia.
    cbn [rev]. reflexivity.
  - assert (Hj : join (text :: text' :: parts')
                 = (text ++ ","%char :: join (text' :: parts'))%list)
      by reflexivity.
    rewrite Hj in *. rewrite <- app_assoc in *. cbn [app] in *.
    cbn [parse_elements].
    rewrite (Hx fuel (","%char :: join (text' :: parts') ++ "]"%char :: rest)
               eq_refl) by lia.
    cbn [skip_whitespace is_whitespace]. 
    change (is_whitespace ","%char) with false. cbv iota.
    change (Ascii.eqb ","%char ","%char) with true. cbv iota.
    rewrite IH; [| discriminate |].
    + cbn [rev]. now rewrite <- app_assoc.
    + rewrite length_app in Hf. cbn [List.length] in Hf. lia.
Qed.

Lemma quote_reads_back (k : string) (rest : list ascii) :
  exists body,
    quote k = dquote :: body
    /\ parse_string (body ++ rest) [] = Some (k, rest).
Proof.
  pose proof (parse_string_quote k rest) as H.
  destruct (quote k) as [| c body]; [contradiction |].
  destruct H as [Hc H]. apply Ascii.eqb_eq in Hc. subst c.
  now exists body.
Qed.

Ltac text_length H :=
  repeat (first [rewrite length_app in H | progress (cbn [List.length] in H)]);
  repeat (first [rewrite length_app | progress (cbn [List.length])]).

Lemma parse_members_join (ps : properties) (parts : list (list ascii)) :
  Forall2 member_reads_back ps parts -> ps <> [] ->
  forall acc fuel rest,
    2 * List.length (join parts ++ "}"%char :: rest) + 2 <= fuel ->
    parse_members fuel (join parts ++ "}"%char :: rest) acc
    = Parsed (VObj (define_all ps acc)) rest.
Proof.
  induction 1 as [| [k x] part ps parts [text [-> [_ Hx]]] Hrest IH];
    intros Hne acc fuel rest Hf; [contradiction |].
  cbn [fst snd] in *.
  destruct fuel as [| fuel]; [lia |].
  destruct Hrest as [| y part' ps' parts' Hy Hrest'].
  - cbn [join] in *.
    destruct (quote_reads_back k (":"%char :: text ++ "}"%char :: rest))
      as [body [Hq Hbody]].
    rewrite Hq in *. rewrite <- !app_assoc in *. cbn [app] in *.
    cbn [parse_members].
    rewrite skip_whitespace_head by reflexivity.
    change (Ascii.eqb dquote dquote) with true. cbv iota.
    rewrite Hbody.
    rewrite skip_whitespace_head by reflexivity.
    change (Ascii.eqb ":"%char ":"%char) with true. cbv iota.
    rewrite (Hx fuel ("}"%char :: rest) eq_refl) by (text_length Hf; lia).
    reflexivity.
  - assert (Hj : join ((quote k ++ ":"%char :: text)%list :: part' :: parts')
                 = ((quote k ++ ":"%char :: text)
                    ++ ","%char :: join (part' :: parts'))%list)
      by reflexivity.
    rewrite Hj in *.
    destruct (quote_reads_back k
                (":"%char :: text ++ ","%char :: join (part' :: parts')
                               ++ "}"%char :: rest))
      as [body [Hq Hbody]].
    rewrite Hq in *. rewrite <- !app_assoc in *. cbn [app] in *.
    cbn [parse_members].
    rewrite skip_whitespace_head by reflexivity.
    change (Ascii.eqb dquote dquote) with true. cbv iota.
    rewrite Hbody.
    rewrite skip_whitespace_head by reflexivity.
    change (Ascii.eqb ":"%char ":"%char) with true. cbv iota.
    rewrite (Hx fuel (","%char :: join (part' :: parts') ++ "}"%char :: rest)
               eq_refl)
      by (text_length Hf; lia).
    rewrite skip_whitespace_head by reflexivity.
    change (Ascii.eqb ","%char ","%char) with true. cbv iota.
    rewrite IH; [reflexivity | discriminate |].
    text_length Hf. lia.
Qed.

Lemma serialize_elements_read_back (l : list value) :
  Forall round_trips l -> forallb json l = true ->
  exists parts,
    serialize_elements l = Return parts /\ Forall2 reads_back l parts.
Proof.
  induction 1 as [| x l Hx _ IH]; cbn [forallb]; intros Hj.
  - exists []. split; [reflexivity | constructor].
  - apply andb_prop in Hj. destruct Hj as [Hjx Hjl].
    destruct (Hx Hjx) as [text [Hs Hr]].
    destruct (IH Hjl) as [parts [Hp Hrs]].
    exists (text :: parts). split; [| now constructor].
    cbn [serialize_elements]. rewrite Hs. cbn [bind].
    fold serialize_elements. rewrite Hp. reflexivity.
Qed.

Lemma serialize_members_read_back (ps : properties) :
  Forall (fun kv => round_trips (snd kv)) ps ->
  forallb (fun kv => json (snd kv)) ps = true ->
  exists parts,
    serialize_members ps = Return parts /\ Forall2 member_reads_back ps parts.
Proof.
  induction 1 as [| [k x] ps Hx _ IH]; cbn [forallb]; intros Hj.
  - exists []. split; [reflexivity | constructor].
  - apply andb_prop in Hj. destruct Hj as [Hjx Hjl]. cbn [snd] in *.
    destruct (Hx Hjx) as [text [Hs Hr]].
    destruct (IH Hjl) as [parts [Hp Hrs]].
    exists ((quote k ++ ":"%char :: text)%list :: parts). split.
    + cbn [serialize_members]. rewrite Hs. cbn [bind].
      fold serialize_members. rewrite Hp. reflexivity.
    + constructor; [| exact Hrs]. exists text. now split.
Qed.

Lemma serialize_reads_back (v : value) : round_trips v.
Proof.
  induction v as [| | b | n | z | s | d | l IH | ps IH] using value_induction;
    unfold round_trips; cbn [json]; intros Hj; try discriminate.
  - exists (list_ascii_of_string "null"). split; [reflexivity |]. split.
    + eexists _, _. repeat split.
    + intros [| fuel] rest _ Hf; [lia | reflexivity].
  - destruct b.
    + exists (list_ascii_of_string "true"). split; [reflexivity |]. split.
      * eexists _, _. repeat split.
      * intros [| fuel] rest _ Hf; [lia | reflexivity].
    + exists (list_ascii_of_string "false"). split; [reflexivity |]. split.
      * eexists _, _. repeat split.
      * intros [| fuel] rest _ Hf; [lia | reflexivity].
  - destruct n as [| neg | m e]; try discriminate.
    exists (number_text (Finite m e)). split; [reflexivity |].
    destruct (number_text_head m e Hj) as [c [cs [Ht Hc]]].
    destruct (number_head_tests c Hc)
      as [Hw [H1 [H2 [H3 [H4 [H5 [H6 H7]]]]]]].
    split.
    + exists c, cs. repeat split; assumption.
    + intros [| fuel] rest Hd Hf; [lia |].
      pose proof (number_round_trip m e rest Hj Hd) as Hn.
      rewrite Ht in *. cbn [app] in *. cbn [parse_value].
      rewrite skip_whitespace_head by exact Hw.
      rewrite H1, H2, H3, H4, H5, H6, Hn. reflexivity.
  - exists (quote s). split; [reflexivity |]. split.
    + eexists _, _. repeat split.
    + intros [| fuel] rest _ Hf; [lia |].
      destruct (quote_reads_back s rest) as [body [Hq Hbody]].
      rewrite Hq. cbn [app parse_value].
      rewrite skip_whitespace_head by reflexivity.
      change (Ascii.eqb dquote "["%char) with false.
      change (Ascii.eqb dquote "{"%char) with false.
      change (Ascii.eqb dquote dquote) with true. cbv iota.
      now rewrite Hbody.
  - destruct (serialize_elements_read_back l IH Hj) as [parts [Hs Hr]].
    exists ("["%char :: join parts ++ ["]"%char])%list. split.
    { rewrite serialize_array, Hs. reflexivity. }
    split; [eexists _, _; repeat split |].
    intros [| fuel] rest _ Hf; [lia |].
    rewrite <- app_comm_cons, <- app_assoc. cbn [app parse_value].
    rewrite skip_whitespace_head by reflexivity.
    change (Ascii.eqb "["%char "["%char) with true. cbv iota.
    destruct Hr as [| x text l' parts' Hx Hr'].
    + reflexivity.
    + assert (Hhead : exists c cs,
                 (join (text :: parts') ++ "]"%char :: rest)%list = c :: cs
                 /\ is_whitespace c = false /\ Ascii.eqb c "]"%char = false).
      { destruct Hx as [[c [cs [-> [Hw Hb]]]] _].
        destruct parts'; cbn [join app]; eexists _, _; repeat split; eassumption. }
      destruct Hhead as [c [cs [Hjoin [Hw Hb]]]].
      rewrite (parse_elements_join (x :: l') (text :: parts')
                 (Forall2_cons _ _ Hx Hr') ltac:(discriminate) [] fuel rest).
      * rewrite Hjoin, skip_whitespace_head, Hb by exact Hw. reflexivity.
      * text_length Hf. lia.
  - apply andb_prop in Hj. destruct Hj as [Hj Hvs].
    apply andb_prop in Hj. destruct Hj as [Hd Ho].
    destruct (serialize_members_read_back ps IH Hvs) as [parts [Hs Hr]].
    exists ("{"%char :: join parts ++ ["}"%char])%list. split.
    { rewrite serialize_object, Hs. reflexivity. }
    split; [eexists _, _; repeat split |].
    intros [| fuel] rest _ Hf; [lia |].
    rewrite <- app_comm_cons, <- app_assoc. cbn [app parse_value].
    rewrite skip_whitespace_head by reflexivity.
    change (Ascii.eqb "{"%char "["%char) with false.
    change (Ascii.eqb "{"%char "{"%char) with true. cbv iota.
    destruct Hr as [| kv part ps' parts' Hx Hr'].
    + reflexivity.
    + assert (Hhead : exists cs,
                 (join (part :: parts') ++ "}"%char :: rest)%list = dquote :: cs).
      { destruct Hx as [text [-> _]].
        destruct parts'; cbn [join app quote]; eexists; reflexivity. }
      destruct Hhead as [cs Hjoin].
      rewrite (parse_members_join (kv :: ps') (part :: parts')
                 (Forall2_cons _ _ Hx Hr') ltac:(discriminate) [] fuel rest).
      * rewrite Hjoin, skip_whitespace_head by reflexivity.
        change (Ascii.eqb dquote "}"%char) with false. cbv iota.
        unfold define_all.
        now rewrite (define_in_order (kv :: ps') [] Hd Ho).
      * text_length Hf. lia.
Qed.

(** ** What [JSON.parse] produces *)

Lemma precedes_asymmetric (a b : string) :
  precedes a b = true -> precedes b a = false.
Proof.
  unfold precedes.
  destruct (array_index a) as [i |], (array_index b) as [j |];
    try discriminate; try reflexivity.
  intros H. apply N.ltb_lt in H. apply N.ltb_ge. lia.
Qed.

Lemma precedes_transitive (a b c : string) :
  precedes a b = true -> precedes b c = true -> precedes a c = true.
Proof.
  unfold precedes.
  destruct (array_index a) as [i |], (array_index b) as [j |],
    (array_index c) as [k |]; try discriminate; try reflexivity.
  intros H1 H2. apply N.ltb_lt in H1, H2. apply N.ltb_lt. lia.
Qed.

Lemma forallb_insert_property (P : string * value -> bool) (k : string)
      (v : value) (ps : properties) :
  forallb P (insert_property k v ps) = P (k, v) && forallb P ps.
Proof.
  induction ps as [| [k0 v0] ps IH]; cbn [insert_property forallb];
    [reflexivity |].
  destruct (precedes k k0); cbn [forallb]; [reflexivity |].
  rewrite IH. now destruct (P (k, v)), (P (k0, v0)).
Qed.

Lemma keys_replace_property (k : string) (v : value) (ps : properties) :
  List.map fst (replace_property k v ps) = List.map fst ps.
Proof.
  induction ps as [| [k0 v0] ps IH]; cbn [replace_property List.map];
    [reflexivity |].
  destruct (String.eqb_spec k k0) as [-> | _]; cbn [List.map fst];
    [reflexivity | now rewrite IH].
Qed.

Lemma forallb_keys (f : string -> bool) (ps : properties) :
  forallb (fun kv => f (fst kv)) ps = forallb f (List.map fst ps).
Proof.
  induction ps as [| [k v] ps IH]; cbn [forallb List.map fst];
    [reflexivity | now rewrite IH].
Qed.

Lemma ordered_keys_names (ps : properties) :
  forall qs, List.map fst ps = List.map fst qs ->
             ordered_keys ps = ordered_keys qs.
Proof.
  induction ps as [| [k v] ps IH]; intros [| [k' v'] qs]; cbn [List.map fst];
    try discriminate; [reflexivity |].
  intros H. injection H as -> Hrest. cbn [ordered_keys].
  rewrite (IH qs Hrest). f_equal.
  rewrite (forallb_keys (fun k0 => negb (precedes k0 k')) ps).
  rewrite (forallb_keys (fun k0 => negb (precedes k0 k')) qs).
  now rewrite Hrest.
Qed.

Lemma ordered_insert_property (k : string) (v : value) (ps : properties) :
  ordered_keys ps = true -> ordered_keys (insert_property k v ps) = true.
Proof.
  induction ps as [| [k0 v0] ps IH]; cbn [insert_property ordered_keys];
    [reflexivity |].
  intros H. apply andb_prop in H. destruct H as [Hall Hord].
  destruct (precedes k k0) eqn:Hk; cbn [ordered_keys forallb fst].
  - rewrite (precedes_asymmetric k k0 Hk), Hall, Hord. cbn [negb andb].
    rewrite !andb_true_r. apply forallb_forall. intros [kj vj] Hin. cbn [fst].
    rewrite forallb_forall in Hall. specialize (Hall (kj, vj) Hin).
    cbn [fst] in Hall. destruct (precedes kj k) eqn:Hj; [| reflexivity].
    now rewrite (precedes_transitive kj k k0 Hj Hk) in Hall.
  - rewrite forallb_insert_property, Hall, (IH Hord). cbn [fst].
    now rewrite Hk.
Qed.

Lemma ordered_define_property (k : string) (v : value) (ps : properties) :
  ordered_keys ps = true -> ordered_keys (define_property k v ps) = true.
Proof.
  intros H. unfold define_property. destruct (get_property k ps).
  - now rewrite (ordered_keys_names _ ps (keys_replace_property k v ps)).
  - now apply ordered_insert_property.
Qed.

Lemma forallb_replace_property (P : string * value -> bool) (k : string)
      (v : value) (ps : properties) :
  P (k, v) = true -> forallb P ps = true ->
  forallb P (replace_property k v ps) = true.
Proof.
  intros Hk. induction ps as [| [k0 v0] ps IH]; cbn [replace_property forallb];
    [reflexivity |].
  intros H. apply andb_prop in H. destruct H as [H0 Hps].
  destruct (String.eqb k k0); cbn [forallb].
  - now rewrite Hk, Hps.
  - now rewrite H0, (IH Hps).
Qed.

Lemma json_define_property (k : string) (v : value) (ps : properties) :
  json v = true -> json (VObj ps) = true ->
  json (VObj (define_property k v ps)) = true.
Proof.
  cbn [json]. intros Hv H.
  apply andb_prop in H. destruct H as [H Hvs].
  apply andb_prop in H. destruct H as [Hd Ho].
  rewrite (distinct_define_property k v ps Hd),
    (ordered_define_property k v ps Ho). cbn [andb].
  unfold define_property. destruct (get_property k ps).
  - now apply forallb_replace_property.
  - rewrite forallb_insert_property. cbn [snd]. now rewrite Hv, Hvs.
Qed.

Lemma parse_number_canonical (s rest : list ascii) (n : number) :
  parse_number s = Some (n, rest) -> canonical n = true.
Proof.
  rewrite parse_number_stages.
  destruct (read_sign s) as [negative s1].
  destruct (read_integer s1) as [[int s2] |]; [| discriminate].
  destruct (read_fraction s2) as [[frac s3] |]; [| discriminate].
  destruct (read_exponent s3) as [[ex s4] |]; [| discriminate].
  cbv zeta. intros H. injection H as <- _. apply decimal_canonical.
Qed.

Lemma parse_json (fuel : nat) :
  (forall s v rest, parse_value fuel s = Parsed v rest -> json v = true)
  /\ (forall s acc v rest,
        forallb json acc = true ->
        parse_elements fuel s acc = Parsed v rest -> json v = true)
  /\ (forall s acc v rest,
        json (VObj acc) = true ->
        parse_members fuel s acc = Parsed v rest -> json v = true).
Proof.
  induction fuel as [| fuel [IHv [IHe IHm]]];
    [repeat split; intros; discriminate |].
  repeat split.
  - intros s v rest. cbn [parse_value].
    destruct (skip_whitespace s) as [| c rest0]; [discriminate |].
    destruct (Ascii.eqb c "["%char).
    { destruct (skip_whitespace rest0) as [| c1 rest1]; [discriminate |].
      destruct (Ascii.eqb c1 "]"%char).
      - intros H. injection H as <- _. reflexivity.
      - apply IHe. reflexivity. }
    destruct (Ascii.eqb c "{"%char).
    { destruct (skip_whitespace rest0) as [| c1 rest1]; [discriminate |].
      destruct (Ascii.eqb c1 "}"%char).
      - intros H. injection H as <- _. reflexivity.
      - apply IHm. reflexivity. }
    destruct (Ascii.eqb c dquote).
    { destruct (parse_string rest0 []) as [[str rest1] |]; [| discriminate].
      intros H. injection H as <- _. reflexivity. }
    unfold parse_keyword.
    destruct (Ascii.eqb c "t"%char).
    { destruct (strip_prefix _ _); [| discriminate].
      intros H. injection H as <- _. reflexivity. }
    destruct (Ascii.eqb c "f"%char).
    { destruct (strip_prefix _ _); [| discriminate].
      intros H. injection H as <- _. reflexivity. }
    destruct (Ascii.eqb c "n"%char).
    { destruct (strip_prefix _ _); [| discriminate].
      intros H. injection H as <- _. reflexivity. }
    destruct (parse_number (c :: rest0)) as [[n rest1] |] eqn:Hn;
      [| discriminate].
    intros H. injection H as <- _. cbn [json].
    exact (parse_number_canonical _ _ _ Hn).
  - intros s acc v rest Hacc. cbn [parse_elements].
    destruct (parse_value fuel s) as [v0 rest0 | |] eqn:Hp; try discriminate.
    apply IHv in Hp.
    destruct (skip_whitespace rest0) as [| c rest1]; [discriminate |].
    destruct (Ascii.eqb c ","%char).
    { apply IHe. cbn [forallb]. now rewrite Hp, Hacc. }
    destruct (Ascii.eqb c "]"%char); [| discriminate].
    intros H. injection H as <- _. cbn [json].
    apply forallb_forall. intros x Hin. apply in_app_or in Hin.
    destruct Hin as [Hin | [<- | []]]; [| exact Hp].
    rewrite <- in_rev in Hin. rewrite forallb_forall in Hacc. now apply Hacc.
  - intros s acc v rest Hacc. cbn [parse_members].
    destruct (skip_whitespace s) as [| c rest0]; [discriminate |].
    destruct (Ascii.eqb c dquote); [| discriminate].
    destruct (parse_string rest0 []) as [[k rest1] |]; [| discriminate].
    destruct (skip_whitespace rest1) as [| c1 rest2]; [discriminate |].
    destruct (Ascii.eqb c1 ":"%char); [| discriminate].
    destruct (parse_value fuel rest2) as [v0 rest3 | |] eqn:Hp;
      try discriminate.
    apply IHv in Hp.
    destruct (skip_whitespace rest3) as [| c2 rest4]; [discriminate |].
    destruct (Ascii.eqb c2 ","%char).
    { apply IHm. now apply json_define_property. }
    destruct (Ascii.eqb c2 "}"%char); [| discriminate].
    intros H. injection H as <- _. now apply json_define_property.
Qed.

Lemma JSON_parse_text_json (text : string) (v : value) :
  JSON_parse_text text = Return v -> json v = true.
Proof.
  unfold JSON_parse_text. cbv zeta.
  destruct (parse_value _ _) as [v0 rest | |] eqn:Hp; try discriminate.
  destruct (skip_whitespace rest); [| discriminate].
  intros H. injection H as <-. exact (proj1 (parse_json _) _ _ _ Hp).
Qed.

Lemma JSON_parse_text_serialized (v : value) (text : list ascii) :
  reads_back v text ->
  JSON_parse_text (string_of_list_ascii text) = Return v.
Proof.
  intros [_ H]. unfold JSON_parse_text. cbv zeta.
  rewrite list_ascii_of_string_of_list_ascii.
  specialize (H (2 * List.length text + 1) [] eq_refl).
  rewrite app_nil_r in H. rewrite H by lia. reflexivity.
Qed.

(** ** [string], [toString], [set] and the constructor *)

Lemma stringify_reads_back (v : value) :
  json v = true ->
  exists text,
    JSON_stringify v = Return (VStr text)
    /\ text <> EmptyString
    /\ JSON_parse_text text = Return v.
Proof.
  intros Hj. destruct (serialize_reads_back v Hj) as [text [Hs Hr]].
  exists (string_of_list_ascii text). split; [| split].
  - unfold JSON_stringify. now rewrite Hs.
  - destruct Hr as [[c [cs [-> _]]] _]. discriminate.
  - now apply JSON_parse_text_serialized.
Qed.

(** X16.  A payload that is a JSON value (null, a boolean, a finite Number,
    a string, an array of such, or an object of such with its keys in the
    host's order) is written by [string] as a text from which [set] restores
    exactly that payload, on any object; [string] leaves its object
    unchanged. *)
Theorem string_then_set (this that : ObjockeyObject) :
  json (internal this) = true ->
  exists text,
    string_ this = (Return (Result (VStr text)), this)
    /\ set (VStr text) that
       = (Return This, set_internal (internal this) that).
Proof.
  intros Hj. destruct (stringify_reads_back _ Hj) as [text [Hs [_ Hp]]].
  exists text. split.
  - unfold string_. now rewrite Hs.
  - unfold set, JSON_parse. cbn [typeof String.eqb Ascii.eqb Bool.eqb ToString bind].
    now rewrite Hp.
Qed.

Lemma string_then_set_witness :
  exists text,
    string_ (holding (VObj [("1", VArr [position 1; VNull; VStr "x"]);
                            ("a", VBool true)]))
    = (Return (Result (VStr text)),
       holding (VObj [("1", VArr [position 1; VNull; VStr "x"]);
                      ("a", VBool true)]))
    /\ set (VStr text) (holding VNull)
       = (Return This,
          holding (VObj [("1", VArr [position 1; VNull; VStr "x"]);
                         ("a", VBool true)])).
Proof.
  exact (string_then_set
           (holding (VObj [("1", VArr [position 1; VNull; VStr "x"]);
                           ("a", VBool true)]))
           (holding VNull) eq_refl).
Defined.

(** X17.  The text [toString] gives for a JSON payload, handed to the
    constructor, builds an object that holds the same payload and prints with
    the default printer. *)
Theorem toString_then_constructor (this : ObjockeyObject) :
  json (internal this) = true ->
  exists text,
    toString this = (Return (Result (VStr text)), this)
    /\ constructor (VStr text) = Return (holding (internal this)).
Proof.
  intros Hj. destruct (stringify_reads_back _ Hj) as [text [Hs [Hne Hp]]].
  exists text. split.
  - unfold toString. now rewrite Hs.
  - unfold constructor, JSON_parse. cbv zeta.
    cbn [Array_isArray instanceof_Object orb is_empty_string ToString bind].
    destruct (String.eqb_spec text EmptyString) as [He | _]; [contradiction |].
    now rewrite Hp.
Qed.

Lemma toString_then_constructor_witness :
  exists text,
    toString (holding (VArr [position 3; VObj [("k", VStr "v")]]))
    = (Return (Result (VStr text)),
       holding (VArr [position 3; VObj [("k", VStr "v")]]))
    /\ constructor (VStr text)
       = Return (holding (VArr [position 3; VObj [("k", VStr "v")]])).
Proof.
  exact (toString_then_constructor
           (holding (VArr [position 3; VObj [("k", VStr "v")]])) eq_refl).
Defined.

Lemma json_plain_data (v : value) : json v = true -> plain_data v = true.
Proof.
  induction v as [| | b | n | z | s | d | l IH | ps IH] using value_induction;
    cbn [json plain_data]; try (intros; assumption || reflexivity).
  - destruct n; [discriminate | reflexivity | reflexivity].
  - intros H. rewrite forallb_forall in H. apply forallb_forall.
    rewrite Forall_forall in IH. intros x Hin. exact (IH x Hin (H x Hin)).
  - intros H. apply andb_prop in H. destruct H as [_ H].
    rewrite forallb_forall in H. apply forallb_forall.
    rewrite Forall_forall in IH. intros kv Hin. exact (IH kv Hin (H kv Hin)).
Qed.

Lemma JSON_parse_text_plain (text : string) (v : value) :
  JSON_parse_text text = Return v -> plain_data v = true.
Proof.
  intros H. apply json_plain_data. exact (JSON_parse_text_json text v H).
Qed.

(** X18.  Whatever text [set] accepts, the payload it installs is built of
    [null], booleans, Numbers other than NaN, strings, arrays and objects,
    with no [undefined], BigInt or Symbol at any depth, and the printer is
    kept. *)
Theorem set_text_payload (text : string) (this this' : ObjockeyObject)
    (r : returned) :
  set (VStr text) this = (Return r, this') ->
  plain_data (internal this') = true
  /\ print_output_using this' = print_output_using this.
Proof.
  unfold set, JSON_parse.
  cbn [typeof String.eqb Ascii.eqb Bool.eqb ToString bind].
  destruct (JSON_parse_text text) as [v | err] eqn:Hp; [| discriminate].
  intros H. injection H as _ <-. split; [| reflexivity].
  exact (JSON_parse_text_plain text v Hp).
Qed.

Lemma set_text_payload_witness :
  plain_data
    (internal (set_internal (VArr [position 1; position 2]) (holding VNull)))
  = true
  /\ print_output_using (set_internal (VArr [position 1; position 2])
                                      (holding VNull))
     = print_output_using (holding VNull).
Proof.
  exact (set_text_payload "[1, 2]" (holding VNull)
           (set_internal (VArr [position 1; position 2]) (holding VNull))
           This eq_refl).
Defined.

(** X19.  Whatever the source, an object the constructor builds prints with
    the default printer, and its payload is either unset or built of [null],
    booleans, Numbers other than NaN, strings, arrays and objects. *)
Theorem constructor_payload (source : value) (this : ObjockeyObject) :
  constructor source = Return this ->
  print_output_using this = console_log
  /\ (internal this = VUndefined \/ plain_data (internal this) = true).
Proof.
  unfold constructor. cbv zeta.
  destruct (Array_isArray source || instanceof_Object source).
  { intros H. injection H as <-. split; [reflexivity | now left]. }
  destruct (is_empty_string source).
  { intros H. injection H as <-. split; [reflexivity | now left]. }
  unfold JSON_parse.
  destruct (ToString source) as [text | err] eqn:Ht; cbn [bind].
  - destruct (JSON_parse_text text) as [v | err] eqn:Hp.
    + intros H. injection H as <-. split; [reflexivity | right].
      exact (JSON_parse_text_plain text v Hp).
    + destruct (instanceof_SyntaxError err); [discriminate |].
      intros H. injection H as <-. split; [reflexivity | now left].
  - destruct (instanceof_SyntaxError err); [discriminate |].
    intros H. injection H as <-. split; [reflexivity | now left].
Qed.

Lemma constructor_payload_witness :
  print_output_using (holding (VArr [position 1; VArr [VBool true; VNull]]))
  = console_log
  /\ (internal (holding (VArr [position 1; VArr [VBool true; VNull]]))
      = VUndefined
      \/ plain_data
           (internal (holding (VArr [position 1; VArr [VBool true; VNull]])))
         = true).
Proof.
  exact (constructor_payload (VStr " [1, [true, null]] ")
           (holding (VArr [position 1; VArr [VBool true; VNull]])) eq_refl).
Defined.

(** ** The transformations in the store *)

Lemma store_prefix_length (s st : store) :
  firstn (List.length s) st = s -> List.length s <= List.length st.
Proof.
  intros H. apply (f_equal (@List.length value)) in H.
  rewrite length_firstn in H. lia.
Qed.

Lemma fetch_kept (s st : store) (a : address) :
  firstn (List.length s) st = s -> a < List.length s ->
  fetch a st = fetch a s.
Proof.
  intros H Ha. unfold fetch. rewrite <- H at 1. rewrite nth_firstn.
  destruct (Nat.ltb_spec a (List.length s)); [reflexivity | lia].
Qed.

Lemma contents_kept (x : slot) (s st : store) :
  well_formed x s = true -> firstn (List.length s) st = s ->
  contents x st = contents x s.
Proof.
  destruct x as [v | a]; [reflexivity |]. cbn [well_formed contents].
  intros Hwf H. apply andb_prop in Hwf. destruct Hwf as [Ha _].
  apply Nat.ltb_lt in Ha. now apply fetch_kept.
Qed.

Lemma allocate_keeps (s st : store) (v : value) :
  firstn (List.length s) st = s ->
  firstn (List.length s) (st ++ [v])%list = s.
Proof.
  intros H. pose proof (store_prefix_length s st H) as Hle.
  rewrite firstn_app.
  replace (List.length s - List.length st) with 0 by lia.
  cbn [firstn]. now rewrite app_nil_r.
Qed.

Lemma fetch_allocate (st : store) (v : value) :
  fetch (List.length st) (st ++ [v])%list = v.
Proof. unfold fetch. apply nth_middle. Qed.

Lemma overwrite_keeps (s st : store) (a : address) (v : value) :
  firstn (List.length s) st = s -> List.length s <= a ->
  firstn (List.length s) (overwrite a v st) = s.
Proof.
  intros H Ha. unfold overwrite. rewrite firstn_app, firstn_firstn.
  replace (Nat.min (List.length s) a) with (List.length s) by lia.
  rewrite H. rewrite length_firstn.
  pose proof (store_prefix_length s st H) as Hle.
  replace (List.length s - Nat.min a (List.length st)) with 0 by lia.
  cbn [firstn]. now rewrite app_nil_r.
Qed.

Lemma overwrite_length (st : store) (a : address) (v : value) :
  a < List.length st -> List.length (overwrite a v st) = List.length st.
Proof.
  intros Ha. unfold overwrite.
  rewrite length_app, length_firstn. cbn [List.length].
  rewrite length_skipn. lia.
Qed.

Lemma fetch_overwrite (st : store) (a : address) (v : value) :
  a < List.length st -> fetch a (overwrite a v st) = v.
Proof.
  intros Ha. unfold fetch, overwrite.
  assert (Hlen : List.length (firstn a st) = a)
    by (rewrite length_firstn; lia).
  rewrite <- Hlen at 1. apply nth_middle.
Qed.



Lemma for_of_stored_alike {E A : Type} (s0 : store)
    (wrap : A -> list value + properties)
    (body : E -> nat -> A -> completion A)
    (body' : E -> nat -> address -> stored address) :
  (forall x i a f s,
      in_step s0 (wrap a) f s ->
      alike s0 wrap (body x i a) (body' x i f s)) ->
  forall l i a f s,
    in_step s0 (wrap a) f s ->
    alike s0 wrap (for_of l i body a) (for_of_stored l i body' f s).
Proof.
  intros Hbody l.
  induction l as [| x rest IH]; intros i a f s Hstep;
    cbn [for_of for_of_stored]; [exact Hstep |].
  specialize (Hbody x i a f s Hstep). unfold alike in Hbody.
  destruct (body x i a) as [a' | err],
    (body' x i f s) as [[f' | err'] s'];
    cbn [bind fst snd] in *; try contradiction.
  - apply IH. exact Hbody.
  - exact Hbody.
Qed.

Lemma in_step_allocate_first (s0 : store) :
  (in_step s0 (inl []) (List.length s0) (s0 ++ [VArr []])%list)
  /\ (in_step s0 (inr []) (List.length s0) (s0 ++ [VObj []])%list).
Proof.
  unfold in_step.
  rewrite !allocate_keeps by apply firstn_all.
  rewrite !fetch_allocate, !length_app. cbn [List.length].
  repeat split; lia.
Qed.

Lemma in_step_allocate (s0 s : store) (wrap : list value + properties)
    (x : address) (ps : properties) :
  in_step s0 wrap x s ->
  in_step s0 (inr ps) (List.length s) (s ++ [VObj ps])%list.
Proof.
  intros [Hs [Hl _]]. unfold in_step.
  rewrite (allocate_keeps s0 s _ Hs), fetch_allocate, length_app.
  cbn [List.length]. repeat split; lia.
Qed.

Lemma in_step_push_at (s0 s : store) (x : address) (l : list value)
    (v : value) :
  in_step s0 (inl l) x s ->
  in_step s0 (inl (Array_push l v)) x (push_at x v s).
Proof.
  intros [Hs [Hl Hf]]. unfold in_step, push_at. rewrite Hf. cbn [elements_of].
  rewrite (overwrite_keeps s0 s x _ Hs) by lia.
  rewrite overwrite_length, fetch_overwrite by lia.
  repeat split; lia.
Qed.

Lemma in_step_contents (s0 s : store) (wrap : list value + properties)
    (x : address) (internal : slot) :
  well_formed internal s0 = true ->
  in_step s0 wrap x s ->
  contents internal s = contents internal s0.
Proof. intros Hwf [Hs _]. now apply contents_kept. Qed.

(** The end of a call whose loop ran alike in the store and on the
    contents. *)
Lemma returns_alike {A : Type} (s0 : store)
    (wrap : A -> list value + properties) (result : A -> value)
    (c : completion A) (d : completion address * store) :
  (forall a, result a = match wrap a with
                        | inl l => VArr l
                        | inr ps => VObj ps
                        end) ->
  alike s0 wrap c d ->
  new_container s0 (returns d)
  /\ same_result (returns d) (a <- c ;; Return (Result (result a))).
Proof.
  intros Hresult H. unfold alike in H.
  destruct c as [a | err], d as [[x | err'] s];
    cbn [fst snd] in H; try contradiction;
    unfold returns, new_container, same_result;
    cbn [bind fst snd contents].
  - destruct H as [Hs [Hl Hf]]. rewrite Hf, Hresult.
    repeat split; try assumption; try lia.
    now destruct (wrap a).
  - destruct H as [<- Hs]. repeat split. exact Hs.
Qed.

Lemma filter_in_store_spec (t : callback) (x : slot) (s : store) :
  well_formed x s = true ->
  new_container s (filter_in_store t x s)
  /\ same_result (filter_in_store t x s)
                 (fst (filter t (holding (contents x s)))).
Proof.
  intros Hwf. unfold filter_in_store, filter, isArray, isObject, allocate.
  cbn [internal holding fst].
  set (buffer := contents x s).
  destruct (in_step_allocate_first s) as [Harray Hobject].
  destruct (Array_isArray buffer) eqn:Harr.
  - apply (returns_alike s inl VArr); [reflexivity |].
    apply for_of_stored_alike; [| exact Harray].
    intros val i filtered f st Hstep. unfold alike. cbn [fst snd].
    rewrite (in_step_contents s st _ f x Hwf Hstep). fold buffer.
    destruct (truthy _); [now apply in_step_push_at | exact Hstep].
  - destruct (String.eqb (typeof buffer) "object" && negb (is_null buffer)).
    + apply (returns_alike s inr VObj); [reflexivity |].
      unfold for_in, for_in_stored.
      apply for_of_stored_alike; [| exact Hobject].
      intros key i filtered f st Hstep. unfold alike.
      rewrite (in_step_contents s st _ f x Hwf Hstep). fold buffer.
      destruct (truthy _); cbn [allocate fst snd]; [| exact Hstep].
      unfold properties_at. rewrite (proj2 (proj2 Hstep)).
      exact (in_step_allocate s st _ f _ Hstep).
    + apply (returns_alike s inr VObj (Return [])); [reflexivity |].
      exact Hobject.
Qed.

Lemma condenseMap_in_store_spec (t : callback) (x : slot) (s : store) :
  well_formed x s = true ->
  new_container s (condenseMap_in_store t x s)
  /\ same_result (condenseMap_in_store t x s)
                 (fst (condenseMap t (holding (contents x s)))).
Proof.
  intros Hwf.
  unfold condenseMap_in_store, condenseMap, isArray, isObject, allocate.
  cbn [internal holding fst].
  set (buffer := contents x s).
  destruct (in_step_allocate_first s) as [Harray Hobject].
  destruct (Array_isArray buffer) eqn:Harr.
  - apply (returns_alike s inl VArr); [reflexivity |].
    apply for_of_stored_alike; [| exact Harray].
    intros val i newData f st Hstep. unfold alike. cbv zeta. cbn [fst snd].
    rewrite (in_step_contents s st _ f x Hwf Hstep). fold buffer.
    destruct (negb _); [now apply in_step_push_at | exact Hstep].
  - destruct (String.eqb (typeof buffer) "object" && negb (is_null buffer)).
    + apply (returns_alike s inr VObj); [reflexivity |].
      unfold for_in, for_in_stored.
      apply for_of_stored_alike; [| exact Hobject].
      intros key i newData f st Hstep. unfold alike. cbv zeta.
      rewrite (in_step_contents s st _ f x Hwf Hstep). fold buffer.
      destruct (negb (is_undefined _)); cbn [fst snd]; [| exact Hstep].
      destruct (JSON_parse _) as [parsed | err]; cbn [bind fst snd];
        [| split; [reflexivity | exact (proj1 Hstep)]].
      destruct (negb (Array_isArray _)); cbn [allocate fst snd];
        [| split; [reflexivity | exact (proj1 Hstep)]].
      unfold properties_at. rewrite (proj2 (proj2 Hstep)).
      exact (in_step_allocate s st _ f _ Hstep).
    + apply (returns_alike s inr VObj (Return [])); [reflexivity |].
      exact Hobject.
Qed.

Lemma map_in_store_spec (t : callback) (x : slot) (s : store) :
  well_formed x s = true ->
  new_container s (map_in_store t x s)
  /\ same_result (map_in_store t x s)
                 (fst (map t (holding (contents x s)))).
Proof.
  intros Hwf. unfold map_in_store, map, isArray, allocate.
  cbn [internal holding fst].
  set (buffer := contents x s).
  destruct (in_step_allocate_first s) as [Harray Hobject].
  destruct (Array_isArray buffer) eqn:Harr.
  - apply (returns_alike s inl VArr); [reflexivity |].
    apply for_of_stored_alike; [| exact Harray].
    intros val i newData f st Hstep. unfold alike. cbn [fst snd].
    rewrite (proj2 (proj2 Hstep)). now apply in_step_push_at.
  - apply (returns_alike s inr VObj); [reflexivity |].
    unfold for_in, for_in_stored.
    apply for_of_stored_alike; [| exact Hobject].
    intros key i newData f st Hstep. unfold alike. cbv zeta.
    rewrite (in_step_contents s st _ f x Hwf Hstep). fold buffer.
    cbn [allocate fst snd].
    unfold properties_at. rewrite (proj2 (proj2 Hstep)).
    exact (in_step_allocate s st _ f _ Hstep).
Qed.

(** ** The transformations and the payload *)

Lemma transformations_return (that : ObjockeyObject) (t : callback) :
  (exists v, fst (filter t that) = Return (Result v)
             /\ sequence_or_mapping v = true)
  /\ (exists v, fst (map t that) = Return (Result v)
                /\ sequence_or_mapping v = true)
  /\ match fst (condenseMap t that) with
     | Return (Result v) => sequence_or_mapping v = true
     | Return This => False
     | Throw _ => isArray that = false
     end.
Proof.
  split; [| split].
  - unfold filter. cbn [fst].
    destruct (isArray that); [| destruct (isObject that)];
      erewrite ?for_of_pure, ?for_in_pure by (intros; reflexivity);
      cbn [bind]; eexists; split; reflexivity.
  - unfold map. cbn [fst].
    destruct (isArray that);
      erewrite ?for_of_pure, ?for_in_pure by (intros; reflexivity);
      cbn [bind]; eexists; split; reflexivity.
  - unfold condenseMap. cbn [fst].
    destruct (isArray that); [| destruct (isObject that)].
    + erewrite for_of_pure by (intros; reflexivity). reflexivity.
    + destruct (for_in _ _ _); reflexivity.
    + reflexivity.
Qed.

(** C9.  On a sequence payload [S], [filter] returns the elements at which
    the predicate holds, in their order, and the object is unchanged.  [map]
    returns a sequence as long as [S], each element being the result of the
    transform there, or [undefined] for a falsy one; [condenseMap] returns
    the results that are not [undefined], in order.  Whatever the payload,
    the three leave the object unchanged and hand back a sequence or a
    mapping, never the object; [filter] and [map] never throw, and
    [condenseMap] throws only on a payload that is not a sequence.

    Followed through a store of containers, each of the three leaves every
    container the store had as it was, the payload among them, also when it
    throws, and returns a container at an address the store did not have,
    whose contents are the value the method returns on the contents of the
    payload.  For [map] the
    contents are stated for a transform whose result holds no reference to
    the array it is handed. *)
Theorem transformations_keep_payload (this : ObjockeyObject) (S : list value)
    (p : callback) :
  internal this = VArr S ->
  filter p this = (Return (Result (VArr (kept p S))), this)
  /\ internal (snd (filter p this)) = VArr S
  /\ (forall (that : ObjockeyObject) (t : callback),
        snd (filter t that) = that
        /\ snd (map t that) = that
        /\ snd (condenseMap t that) = that
        /\ fst (filter t that) <> Return This
        /\ fst (map t that) <> Return This
        /\ fst (condenseMap t that) <> Return This)
  /\ (forall t : callback,
        exists out,
          map t this = (Return (Result (VArr out)), this)
          /\ List.length out = List.length S
          /\ (keeps_no_reference t ->
              forall i, i < List.length S ->
                nth i out VUndefined
                = or_else (t (nth i S VUndefined) (position i)
                             (VArr (firstn i out)))
                          VUndefined))
  /\ (forall t : callback,
        condenseMap t this
        = (Return
             (Result
                (VArr (List.filter
                         (fun v => negb (is_undefined v))
                         (List.map
                            (fun vi => t (fst vi) (position (snd vi)) (VArr S))
                            (combine S (seq 0 (List.length S))))))),
           this))
  /\ (forall (that : ObjockeyObject) (t : callback),
        (exists v, fst (filter t that) = Return (Result v)
                   /\ sequence_or_mapping v = true)
        /\ (exists v, fst (map t that) = Return (Result v)
                      /\ sequence_or_mapping v = true)
        /\ match fst (condenseMap t that) with
           | Return (Result v) => sequence_or_mapping v = true
           | Return This => False
           | Throw _ => isArray that = false
           end)
  /\ (forall (x : slot) (s : store) (t : callback),
        well_formed x s = true ->
        new_container s (filter_in_store t x s)
        /\ same_result (filter_in_store t x s)
                       (fst (filter t (holding (contents x s))))
        /\ new_container s (map_in_store t x s)
        /\ (keeps_no_reference t ->
            same_result (map_in_store t x s)
                        (fst (map t (holding (contents x s)))))
        /\ new_container s (condenseMap_in_store t x s)
        /\ same_result (condenseMap_in_store t x s)
                       (fst (condenseMap t (holding (contents x s))))).
Proof.
  intros Hs. split; [now apply filter_sequence |].
  split; [rewrite (filter_sequence p this S Hs); exact Hs |].
  split.
  { intros that t. repeat split.
    - unfold filter; simpl.
      destruct (isArray that); [| destruct (isObject that)]; simpl;
        try discriminate;
        erewrite ?for_of_pure, ?for_in_pure by (intros; reflexivity);
        discriminate.
    - unfold map; simpl.
      destruct (isArray that); simpl;
        erewrite ?for_of_pure, ?for_in_pure by (intros; reflexivity);
        discriminate.
    - unfold condenseMap; simpl.
      destruct (isArray that); [| destruct (isObject that)]; simpl;
        try discriminate.
      + erewrite for_of_pure by (intros; reflexivity). discriminate.
      + match goal with
        | |- context [bind ?c _] => destruct c
        end; discriminate. }
  split.
  { intros t. destruct (map_sequence_results t this S Hs) as [out [Hm [Hl _]]].
    exists out. split; [exact Hm |]. split; [exact Hl |].
    revert Hm. unfold map, isArray. rewrite Hs. simpl.
    erewrite for_of_pure by (intros; reflexivity). simpl.
    intros Hm _ i Hi. inversion Hm as [Hout].
    exact (proj2 (map_sequence_loop t S 0 []) i Hi). }
  split.
  { intros t. unfold condenseMap, isArray. rewrite Hs. simpl.
    erewrite for_of_pure by (intros; reflexivity). simpl.
    rewrite (collect_loop
               (fun v i => negb (is_undefined (t v (position i) (VArr S))))
               (fun v i => t v (position i) (VArr S))).
    simpl. now rewrite filter_map_swap. }
  split; [exact transformations_return |].
  intros x s t Hwf.
  destruct (filter_in_store_spec t x s Hwf) as [Hf1 Hf2].
  destruct (map_in_store_spec t x s Hwf) as [Hm1 Hm2].
  destruct (condenseMap_in_store_spec t x s Hwf) as [Hc1 Hc2].
  split; [exact Hf1 |]. split; [exact Hf2 |]. split; [exact Hm1 |].
  split; [intros _; exact Hm2 |]. split; [exact Hc1 | exact Hc2].
Qed.

Lemma transformations_keep_payload_witness :
  filter second_argument (holding one_two_three)
  = (Return (Result (VArr [position 2; position 3])), holding one_two_three)
  /\ new_container [one_two_three]
       (map_in_store first_argument (Container 0) [one_two_three])
  /\ new_container [one_two_three]
       (condenseMap_in_store first_argument (Container 0) [one_two_three]).
Proof.
  pose proof (transformations_keep_payload (holding one_two_three)
                [position 1; position 2; position 3] second_argument
                eq_refl) as H.
  split; [exact (proj1 H) |].
  destruct H as [_ [_ [_ [_ [_ [_ H]]]]]].
  specialize (H (Container 0) [one_two_three] first_argument eq_refl).
  split; [exact (proj1 (proj2 (proj2 H))) |].
  exact (proj1 (proj2 (proj2 (proj2 (proj2 H))))).
Defined.
